(** * ha-asusrouter: the router module (custom_components/asusrouter/router.py)

    A shallow embedding of [ARSensorHandler] and [ARDevice]: the
    latest-connected history ([connected_device]), the reconciliation passes
    ([update_devices], [update_nodes]), the aggregate sensors and their
    publication ([update_clients], [update_aimesh],
    [_update_unpolled_sensors]) and the tracker removal ([remove_trackers]);
    then what the handler serves ([_get_clients], [_get_aimesh]) and the
    coordinators it makes ([get_coordinator]), the setup from its passes on
    ([setup]), the options ([update_options]), closing ([close],
    [async_on_close]) and the ports data of bridge.py
    ([_process_data_ports], [_process_sensors_ports]).

    Python objects are modelled as follows.
    - An identity dictionary ([dict[str, Any]]) is a [gmap string value]; two
      dictionaries are [==] exactly when the maps are equal.
    - [ARDevice._clients] and [ARDevice._aimesh] are insertion-ordered
      dictionaries: association lists in insertion order.
    - The methods mutate [self], log, send signals and may raise: they are
      computations in a state-and-exception monad over a [World] holding the
      device, the trace of observable effects and the clock. A raised
      exception keeps the mutations made before it, as in Python.
    - [datetime.now] reads a clock; every reading advances it. *)

From Stdlib Require Import ZArith Lia Bool.
From stdpp Require Import base option list gmap strings sorting.

Local Open Scope string_scope.
Local Open Scope Z_scope.
Local Open Scope list_scope.

(** ** Python values held by identity dictionaries *)

Inductive value :=
| VNone
| VBool (b : bool)
| VStr (s : string)
(** a [datetime], as its place on the time line *)
| VDatetime (t : Z).

#[global] Instance value_eq_dec : EqDecision value.
Proof. solve_decision. Defined.

(** Python truthiness ([not v] is the negation). A datetime is always true. *)
Definition truthy (v : value) : bool :=
  match v with
  | VNone => false
  | VBool b => b
  | VStr s => if decide (s = "") then false else true
  | VDatetime _ => true
  end.

Abbreviation identity := (gmap string value).

(** [d.get(k)], which is [d.get(k, None)]. *)
Definition dict_get (k : string) (d : identity) : value :=
  default VNone (d !! k).

(** ** Python values held by the options dictionary *)

(** The values of the options dictionary: [None], booleans, integers and
    strings. *)
Inductive pyval :=
| PNone
| PBool (b : bool)
| PInt (n : Z)
| PStr (s : string).

#[global] Instance pyval_eq_dec : EqDecision pyval.
Proof. solve_decision. Defined.

(** Python truthiness. *)
Definition py_truthy (v : pyval) : bool :=
  match v with
  | PNone => false
  | PBool b => b
  | PInt n => negb (n =? 0)
  | PStr s => if decide (s = "") then false else true
  end.

(** [a == b]: a boolean is the integer 0 or 1. *)
Definition py_eq (a b : pyval) : bool :=
  match a, b with
  | PNone, PNone => true
  | PBool x, PBool y => bool_decide (x = y)
  | PInt x, PInt y => bool_decide (x = y)
  | PBool x, PInt y | PInt y, PBool x => bool_decide (y = if x then 1 else 0)
  | PStr x, PStr y => bool_decide (x = y)
  | _, _ => false
  end.

(** [d.get(k, default)] *)
Definition options_get (k : string) (default : pyval) (d : gmap string pyval)
    : pyval :=
  match d !! k with
  | Some v => v
  | None => default
  end.

(** ** Names imported from const.py

    const.py is not among the sources; the dictionary keys and the event
    name router.py takes from it are parameters. *)

Class Consts := {
  MAC : string;
  CONNECTED : string;
  CONF_EVENT_NODE_CONNECTED : string;
}.

(** ** Insertion-ordered dictionaries *)

Section odict.
Context {V : Type}.

(** [d[k] = v]: an existing key keeps its position. *)
Fixpoint od_set (k : string) (v : V) (d : list (string * V)) : list (string * V) :=
  match d with
  | [] => [(k, v)]
  | (k', v') :: d' =>
      if decide (k' = k) then (k', v) :: d' else (k', v') :: od_set k v d'
  end.

(** [d.pop(k, None)], returning the value found and the dictionary left. *)
Fixpoint od_pop (k : string) (d : list (string * V)) : option V * list (string * V) :=
  match d with
  | [] => (None, [])
  | (k', v') :: d' =>
      if decide (k' = k) then (Some v', d')
      else let '(r, d'') := od_pop k d' in (r, (k', v') :: d'')
  end.

(** [k in d]. *)
Definition od_mem (k : string) (d : list (string * V)) : bool :=
  bool_decide (k ∈ d.*1).
End odict.

(** ** Entity states (client.py, aimesh.py) and helpers of other packages

    [ARClient] and [AiMeshNode] are defined outside router.py, which uses
    their constructor, their [update] method and their [state] and [identity]
    attributes. [update] receives the router's callbacks; its effect on the
    router is the sequence of callback invocations it makes, returned here
    next to the updated entity: the router runs them once the entity has its
    new state. An identity is a value: an update gives the entity a new
    identity dictionary and leaves the ones handed out before as they were.
    [ClientInfo] and [NodeInfo] are the snapshot records of the asusrouter
    library, [format_mac] is Home Assistant's. *)

Inductive Callback :=
| EventCall (event : string) (args : identity)
| ConnectedCall (ident : identity).

Class Entities := {
  ClientInfo : Type;
  NodeInfo : Type;
  (** [client.connection is not None and
      client.connection.type == ConnectionType.WIRED] *)
  info_wired : ClientInfo → bool;
  format_mac : string → string;
  ARClient : Type;
  client_new : string → ARClient;
  (** truth value of [client.state] *)
  client_state : ARClient → bool;
  client_identity : ARClient → identity;
  (** [client.update(info, consider_home, event_call, connected_call)] at
      clock reading [now]; [consider_home] is [None] when the argument is
      left out. *)
  client_update :
    ARClient → option ClientInfo → option Z → Z → ARClient * list Callback;
  AiMeshNode : Type;
  node_new : string → AiMeshNode;
  node_identity : AiMeshNode → identity;
  (** [node.update(info, event_call)]: only events can be called back. *)
  node_update :
    AiMeshNode → option NodeInfo → Z → AiMeshNode * list (string * identity);
}.

(** ** Configuration

    [ARDevice._options] is read through [get] with the defaults of const.py;
    the record holds what those lookups return. *)

Inductive Mode := ACCESS_POINT | MEDIA_BRIDGE | ROUTER | NODE.

#[global] Instance Mode_eq_dec : EqDecision Mode.
Proof. solve_decision. Defined.

Record Options := {
  (** [_options.get(CONF_TRACK_DEVICES, CONF_DEFAULT_TRACK_DEVICES)] as a
      truth value: [false] stands for the object [False]. *)
  opt_track_devices : bool;
  (** [_options.get(CONF_LATEST_CONNECTED, CONF_DEFAULT_LATEST_CONNECTED)] *)
  opt_latest_connected : Z;
  (** [_options.get(CONF_CONSIDER_HOME, CONF_DEFAULT_CONSIDER_HOME)] *)
  opt_consider_home : Z;
  (** [_options.get(CONF_MODE, CONF_DEFAULT_MODE)] *)
  opt_mode : Mode;
  (** [_options.get(event) is True] *)
  opt_event : string → bool;
  (** the dictionary itself, which [get_coordinator] reads under keys it
      computes *)
  opt_items : gmap string pyval;
}.

(** ** Observable effects *)

Inductive Signal :=
| signal_aimesh_new
| signal_aimesh_update
| signal_device_new
| signal_device_update.

(** The sensor types: [AIMESH] and [DEVICES], which the device serves
    itself, and the sensor types of the bridge, by name. const.py is not
    among the sources: its names for the first two are taken to differ, from
    each other and from the keys of the dictionary
    [ARBridge.async_get_available_sensors] makes. *)
Inductive SensorType :=
| AIMESH
| DEVICES
| Sensor (name : string).

Inductive Effect :=
| LogDebug (msg : string)
| LogInfo (msg : string)
| LogError (msg : string)
(** [async_dispatcher_send(hass, signal)] *)
| DispatcherSend (s : Signal)
(** [hass.bus.fire(f"{DOMAIN}_{event}", args)] *)
| BusFire (event : string) (args : identity)
(** [coordinator.async_refresh()] of the coordinator of a sensor type *)
| Refresh (t : SensorType).

#[global] Instance Signal_eq_dec : EqDecision Signal.
Proof. solve_decision. Defined.
#[global] Instance SensorType_eq_dec : EqDecision SensorType.
Proof. solve_decision. Defined.
#[global] Instance Effect_eq_dec : EqDecision Effect.
Proof. solve_decision. Defined.

(** ** State *)

(** The list object [ARSensorHandler._latest_connected_list] refers to.
    [update_clients] stores the reference it is given, and the device only
    ever passes its own history list, which it mutates in place and never
    rebinds: the handler holds either the empty list it was created with or
    the device's list itself. *)
Inductive HistoryRef := OwnEmptyList | DeviceHistory.

Record ARSensorHandler := {
  h_clients_number : Z;
  h_clients_list : list identity;
  h_latest_connected : value;
  h_latest_connected_list : HistoryRef;
  h_aimesh_number : Z;
  h_aimesh_list : list identity;
}.

(** [ARSensorHandler.__init__] *)
Definition ARSensorHandler_init : ARSensorHandler :=
  {| h_clients_number := 0;
     h_clients_list := [];
     h_latest_connected := VNone;
     h_latest_connected_list := OwnEmptyList;
     h_aimesh_number := 0;
     h_aimesh_list := [] |}.

Record ARDevice `{Entities} := {
  _options : Options;
  _sensor_handler : option ARSensorHandler;
  (** the keys of [_sensor_coordinator], in insertion order *)
  _sensor_coordinator : list SensorType;
  _aimesh : list (string * AiMeshNode);
  _clients : list (string * ARClient);
  _clients_number : Z;
  _clients_list : list identity;
  _aimesh_number : Z;
  _aimesh_list : list identity;
  _latest_connected : value;
  _latest_connected_list : list identity;
  _connect_error : bool;
}.

(** [ARDevice.__init__] *)
Definition ARDevice_init `{Entities} (options : Options) : ARDevice :=
  {| _options := options;
     _sensor_handler := None;
     _sensor_coordinator := [];
     _aimesh := [];
     _clients := [];
     _clients_number := 0;
     _clients_list := [];
     _aimesh_number := 0;
     _aimesh_list := [];
     _latest_connected := VNone;
     _latest_connected_list := [];
     _connect_error := false |}.

(** The world a method runs in: the device, the effects so far (oldest
    first) and the clock, [clock n] being its [n]-th reading. *)
Record World `{Entities} := {
  dev : ARDevice;
  trace : list Effect;
  clock : nat → Z;
  tick : nat;
}.

(** ** The monad of methods *)

Inductive exn := IndexError | KeyError | TypeError | RuntimeError.

Inductive outcome (A : Type) :=
| Ret (a : A)
| Raise (e : exn).
Arguments Ret {A} a.
Arguments Raise {A} e.

Section monad.
Context `{Entities}.

Definition M (A : Type) : Type := World → outcome A * World.

Definition ret {A} (a : A) : M A := λ w, (Ret a, w).

Definition bind {A B} (m : M A) (k : A → M B) : M B :=
  λ w, match m w with
       | (Ret a, w') => k a w'
       | (Raise e, w') => (Raise e, w')
       end.

Definition raise {A} (e : exn) : M A := λ w, (Raise e, w).

Definition get_dev : M ARDevice := λ w, (Ret (dev w), w).

Definition modify_dev (f : ARDevice → ARDevice) : M unit :=
  λ w, (Ret tt, {| dev := f (dev w); trace := trace w;
                   clock := clock w; tick := tick w |}).

Definition emit (e : Effect) : M unit :=
  λ w, (Ret tt, {| dev := dev w; trace := trace w ++ [e];
                   clock := clock w; tick := tick w |}).

(** [datetime.now(timezone.utc)] *)
Definition utcnow : M Z :=
  λ w, (Ret (clock w (tick w)),
        {| dev := dev w; trace := trace w;
           clock := clock w; tick := S (tick w) |}).
End monad.

Notation "x <- m ;; k" := (bind m (λ x, k))
  (at level 100, m at next level, right associativity,
   format "'[v' x  <-  m  ;;  '/' k ']'").
Notation "m ;; k" := (bind m (λ _, k))
  (at level 100, right associativity, format "'[v' m  ;;  '/' k ']'").

(** ** Attribute assignment on the device *)

Section setters.
Context `{Entities}.

Definition set_sensor_handler (x : _) (d : ARDevice) : ARDevice :=
  {| _options := _options d; _sensor_handler := x;
     _sensor_coordinator := _sensor_coordinator d; _aimesh := _aimesh d;
     _clients := _clients d; _clients_number := _clients_number d;
     _clients_list := _clients_list d; _aimesh_number := _aimesh_number d;
     _aimesh_list := _aimesh_list d;
     _latest_connected := _latest_connected d;
     _latest_connected_list := _latest_connected_list d;
     _connect_error := _connect_error d |}.

Definition set_sensor_coordinator (x : _) (d : ARDevice) : ARDevice :=
  {| _options := _options d; _sensor_handler := _sensor_handler d;
     _sensor_coordinator := x; _aimesh := _aimesh d;
     _clients := _clients d; _clients_number := _clients_number d;
     _clients_list := _clients_list d; _aimesh_number := _aimesh_number d;
     _aimesh_list := _aimesh_list d;
     _latest_connected := _latest_connected d;
     _latest_connected_list := _latest_connected_list d;
     _connect_error := _connect_error d |}.

Definition set_aimesh (x : _) (d : ARDevice) : ARDevice :=
  {| _options := _options d; _sensor_handler := _sensor_handler d;
     _sensor_coordinator := _sensor_coordinator d; _aimesh := x;
     _clients := _clients d; _clients_number := _clients_number d;
     _clients_list := _clients_list d; _aimesh_number := _aimesh_number d;
     _aimesh_list := _aimesh_list d;
     _latest_connected := _latest_connected d;
     _latest_connected_list := _latest_connected_list d;
     _connect_error := _connect_error d |}.

Definition set_clients (x : _) (d : ARDevice) : ARDevice :=
  {| _options := _options d; _sensor_handler := _sensor_handler d;
     _sensor_coordinator := _sensor_coordinator d; _aimesh := _aimesh d;
     _clients := x; _clients_number := _clients_number d;
     _clients_list := _clients_list d; _aimesh_number := _aimesh_number d;
     _aimesh_list := _aimesh_list d;
     _latest_connected := _latest_connected d;
     _latest_connected_list := _latest_connected_list d;
     _connect_error := _connect_error d |}.

Definition set_clients_number (x : _) (d : ARDevice) : ARDevice :=
  {| _options := _options d; _sensor_handler := _sensor_handler d;
     _sensor_coordinator := _sensor_coordinator d; _aimesh := _aimesh d;
     _clients := _clients d; _clients_number := x;
     _clients_list := _clients_list d; _aimesh_number := _aimesh_number d;
     _aimesh_list := _aimesh_list d;
     _latest_connected := _latest_connected d;
     _latest_connected_list := _latest_connected_list d;
     _connect_error := _connect_error d |}.

Definition set_clients_list (x : _) (d : ARDevice) : ARDevice :=
  {| _options := _options d; _sensor_handler := _sensor_handler d;
     _sensor_coordinator := _sensor_coordinator d; _aimesh := _aimesh d;
     _clients := _clients d; _clients_number := _clients_number d;
     _clients_list := x; _aimesh_number := _aimesh_number d;
     _aimesh_list := _aimesh_list d;
     _latest_connected := _latest_connected d;
     _latest_connected_list := _latest_connected_list d;
     _connect_error := _connect_error d |}.

Definition set_aimesh_number (x : _) (d : ARDevice) : ARDevice :=
  {| _options := _options d; _sensor_handler := _sensor_handler d;
     _sensor_coordinator := _sensor_coordinator d; _aimesh := _aimesh d;
     _clients := _clients d; _clients_number := _clients_number d;
     _clients_list := _clients_list d; _aimesh_number := x;
     _aimesh_list := _aimesh_list d;
     _latest_connected := _latest_connected d;
     _latest_connected_list := _latest_connected_list d;
     _connect_error := _connect_error d |}.

Definition set_aimesh_list (x : _) (d : ARDevice) : ARDevice :=
  {| _options := _options d; _sensor_handler := _sensor_handler d;
     _sensor_coordinator := _sensor_coordinator d; _aimesh := _aimesh d;
     _clients := _clients d; _clients_number := _clients_number d;
     _clients_list := _clients_list d; _aimesh_number := _aimesh_number d;
     _aimesh_list := x; _latest_connected := _latest_connected d;
     _latest_connected_list := _latest_connected_list d;
     _connect_error := _connect_error d |}.

Definition set_latest_connected (x : _) (d : ARDevice) : ARDevice :=
  {| _options := _options d; _sensor_handler := _sensor_handler d;
     _sensor_coordinator := _sensor_coordinator d; _aimesh := _aimesh d;
     _clients := _clients d; _clients_number := _clients_number d;
     _clients_list := _clients_list d; _aimesh_number := _aimesh_number d;
     _aimesh_list := _aimesh_list d; _latest_connected := x;
     _latest_connected_list := _latest_connected_list d;
     _connect_error := _connect_error d |}.

Definition set_latest_connected_list (x : _) (d : ARDevice) : ARDevice :=
  {| _options := _options d; _sensor_handler := _sensor_handler d;
     _sensor_coordinator := _sensor_coordinator d; _aimesh := _aimesh d;
     _clients := _clients d; _clients_number := _clients_number d;
     _clients_list := _clients_list d; _aimesh_number := _aimesh_number d;
     _aimesh_list := _aimesh_list d;
     _latest_connected := _latest_connected d; _latest_connected_list := x;
     _connect_error := _connect_error d |}.

Definition set_connect_error (x : _) (d : ARDevice) : ARDevice :=
  {| _options := _options d; _sensor_handler := _sensor_handler d;
     _sensor_coordinator := _sensor_coordinator d; _aimesh := _aimesh d;
     _clients := _clients d; _clients_number := _clients_number d;
     _clients_list := _clients_list d; _aimesh_number := _aimesh_number d;
     _aimesh_list := _aimesh_list d;
     _latest_connected := _latest_connected d;
     _latest_connected_list := _latest_connected_list d;
     _connect_error := x |}.
End setters.

(** ** The latest-connected history: [ARDevice.connected_device] *)

(** [l.remove(x)]: drops the first element equal to [x]. *)
Fixpoint list_remove (x : identity) (l : list identity) : list identity :=
  match l with
  | [] => []
  | y :: l' => if decide (y = x) then l' else y :: list_remove x l'
  end.

(** The loop
    [for device in l: if device.get(MAC, None) == mac: l.remove(device)].
    A list iterator is an index into the list it walks: an element removed
    at or before the index shifts the rest left, and the loop stops when the
    index reaches the current length. Every step advances the index, so
    [fuel] at least the length of the list does not run out
    ([remove_loop_fuel] below). *)
Fixpoint remove_loop `{Consts} (fuel : nat) (mac : value) (i : nat)
    (l : list identity) : list identity :=
  match fuel with
  | O => l
  | S fuel' =>
      match l !! i with
      | None => l
      | Some device =>
          if decide (dict_get MAC device = mac)
          then remove_loop fuel' mac (S i) (list_remove device l)
          else remove_loop fuel' mac (S i) l
      end
  end.

(** [l.sort(key=...)] computes the key of every element once, in list order,
    and sorts stably on the keys. A stable sort is determined by the keys:
    insertion from the right, an element going before the first one whose
    key is not smaller. *)
Fixpoint insert_by_key (x : Z * identity) (l : list (Z * identity)) :
    list (Z * identity) :=
  match l with
  | [] => [x]
  | y :: l' => if x.1 <=? y.1 then x :: y :: l' else y :: insert_by_key x l'
  end.

Definition sort_by_key (l : list (Z * identity)) : list (Z * identity) :=
  foldr insert_by_key [] l.

(** The loop [while len(l) > maximum: l.pop(0)]; [pop] raises [IndexError]
    on an empty list. Returns the list left and the exception, if any. *)
Fixpoint evict (maximum : Z) (l : list identity) : list identity * option exn :=
  match l with
  | [] => if (0 >? maximum) then ([], Some IndexError) else ([], None)
  | _ :: l' =>
      if (Z.of_nat (length l) >? maximum) then evict maximum l' else (l, None)
  end.

Section history.
Context `{Consts} `{Entities}.

(** [ARDevice.connected_device_time] *)
Definition connected_device_time (element : identity) : M Z :=
  match dict_get "connected" element with
  | VDatetime connected => ret connected
  | _ => utcnow
  end.

(** The keys of a list, computed in list order. *)
Fixpoint sort_keys (l : list identity) : M (list Z) :=
  match l with
  | [] => ret []
  | e :: l' =>
      k <- connected_device_time e ;;
      ks <- sort_keys l' ;;
      ret (k :: ks)
  end.

(** [ARDevice.connected_device] *)
Definition connected_device (ident : identity) : M unit :=
  let mac := dict_get MAC ident in
  if negb (truthy mac) then ret tt else
  (* If device already in list *)
  d <- get_dev ;;
  let l := _latest_connected_list d in
  modify_dev (set_latest_connected_list (remove_loop (length l) mac 0 l)) ;;
  (* Sort the list by time *)
  d <- get_dev ;;
  let l := _latest_connected_list d in
  keys <- sort_keys l ;;
  modify_dev (set_latest_connected_list (sort_by_key (zip keys l)).*2) ;;
  (* Add new identity *)
  d <- get_dev ;;
  modify_dev (set_latest_connected_list (_latest_connected_list d ++ [ident])) ;;
  (* Check the size *)
  d <- get_dev ;;
  let '(l, e) :=
    evict (opt_latest_connected (_options d)) (_latest_connected_list d) in
  modify_dev (set_latest_connected_list l) ;;
  match e with
  | Some e => raise e
  | None =>
      (* Update latest connected time *)
      d <- get_dev ;;
      match last (_latest_connected_list d) with
      | None => raise IndexError
      | Some e => modify_dev (set_latest_connected (dict_get CONNECTED e))
      end
  end.

(** [ARDevice.fire_event] *)
Definition fire_event (event : string) (args : identity) : M unit :=
  d <- get_dev ;;
  if opt_event (_options d) event then
    emit (LogDebug "Firing event: `%s`") ;;
    emit (BusFire event args)
  else ret tt.
End history.

(** ** Publication: [ARSensorHandler.update_clients] and [update_aimesh] *)

(** The list a reference of the handler denotes, given the device's history. *)
Definition deref (history : list identity) (r : HistoryRef) : list identity :=
  match r with
  | OwnEmptyList => []
  | DeviceHistory => history
  end.

(** [ARSensorHandler.update_clients]. The last argument is always the
    device's own history list, [history]; [==] on lists and dictionaries
    compares values. *)
Definition update_clients (history : list identity) (self : ARSensorHandler)
    (clients_number : Z) (clients_list : list identity)
    (latest_connected : value) : bool * ARSensorHandler :=
  if bool_decide (h_clients_number self = clients_number)
     && bool_decide (h_clients_list self = clients_list)
     && bool_decide (h_latest_connected self = latest_connected)
     && bool_decide (deref history (h_latest_connected_list self) = history)
  then (false, self)
  else (true,
        {| h_clients_number := clients_number;
           h_clients_list := clients_list;
           h_latest_connected := latest_connected;
           h_latest_connected_list := DeviceHistory;
           h_aimesh_number := h_aimesh_number self;
           h_aimesh_list := h_aimesh_list self |}).

(** [ARSensorHandler.update_aimesh] *)
Definition update_aimesh (self : ARSensorHandler)
    (nodes_number : Z) (nodes_list : list identity) : bool * ARSensorHandler :=
  if bool_decide (h_aimesh_number self = nodes_number)
     && bool_decide (h_aimesh_list self = nodes_list)
  then (false, self)
  else (true,
        {| h_clients_number := h_clients_number self;
           h_clients_list := h_clients_list self;
           h_latest_connected := h_latest_connected self;
           h_latest_connected_list := h_latest_connected_list self;
           h_aimesh_number := nodes_number;
           h_aimesh_list := nodes_list |}).

(** ** Reconciliation: [ARDevice.update_devices] and [update_nodes] *)

(** What [await self.bridge.async_get_clients()] (or
    [async_get_aimesh_nodes]) comes back with: the items of the snapshot
    dictionary, or the exception [UpdateFailed]. *)
Inductive fetch (A : Type) :=
| Fetched (snapshot : list (string * A))
| UpdateFailed (ex : string).
Arguments Fetched {A} snapshot.
Arguments UpdateFailed {A} ex.

(** [{f(k): v for k, v in items}] *)
Definition dict_comprehension {V} (f : string → string)
    (items : list (string * V)) : list (string * V) :=
  foldl (λ d kv, od_set (f kv.1) kv.2 d) [] items.

Section router.
Context `{Consts} `{Entities}.

Definition run_callback (call : Callback) : M unit :=
  match call with
  | EventCall event args => fire_event event args
  | ConnectedCall ident => connected_device ident
  end.

Fixpoint run_callbacks (calls : list Callback) : M unit :=
  match calls with
  | [] => ret tt
  | call :: calls' => run_callback call ;; run_callbacks calls'
  end.

Fixpoint fire_events (calls : list (string * identity)) : M unit :=
  match calls with
  | [] => ret tt
  | (event, args) :: calls' => fire_event event args ;; fire_events calls'
  end.

(** [ARDevice._update_unpolled_sensors] *)
Definition _update_unpolled_sensors : M unit :=
  d <- get_dev ;;
  (* If sensor handler is not initialized *)
  match _sensor_handler d with
  | None => ret tt
  | Some _ =>
      (* AiMesh *)
      (if bool_decide (AIMESH ∈ _sensor_coordinator d) then
         d <- get_dev ;;
         match _sensor_handler d with
         | None => ret tt
         | Some h =>
             let '(changed, h') :=
               update_aimesh h (_aimesh_number d) (_aimesh_list d) in
             modify_dev (set_sensor_handler (Some h')) ;;
             if changed then emit (Refresh AIMESH) else ret tt
         end
       else ret tt) ;;
      (* Devices *)
      d <- get_dev ;;
      if bool_decide (DEVICES ∈ _sensor_coordinator d) then
        match _sensor_handler d with
        | None => ret tt
        | Some h =>
            let '(changed, h') :=
              update_clients (_latest_connected_list d) h (_clients_number d)
                (_clients_list d) (_latest_connected d) in
            modify_dev (set_sensor_handler (Some h')) ;;
            if changed then emit (Refresh DEVICES) else ret tt
        end
      else ret tt
  end.

(** The loop over [self._clients.items()] of [update_devices], which pops
    the known clients from the snapshot: [known] are the items from position
    [i] on; the client at [i] is updated in place. Returns the snapshot
    left. *)
Fixpoint update_known_clients_from (consider_home : Z) (i : nat)
    (known : list (string * ARClient)) (clients : list (string * ClientInfo))
    : M (list (string * ClientInfo)) :=
  match known with
  | [] => ret clients
  | (client_mac, client_state) :: known' =>
      let '(client_info, clients') := od_pop client_mac clients in
      now <- utcnow ;;
      let '(client', calls) :=
        client_update client_state client_info (Some consider_home) now in
      modify_dev (λ d, set_clients (<[i := (client_mac, client')]> (_clients d)) d) ;;
      run_callbacks calls ;;
      update_known_clients_from consider_home (S i) known' clients'
  end.

Definition update_known_clients (consider_home : Z)
    (clients : list (string * ClientInfo)) : M (list (string * ClientInfo)) :=
  d <- get_dev ;;
  update_known_clients_from consider_home 0 (_clients d) clients.

(** The loop over the clients left in the snapshot; returns [new_clients]. *)
Fixpoint add_new_clients (clients : list (string * ClientInfo))
    (new_clients : list ARClient) : M (list ARClient) :=
  match clients with
  | [] => ret new_clients
  | (client_mac, client_info) :: clients' =>
      (* Create new client and process it *)
      now <- utcnow ;;
      let '(client, calls) :=
        client_update (client_new client_mac) (Some client_info) None now in
      run_callbacks calls ;;
      (* Add client to the storage *)
      modify_dev (λ d, set_clients (od_set client_mac client (_clients d)) d) ;;
      (* Add client to the list of new clients *)
      add_new_clients clients' (new_clients ++ [client])
  end.

(** The loop over [self._clients.items()] computing the connected clients
    sensor. *)
Fixpoint clients_sensor_from (clients : list (string * ARClient)) : M unit :=
  match clients with
  | [] => ret tt
  | (client_mac, client) :: clients' =>
      (if client_state client then
         modify_dev (λ d, set_clients_number (_clients_number d + 1) d) ;;
         modify_dev (λ d, set_clients_list
                            (_clients_list d ++ [client_identity client]) d)
       else ret tt) ;;
      clients_sensor_from clients'
  end.

Definition clients_sensor : M unit :=
  d <- get_dev ;;
  clients_sensor_from (_clients d).

(** [ARDevice.update_devices], the snapshot fetch having come back with
    [fetched]. *)
Definition update_devices (fetched : fetch ClientInfo) : M unit :=
  d <- get_dev ;;
  (if negb (opt_track_devices (_options d))
   then emit (LogDebug "Device tracking is disabled")
   else emit (LogDebug "Device tracking is enabled")) ;;
  emit (LogDebug "Updating AsusRouter device list for '%s'") ;;
  match fetched with
  | UpdateFailed ex =>
      d <- get_dev ;;
      if negb (_connect_error d) then
        modify_dev (set_connect_error true) ;;
        emit (LogError "Error connecting to '%s' for device update: %s")
      else ret tt
  | Fetched api_clients =>
      d <- get_dev ;;
      (* For Media bridge mode only leave wired devices *)
      let api_clients :=
        if decide (opt_mode (_options d) = MEDIA_BRIDGE)
        then dict_comprehension id (filter (λ kv, info_wired kv.2) api_clients)
        else api_clients in
      (if _connect_error d then
         modify_dev (set_connect_error false) ;;
         emit (LogInfo "Reconnected to '%s'")
       else ret tt) ;;
      d <- get_dev ;;
      let consider_home := opt_consider_home (_options d) in
      (* Get clients *)
      let clients := dict_comprehension format_mac api_clients in
      (* Update known clients *)
      clients <- update_known_clients consider_home clients ;;
      (* Add new clients: the loop sets the flag when it has a client to add *)
      let new_client := bool_decide (clients ≠ []) in
      new_clients <- add_new_clients clients [] ;;
      (* Notify about new clients *)
      fire_events ((λ c, ("device_connected", client_identity c)) <$> new_clients) ;;
      (* Connected clients sensor *)
      modify_dev (set_clients_number 0) ;;
      modify_dev (set_clients_list []) ;;
      clients_sensor ;;
      emit (DispatcherSend signal_device_update) ;;
      (if new_client then emit (DispatcherSend signal_device_new) else ret tt) ;;
      _update_unpolled_sensors
  end.

(** The loop over [self._aimesh.items()] of [update_nodes]. *)
Fixpoint update_known_nodes_from (i : nat) (known : list (string * AiMeshNode))
    (nodes : list (string * NodeInfo)) : M (list (string * NodeInfo)) :=
  match known with
  | [] => ret nodes
  | (node_mac, node) :: known' =>
      let '(node_info, nodes') := od_pop node_mac nodes in
      now <- utcnow ;;
      let '(node', calls) := node_update node node_info now in
      modify_dev (λ d, set_aimesh (<[i := (node_mac, node')]> (_aimesh d)) d) ;;
      fire_events calls ;;
      update_known_nodes_from (S i) known' nodes'
  end.

Definition update_known_nodes (nodes : list (string * NodeInfo))
    : M (list (string * NodeInfo)) :=
  d <- get_dev ;;
  update_known_nodes_from 0 (_aimesh d) nodes.

(** The loop over the nodes left in the snapshot; returns [new_nodes]. *)
Fixpoint add_new_nodes (nodes : list (string * NodeInfo))
    (new_nodes : list AiMeshNode) : M (list AiMeshNode) :=
  match nodes with
  | [] => ret new_nodes
  | (node_mac, node_info) :: nodes' =>
      now <- utcnow ;;
      let '(node, calls) := node_update (node_new node_mac) (Some node_info) now in
      fire_events calls ;;
      modify_dev (λ d, set_aimesh (od_set node_mac node (_aimesh d)) d) ;;
      add_new_nodes nodes' (new_nodes ++ [node])
  end.

(** The loop over [self._aimesh.items()] computing the AiMesh sensors;
    [identity[CONNECTED]] raises [KeyError] when the key is missing. *)
Fixpoint aimesh_sensors_from (nodes : list (string * AiMeshNode)) : M unit :=
  match nodes with
  | [] => ret tt
  | (mac, node) :: nodes' =>
      match node_identity node !! CONNECTED with
      | None => raise KeyError
      | Some connected =>
          (if truthy connected then
             modify_dev (λ d, set_aimesh_number (_aimesh_number d + 1) d)
           else ret tt) ;;
          modify_dev (λ d, set_aimesh_list
                             (_aimesh_list d ++ [node_identity node]) d) ;;
          aimesh_sensors_from nodes'
      end
  end.

Definition aimesh_sensors : M unit :=
  d <- get_dev ;;
  aimesh_sensors_from (_aimesh d).

(** [ARDevice.update_nodes], the snapshot fetch having come back with
    [fetched]. *)
Definition update_nodes (fetched : fetch NodeInfo) : M unit :=
  emit (LogDebug "Updating AiMesh status for '%s'") ;;
  match fetched with
  | UpdateFailed ex =>
      d <- get_dev ;;
      if negb (_connect_error d) then
        modify_dev (set_connect_error true) ;;
        emit (LogError "Error connecting to '%s' for device update: %s")
      else ret tt
  | Fetched aimesh =>
      (* Update existing nodes *)
      let nodes := dict_comprehension format_mac aimesh in
      nodes <- update_known_nodes nodes ;;
      (* Add new nodes: the loop sets the flag when it has a node to add *)
      let new_node := bool_decide (nodes ≠ []) in
      new_nodes <- add_new_nodes nodes [] ;;
      (* Notify new nodes *)
      fire_events ((λ n, (CONF_EVENT_NODE_CONNECTED, node_identity n)) <$> new_nodes) ;;
      (* AiMesh sensors *)
      modify_dev (set_aimesh_number 0) ;;
      modify_dev (set_aimesh_list []) ;;
      aimesh_sensors ;;
      emit (DispatcherSend signal_aimesh_update) ;;
      if new_node then emit (DispatcherSend signal_aimesh_new) else ret tt
  end.

(** Whether [self._mode in (ACCESS_POINT, MEDIA_BRIDGE, ROUTER)]. *)
Definition tracking_mode (m : Mode) : bool :=
  bool_decide (m = ACCESS_POINT ∨ m = MEDIA_BRIDGE ∨ m = ROUTER).

(** [ARDevice.update_all] *)
Definition update_all (clients : fetch ClientInfo) (nodes : fetch NodeInfo)
    : M unit :=
  d <- get_dev ;;
  if tracking_mode (opt_mode (_options d)) then
    update_devices clients ;;
    update_nodes nodes
  else ret tt.

(** What [entity_reg.async_get(entity)] resolves an entity to: something
    that is no [RegistryEntry], or an entry, whose capabilities hold a value
    under [MAC] or lack the key. *)
Inductive RegValue :=
| NoEntry
| Entry (mac : option string).

(** The loop over [raw["entities"]] of [remove_trackers]. *)
Fixpoint remove_entities (entities : list RegValue) : M unit :=
  match entities with
  | [] => ret tt
  | NoEntry :: entities' => remove_entities entities'
  | Entry None :: _ => raise KeyError
  | Entry (Some mac) :: entities' =>
      emit (LogDebug "Trying to remove tracker with mac: %s") ;;
      d <- get_dev ;;
      (if od_mem mac (_clients d) then
         modify_dev (set_clients (od_pop mac (_clients d)).2) ;;
         emit (LogDebug "Found and removed")
       else ret tt) ;;
      remove_entities entities'
  end.

(** [ARDevice.remove_trackers] up to the reload of the device tracker
    platform. [raw] is [kwargs.get("raw")], holding [raw["entities"]] when
    it has that key. *)
Definition remove_trackers (raw : option (option (list RegValue)))
    (fetched : fetch ClientInfo) : M unit :=
  emit (LogDebug "Removing trackers") ;;
  (* Check that data is provided *)
  match raw with
  | None => ret tt
  | Some raw =>
      (* Get entities to remove *)
      match raw with
      | Some entities => remove_entities entities
      | None => ret tt
      end ;;
      (* Update devices *)
      update_devices fetched
  end.
End router.

(** ** A model of the entity states, for concrete runs *)

Module SpecEntities.

(** Modelled from the spec: const.py is missing; [MAC] and [CONNECTED] are the
    identity keys and [CONF_EVENT_NODE_CONNECTED] the event name used in the
    concrete runs below ([connected_device_time] reads the key "connected"
    literally). *)
Definition consts : Consts :=
  {| MAC := "mac";
     CONNECTED := "connected";
     CONF_EVENT_NODE_CONNECTED := "node_connected" |}.

(** Modelled from the spec: the snapshot record of a client (section 6), of
    the external asusrouter library: its connection state, whether the
    connection is wired, and its descriptive attributes. *)
Record Info := {
  i_connected : bool;
  i_wired : bool;
  i_attributes : identity;
}.

(** Modelled from the spec: the Client Record of section 3 (client.py is
    missing): connected state (unknown at creation), last-seen timestamp and
    the identity attributes. *)
Record Client := {
  c_state : option bool;
  c_last_seen : Z;
  c_identity : identity;
}.

Definition Client_new (mac : string) : Client :=
  {| c_state := None; c_last_seen := 0; c_identity := {[ "mac" := VStr mac ]} |}.

(** Modelled from the spec: the update operation of section 4.1
    (client.py is missing). A record that is present is merged into the
    state, and a transition of the connection state from false or unknown to
    true invokes [onConnected] and fires a device_connected event. An absent
    record with a consider-home window leaves the client connected until
    [now - lastSeen] exceeds the window. *)
Definition Client_update (c : Client) (info : option Info)
    (consider_home : option Z) (now : Z) : Client * list Callback :=
  match info with
  | Some r =>
      let ident := i_attributes r ∪ c_identity c in
      let c' := {| c_state := Some (i_connected r);
                   c_last_seen := if i_connected r then now else c_last_seen c;
                   c_identity := ident |} in
      if i_connected r && negb (bool_decide (c_state c = Some true))
      then (c', [ConnectedCall ident; EventCall "device_connected" ident])
      else (c', [])
  | None =>
      match consider_home with
      | Some window =>
          if bool_decide (c_state c = Some true) && (now - c_last_seen c >? window)
          then ({| c_state := Some false; c_last_seen := c_last_seen c;
                   c_identity := c_identity c |}, [])
          else (c, [])
      | None => (c, [])
      end
  end.

(** Modelled from the spec: the Mesh Node Record (aimesh.py is missing), the
    same shape as a client; its identity carries the connected flag, and an
    absent record changes nothing. *)
Definition Node_new (mac : string) : identity :=
  {[ "mac" := VStr mac; "connected" := VBool false ]}.

Definition Node_update (n : identity) (info : option Info) (now : Z) :
    identity * list (string * identity) :=
  match info with
  | Some r =>
      let ident := <["connected" := VBool (i_connected r)]> (i_attributes r ∪ n) in
      if i_connected r && negb (bool_decide (n !! "connected" = Some (VBool true)))
      then (ident, [("node_connected", ident)])
      else (ident, [])
  | None => (n, [])
  end.

Definition entities : Entities :=
  {| ClientInfo := Info;
     NodeInfo := Info;
     info_wired := i_wired;
     format_mac := id;
     ARClient := Client;
     client_new := Client_new;
     client_state := λ c, bool_decide (c_state c = Some true);
     client_identity := c_identity;
     client_update := Client_update;
     AiMeshNode := identity;
     node_new := Node_new;
     node_identity := id;
     node_update := Node_update |}.

(** The identity of a device with a connection time. *)
Definition ident (mac : string) (connected : Z) : identity :=
  {[ "mac" := VStr mac; "connected" := VDatetime connected ]}.

Definition options (maximum : Z) : Options :=
  {| opt_track_devices := true;
     opt_latest_connected := maximum;
     opt_consider_home := 0;
     opt_mode := ROUTER;
     opt_event := λ _, false;
     opt_items := ∅ |}.

(** A snapshot record without attributes, of a wired entity. *)
Definition snapshot_record (connected : bool) : Info :=
  {| i_connected := connected; i_wired := true; i_attributes := ∅ |}.

(** The options of [options 5] with [trackDevices] set to false. *)
Definition options_untracked : Options :=
  {| opt_track_devices := false;
     opt_latest_connected := 5;
     opt_consider_home := 0;
     opt_mode := ROUTER;
     opt_event := λ _, false;
     opt_items := ∅ |}.

(** A world around a device, with a clock that reads 1000, 1001, ... *)
Definition world (d : @ARDevice entities) : @World entities :=
  {| dev := d; trace := []; clock := λ n, 1000 + Z.of_nat n; tick := 0 |}.

End SpecEntities.

(** ** Vocabulary of the properties *)

Section vocabulary.
Context `{Consts} `{Entities}.

(** The history and the configured maximum of a world. *)
Definition history (w : World) : list identity :=
  _latest_connected_list (dev w).

Definition maximum (w : World) : Z :=
  opt_latest_connected (_options (dev w)).

(** The world a computation leaves and the way it ends. *)
Definition after {A} (m : M A) (w : World) : World := (m w).2.

Definition result {A} (m : M A) (w : World) : outcome A := (m w).1.

(** The worlds after each of a sequence of [connected_device] calls; a call
    that raises leaves the world it had reached. *)
Fixpoint after_calls (calls : list identity) (w : World) : list World :=
  match calls with
  | [] => []
  | ident :: calls' =>
      let w' := after (connected_device ident) w in
      w' :: after_calls calls' w'
  end.

(** The connection time of an entry when the clock reads [now]. *)
Definition time_at (now : Z) (e : identity) : Z :=
  match dict_get "connected" e with
  | VDatetime connected => connected
  | _ => now
  end.

Definition ascending (ks : list Z) : Prop := StronglySorted Z.le ks.

(** Sorted ascending by connection time, an entry without a datetime being
    stamped with the current time [now]. *)
Definition sorted_at (now : Z) (l : list identity) : Prop :=
  ascending (time_at now <$> l).

(** [k] is the sort key of entry [e] in a call that took the world from [w]
    to [w']: the entry's datetime, or a reading of the clock made during the
    call. *)
Definition stamped (w w' : World) (k : Z) (e : identity) : Prop :=
  match dict_get "connected" e with
  | VDatetime connected => k = connected
  | _ => ∃ n, (tick w ≤ n < tick w')%nat ∧ k = clock w n
  end.

(** The entries of a list that bear the MAC [m]. *)
Definition entries_of (m : value) (l : list identity) : list identity :=
  filter (λ e, dict_get MAC e = m) l.

Definition at_most_one_per_mac (l : list identity) : Prop :=
  ∀ m, truthy m = true → (length (entries_of m l) ≤ 1)%nat.

(** The order of the sort: by key. *)
Definition key_le (a b : Z * identity) : Prop := a.1 ≤ b.1.

(** A world after [n] more readings of the clock, and with another device. *)
Definition advance (n : nat) (w : World) : World :=
  {| dev := dev w; trace := trace w; clock := clock w; tick := tick w + n |}.

Definition with_dev (d : ARDevice) (w : World) : World :=
  {| dev := d; trace := trace w; clock := clock w; tick := tick w |}.

(** What reconciliation maintains: the client map, the mesh-node map, the
    history with the latest connection time, the aggregate values of the
    device and the values published in the sensor handler. *)
Definition reconciled_state (d : ARDevice) :=
  (_clients d, _aimesh d, _latest_connected_list d, _latest_connected d,
   (_clients_number d, _clients_list d, _aimesh_number d, _aimesh_list d),
   _sensor_handler d).

(** The records of the client map whose connected flag is true, and the
    connected flag of a mesh node, which its identity holds. *)
Definition connected_clients (d : ARDevice) : list (string * ARClient) :=
  filter (λ kc, client_state kc.2 = true) (_clients d).

Definition node_connected (n : AiMeshNode) : Prop :=
  truthy <$> node_identity n !! CONNECTED = Some true.

Definition connected_nodes (d : ARDevice) : list (string * AiMeshNode) :=
  filter (λ kn, node_connected kn.2) (_aimesh d).

(** The tuples compared on publication: the values stored in the sensor
    handler, the history being the list its reference denotes, and the
    values the device has recomputed. *)
Definition published_clients (d : ARDevice) (h : ARSensorHandler) :=
  (h_clients_number h, h_clients_list h, h_latest_connected h,
   deref (_latest_connected_list d) (h_latest_connected_list h)).

Definition recomputed_clients (d : ARDevice) :=
  (_clients_number d, _clients_list d, _latest_connected d,
   _latest_connected_list d).

Definition stored_clients (h : ARSensorHandler) :=
  (h_clients_number h, h_clients_list h, h_latest_connected h,
   h_latest_connected_list h).

Definition published_aimesh (h : ARSensorHandler) :=
  (h_aimesh_number h, h_aimesh_list h).

Definition recomputed_aimesh (d : ARDevice) :=
  (_aimesh_number d, _aimesh_list d).


(** The device with [trackDevices] set to [b]. *)
Definition retrack (b : bool) (d : ARDevice) : ARDevice :=
  {| _options :=
       {| opt_track_devices := b;
          opt_latest_connected := opt_latest_connected (_options d);
          opt_consider_home := opt_consider_home (_options d);
          opt_mode := opt_mode (_options d);
          opt_event := opt_event (_options d);
          opt_items := opt_items (_options d) |};
     _sensor_handler := _sensor_handler d;
     _sensor_coordinator := _sensor_coordinator d;
     _aimesh := _aimesh d;
     _clients := _clients d;
     _clients_number := _clients_number d;
     _clients_list := _clients_list d;
     _aimesh_number := _aimesh_number d;
     _aimesh_list := _aimesh_list d;
     _latest_connected := _latest_connected d;
     _latest_connected_list := _latest_connected_list d;
     _connect_error := _connect_error d |}.

(** The trace without the two debug messages that tell whether device
    tracking is enabled. *)
Definition other_effects (t : list Effect) : list Effect :=
  filter (λ e, e ≠ LogDebug "Device tracking is disabled"
               ∧ e ≠ LogDebug "Device tracking is enabled") t.

(** Worlds that differ at most in [trackDevices] and in those messages. *)
Definition track_sim (w1 w2 : World) : Prop :=
  retrack true (dev w1) = retrack true (dev w2) ∧
  other_effects (trace w1) = other_effects (trace w2) ∧
  clock w1 = clock w2 ∧
  tick w1 = tick w2.

(** Two computations that, from such worlds, end the same way in such
    worlds. *)
Definition related {A} (m1 m2 : M A) : Prop :=
  ∀ w1 w2, track_sim w1 w2 →
    result m1 w1 = result m2 w2 ∧ track_sim (after m1 w1) (after m2 w2).

Definition is_debug (e : Effect) : Prop :=
  match e with
  | LogDebug _ => True
  | _ => False
  end.

#[global] Instance is_debug_dec e : Decision (is_debug e).
Proof. destruct e; simpl; apply _. Defined.

Definition is_log (e : Effect) : Prop :=
  match e with
  | LogDebug _ | LogInfo _ | LogError _ => True
  | _ => False
  end.

(** A postcondition on the way a computation ends and the world it leaves,
    from any world. *)
Definition ensures {A} (Q : outcome A → World → Prop) (m : M A) : Prop :=
  ∀ w, Q (result m w) (after m w).

(** A relation between the world before and after holds along a
    computation, from any world, however it ends. *)
Definition steps {A} (R : relation World) (m : M A) : Prop :=
  ∀ w, R w (after m w).

(** A projection of the device is left as it was. *)
Definition keeps {B} (f : ARDevice → B) : relation World :=
  λ w w', f (dev w') = f (dev w).

(** The keys of the client map are kept, in order, new ones coming after. *)
Definition keeps_clients : relation World :=
  λ w w', (_clients (dev w)).*1 `prefix_of` (_clients (dev w')).*1.

(** Effects are only added to the trace. *)
Definition trace_grows : relation World :=
  λ w w', trace w `prefix_of` trace w'.

(** Relations that hold across the steps that leave the device alone. *)
Class Frame (R : relation World) : Prop := {
  frame_preorder :: PreOrder R;
  frame_emit e w : R w (after (emit e) w);
  frame_utcnow w : R w (after utcnow w);
}.
End vocabulary.


(** ** What the sensor handler serves: [_get_clients] and [_get_aimesh] *)

(** [ARSensorHandler._get_clients]: the values of the dictionary it returns,
    under the keys [SENSORS_CONNECTED_DEVICES[0]] to [[3]] in that order: the
    number, the list, the latest-connected list and the latest connection
    time. [history] is the device's history list, which the handler's
    reference may denote. *)
Definition _get_clients (history : list identity) (self : ARSensorHandler)
    : Z * list identity * list identity * value :=
  (h_clients_number self, h_clients_list self,
   deref history (h_latest_connected_list self), h_latest_connected self).

(** [ARSensorHandler._get_aimesh]: the values under [NUMBER] and [LIST], or
    [None] for the empty dictionary. [mode] is the handler's [_mode], read
    from the options it is created with. *)
Definition _get_aimesh (mode : Mode) (self : ARSensorHandler)
    : option (Z * list identity) :=
  if tracking_mode mode
  then Some (h_aimesh_number self, h_aimesh_list self)
  else None.

(** ** Options: [ARDevice.update_options] *)

(** [d.update(items)] *)
Definition dict_update (d : gmap string pyval) (items : list (string * pyval))
    : gmap string pyval :=
  foldl (λ d kv, <[kv.1 := kv.2]> d) d items.

Section update_options.
(** The option names of const.py whose change requires a reload. *)
Variable CONF_REQ_RELOAD : list string.

(** The loop of [update_options] over [new_options.items()], which stops at
    the first option that requires a reload. *)
Fixpoint require_reload (options : gmap string pyval)
    (new_options : list (string * pyval)) : bool :=
  match new_options with
  | [] => false
  | (name, new_option) :: new_options' =>
      if bool_decide (name ∈ CONF_REQ_RELOAD) then
        let old_opt := options_get name PNone options in
        if negb (py_truthy old_opt) || negb (py_eq old_opt new_option)
        then true
        else require_reload options new_options'
      else require_reload options new_options'
  end.

(** [ARDevice.update_options]: what it returns, and [self._options]
    afterwards. [new_options] are the items of the dictionary given. *)
Definition update_options (options : gmap string pyval)
    (new_options : list (string * pyval)) : bool * gmap string pyval :=
  (require_reload options new_options, dict_update options new_options).
End update_options.

(** ** Coordinators: [ARSensorHandler.get_coordinator] *)

Module Handler.

(** The sensor types and option names of const.py and Home Assistant that
    [get_coordinator] uses, and the defaults of const.py. *)
Class Names := {
  DEVICES : string;
  AIMESH : string;
  FIRMWARE : string;
  CONF_INTERVAL : string;
  CONF_SCAN_INTERVAL : string;
  CONF_SPLIT_INTERVALS : string;
  CONF_DEFAULT_SCAN_INTERVAL : pyval;
  CONF_DEFAULT_SPLIT_INTERVALS : pyval;
  CONF_DEFAULT_INTERVALS : gmap string pyval;
}.

(** The update method of a coordinator: the handler's [_get_clients] or
    [_get_aimesh], or the method given, a method of the bridge. *)
Inductive Method :=
| GetClients
| GetAimesh
| UpdateMethod (method : string).

(** The [DataUpdateCoordinator] as [get_coordinator] makes it;
    [update_interval] is in seconds, [None] for a coordinator that is not
    polled. *)
Record DataUpdateCoordinator := {
  name : string;
  update_method : Method;
  update_interval : option Z;
}.

(** [timedelta(seconds=v)], within the range of [timedelta]: a number, in
    seconds. *)
Definition timedelta_seconds (v : pyval) : exn + Z :=
  match v with
  | PInt n => inr n
  | PBool b => inr (if b then 1 else 0)
  | _ => inl TypeError
  end.

Section get_coordinator.
Context `{Names}.

(** [ARSensorHandler.get_coordinator] up to the coordinator it makes, or
    the exception raised on the way. [options] is the handler's [_options].
    What the method does with the coordinator made, a debug record and a
    refresh, is in [get_coordinator] below. *)
Definition get_coordinator (options : gmap string pyval) (sensor_type : string)
    (method : option string) : exn + DataUpdateCoordinator :=
  (* Sensor-specific rules *)
  let rules :=
    if decide (sensor_type = DEVICES) then inr (false, GetClients)
    else if decide (sensor_type = AIMESH) then inr (false, GetAimesh)
    else match method with
         | Some method => inr (true, UpdateMethod method)
         | None => inl RuntimeError
         end in
  match rules with
  | inl e => inl e
  | inr (should_poll, method) =>
      (* Update interval *)
      let interval :=
        if decide (sensor_type = FIRMWARE) then
          (* Static intervals *)
          match CONF_DEFAULT_INTERVALS !! (CONF_INTERVAL +:+ sensor_type) with
          | None => inl KeyError
          | Some default =>
              timedelta_seconds
                (options_get (CONF_INTERVAL +:+ sensor_type) default options)
          end
        else
          (* Configurable intervals *)
          timedelta_seconds
            (if py_truthy (options_get CONF_SPLIT_INTERVALS
                             CONF_DEFAULT_SPLIT_INTERVALS options)
             then options_get (CONF_INTERVAL +:+ sensor_type)
                    (options_get CONF_SCAN_INTERVAL CONF_DEFAULT_SCAN_INTERVAL
                       options) options
             else options_get CONF_SCAN_INTERVAL CONF_DEFAULT_SCAN_INTERVAL
                    options) in
      match interval with
      | inl e => inl e
      | inr interval =>
          (* Coordinator *)
          inr {| name := sensor_type;
                 update_method := method;
                 update_interval := if should_poll then Some interval else None |}
      end
  end.
End get_coordinator.
End Handler.

(** ** Coordinators of the device: [ARDevice._init_sensor_coordinators] *)

(** A value of the dictionary of available sensors: whether it holds, under
    [SENSORS], a list of names that is not empty (a value that is true in
    Python's sense), and what it holds under [METHOD], [None] without the
    key. The names are stored beside the coordinator, where router.py does
    not read them. *)
Record SensorDefinition := {
  def_sensors : bool;
  def_method : option string;
}.

(** What [await self.bridge.async_get_available_sensors()] comes back with:
    the items of the dictionary it returns, in order, or the exception it
    raises. *)
Inductive Discovery :=
| Available (sensors : list (string * SensorDefinition))
| Unavailable (e : exn).

(** [d[k] = v] on the keys of a dictionary: a key already there keeps its
    place. *)
Definition key_set (k : SensorType) (keys : list SensorType)
    : list SensorType :=
  if decide (k ∈ keys) then keys else keys ++ [k].

Section coordinators.
Context `{Consts} `{Entities} `{Handler.Names}.

(** The name of a sensor type. *)
Definition type_name (sensor_type : SensorType) : string :=
  match sensor_type with
  | AIMESH => Handler.AIMESH
  | DEVICES => Handler.DEVICES
  | Sensor name => name
  end.

(** [ARSensorHandler.get_coordinator] on the handler of the device, whose
    [_options] is the dictionary of the device. *)
Definition get_coordinator (sensor_type : SensorType)
    (update_method : option string) : M Handler.DataUpdateCoordinator :=
  d <- get_dev ;;
  match Handler.get_coordinator (opt_items (_options d)) (type_name sensor_type)
          update_method with
  | inl e => raise e
  | inr coordinator =>
      emit (LogDebug "Coordinator initialized for `%s`. Update interval: `%s`") ;;
      (* Update coordinator *)
      emit (Refresh sensor_type) ;;
      ret coordinator
  end.

(** The loop over [available_sensors.items()]. *)
Fixpoint process_available (items : list (SensorType * SensorDefinition))
    : M unit :=
  match items with
  | [] => ret tt
  | (sensor_type, sensor_definition) :: items' =>
      if negb (def_sensors sensor_definition) then process_available items'
      else
        (* Find and initialize coordinator *)
        get_coordinator sensor_type (def_method sensor_definition) ;;
        (* Save the coordinator *)
        modify_dev (λ d, set_sensor_coordinator
                           (key_set sensor_type (_sensor_coordinator d)) d) ;;
        process_available items'
  end.

(** The definitions [{SENSORS: SENSORS_CONNECTED_DEVICES}] and
    [{SENSORS: SENSORS_AIMESH}]: no method, and name lists of const.py that
    are not empty ([_get_clients] reads four names of the first). *)
Definition own_definition : SensorDefinition :=
  {| def_sensors := true; def_method := None |}.

(** The dictionary of available sensors the loop walks: what the bridge
    has found, then the sensors of the device in the modes that have
    them. *)
Definition available_sensors (mode : Mode)
    (sensors : list (string * SensorDefinition))
    : list (SensorType * SensorDefinition) :=
  let available_sensors := prod_map Sensor id <$> sensors in
  (* Add devices sensors *)
  if tracking_mode mode
  then available_sensors ++ [(DEVICES, own_definition); (AIMESH, own_definition)]
  else available_sensors.

(** [ARDevice._init_sensor_coordinators], the bridge having come back with
    [discovery] when it is asked. *)
Definition _init_sensor_coordinators (discovery : Discovery) : M unit :=
  d <- get_dev ;;
  (* If already initialized *)
  match _sensor_handler d with
  | Some _ => ret tt
  | None =>
      (* Initialize sensor handler *)
      let h := ARSensorHandler_init in
      modify_dev (set_sensor_handler (Some h)) ;;
      (* Update devices *)
      let h := (update_clients (_latest_connected_list d) h (_clients_number d)
                  (_clients_list d) (_latest_connected d)).2 in
      modify_dev (set_sensor_handler (Some h)) ;;
      let h := (update_aimesh h (_aimesh_number d) (_aimesh_list d)).2 in
      modify_dev (set_sensor_handler (Some h)) ;;
      (* Get available sensors *)
      match discovery with
      | Unavailable e => raise e
      | Available sensors =>
          (* Process available sensors *)
          process_available (available_sensors (opt_mode (_options d)) sensors)
      end
  end.
End coordinators.

(** ** Setting up: [ARDevice.setup] *)

Section setup.
Context `{Consts} `{Entities} `{Handler.Names}.

(** [ARDevice.setup] from its mode-specific part on (lines 329 to 342), the
    bridge being connected: the two passes, the node pass first, and the
    sensor coordinators. What comes before (the connection, the identity,
    the migration of the entity registry) and after (the registration of the
    periodic [update_all]) works on objects other than the ones the passes
    use. *)
Definition setup (nodes : fetch NodeInfo) (clients : fetch ClientInfo)
    (discovery : Discovery) : M unit :=
  d <- get_dev ;;
  (* Mode-specific *)
  (if tracking_mode (opt_mode (_options d)) then
     (* Update AiMesh *)
     update_nodes nodes ;;
     (* Update devices *)
     update_devices clients
   else
     emit (LogDebug "Device is in AiMesh node mode. Device tracking and AiMesh monitoring is disabled")) ;;
  (* Initialize sensor coordinators *)
  _init_sensor_coordinators discovery.

(** [n] polling cycles in a row, each an [update_all] with the same fetch
    results. *)
Fixpoint cycles (n : nat) (clients : fetch ClientInfo) (nodes : fetch NodeInfo)
    : M unit :=
  match n with
  | O => ret tt
  | S n' => update_all clients nodes ;; cycles n' clients nodes
  end.
End setup.

(** ** Closing: [ARDevice.close] and [ARDevice.async_on_close] *)

(** A function registered to run on close: a callable without arguments. All
    that is observed of a call is that it was made and whether it raised. *)
Record OnClose := {
  func_name : string;
  func_raises : bool;
}.

(** The part of the device and of its bridge that closing works on:
    [bridge.active] and [_on_close]. *)
Record Closing := {
  bridge_active : bool;
  _on_close : list OnClose;
}.

Inductive CloseEffect :=
(** [bridge.api.async_disconnect()] *)
| Disconnect
(** [func()] *)
| Called (func : string).

(** [ARDevice.async_on_close] *)
Definition async_on_close (func : OnClose) (self : Closing) : Closing :=
  {| bridge_active := bridge_active self;
     _on_close := _on_close self ++ [func] |}.

(** The loop [for func in self._on_close: func()]: the calls made, and
    whether one raised. *)
Fixpoint run_on_close (funcs : list OnClose) : list CloseEffect * bool :=
  match funcs with
  | [] => ([], false)
  | func :: funcs' =>
      if func_raises func then ([Called (func_name func)], true)
      else let '(calls, raised) := run_on_close funcs' in
           (Called (func_name func) :: calls, raised)
  end.

(** [ARDevice.close], with [ARBridge.async_disconnect]: the effects, whether
    an exception came out, and the state left. [api_raises] tells whether
    the API's [async_disconnect] raises. *)
Definition close (api_raises : bool) (self : Closing)
    : list CloseEffect * bool * Closing :=
  (* Disconnect the bridge *)
  if bridge_active self && api_raises then ([Disconnect], true, self)
  else
    let disconnected := if bridge_active self then [Disconnect] else [] in
    (* Run on-close methods *)
    let '(calls, raised) := run_on_close (_on_close self) in
    if raised
    then (disconnected ++ calls, true,
          {| bridge_active := false; _on_close := _on_close self |})
    else (disconnected ++ calls, false,
          {| bridge_active := false; _on_close := [] |}).

(** ** The bridge: the ports data (bridge.py) *)

Module Bridge.

(** The names of const.py the ports data is keyed with. *)
Class Names := {
  LIST_PORTS : list string;
  LIST : string;
  STATE : string;
}.

(** A value of the dictionary [_process_data_ports] returns: the connected
    flag of a port type, or the ports of a port type by number. *)
Inductive PortData :=
| PortFlag (connected : bool)
| PortList (ports : gmap Z identity).

Inductive error := KeyError | TypeError.

Section ports.
Context `{Names}.

(** [f"{port_type}_{LIST}"] *)
Definition list_key (port_type : string) : string :=
  port_type +:+ "_" +:+ LIST.

(** The loop over [ports_by_type.items()]; an item assignment into a value
    that is a flag raises [TypeError]. *)
Fixpoint copy_ports (port_type : string) (items : list (Z * identity))
    (data : gmap string PortData) : error + gmap string PortData :=
  match items with
  | [] => inr data
  | (port_number, port_description) :: items' =>
      (* Mark port type connected *)
      let data :=
        if truthy (dict_get STATE port_description)
        then <[port_type := PortFlag true]> data
        else data in
      (* Copy port data to the list *)
      match data !! list_key port_type with
      | None => inl KeyError
      | Some (PortFlag _) => inl TypeError
      | Some (PortList ports) =>
          copy_ports port_type items'
            (<[list_key port_type :=
                 PortList (<[port_number := port_description]> ports)]> data)
      end
  end.

(** The loop over [LIST_PORTS]. [raw] maps a port type to the items of its
    dictionary of ports. *)
Fixpoint process_port_types (raw : gmap string (list (Z * identity)))
    (port_types : list string) (data : gmap string PortData)
    : error + gmap string PortData :=
  match port_types with
  | [] => inr data
  | port_type :: port_types' =>
      (* Mark port type as disconnected *)
      let data := <[port_type := PortFlag false]> data in
      (* Skip if no data is provided from API *)
      match raw !! port_type with
      | None => process_port_types raw port_types' data
      | Some ports_by_type =>
          (* Create ports list *)
          let data := <[list_key port_type := PortList ∅]> data in
          match copy_ports port_type ports_by_type data with
          | inl e => inl e
          | inr data => process_port_types raw port_types' data
          end
      end
  end.

(** [ARBridge._process_data_ports] *)
Definition _process_data_ports (raw : gmap string (list (Z * identity)))
    : error + gmap string PortData :=
  process_port_types raw LIST_PORTS ∅.

(** [ARBridge._process_sensors_ports] *)
Definition _process_sensors_ports (raw : gmap string (list (Z * identity)))
    : list string :=
  foldl (λ sensors port_type, (sensors ++ [port_type]) ++ [list_key port_type])
    [] LIST_PORTS.

(** Whether some port among the items has a true state, and the dictionary
    with the items. *)
Definition some_port_up (items : list (Z * identity)) : bool :=
  existsb (λ item, truthy (dict_get STATE item.2)) items.

Definition ports_of_items (items : list (Z * identity)) : gmap Z identity :=
  foldl (λ ports item, <[item.1 := item.2]> ports) ∅ items.

(** No port type is the list key of a port type. *)
Definition keys_apart : Prop :=
  ∀ port_type port_type', port_type ∈ LIST_PORTS → port_type' ∈ LIST_PORTS →
    port_type ≠ list_key port_type'.
End ports.
End Bridge.

(** ** More vocabulary *)

Section more_vocabulary.
Context `{Consts} `{Entities} `{Handler.Names}.

(** The effects added to the trace between two worlds. *)
Definition added (w w' : World) : list Effect :=
  drop (length (trace w)) (trace w').

(** A computation keeps the invariant [I] of the device and adds to the
    trace only effects that satisfy [P], however it ends. *)
Definition writes {A} (I : ARDevice → Prop) (P : Effect → Prop) (m : M A)
    : Prop :=
  ∀ w, I (dev w) →
    I (dev (after m w)) ∧
    ∃ t, trace (after m w) = trace w ++ t ∧ Forall P t.

(** The keys of the client map and of the mesh-node map. *)
Definition client_keys (w : World) : list string := (_clients (dev w)).*1.

Definition node_keys (w : World) : list string := (_aimesh (dev w)).*1.

(** Where a pass stands: the keys [proj] takes from the world are [keys],
    and the trace is [before] followed by effects among which the
    occurrences of [signal] are [sent]. *)
Definition pass_state (proj : World → list string) (signal : Effect)
    (keys : list string) (before sent : list Effect) (w : World) : Prop :=
  proj w = keys ∧
  ∃ t, trace w = before ++ t ∧ filter (λ e, e = signal) t = sent.

(** What [connected_device] has no business with: everything but the
    history and the latest connection time. *)
Definition beside_history (d : ARDevice) :=
  (_options d, _sensor_handler d, _sensor_coordinator d, _aimesh d, _clients d,
   (_clients_number d, _clients_list d, _aimesh_number d, _aimesh_list d),
   _connect_error d).

(** The MACs a client pass is offered by a snapshot: the formatted keys of
    its records, of the wired ones only in media-bridge mode. *)
Definition offered (d : ARDevice) (snapshot : list (string * ClientInfo))
    (mac : string) : Prop :=
  ∃ key info, (key, info) ∈ snapshot ∧ format_mac key = mac ∧
    (opt_mode (_options d) = MEDIA_BRIDGE → info_wired info = true).

(** The MACs a node pass is offered. *)
Definition offered_nodes (snapshot : list (string * NodeInfo)) (mac : string)
    : Prop :=
  ∃ key, key ∈ snapshot.*1 ∧ format_mac key = mac.

(** The MACs of the registry values that resolve to an entry. *)
Definition macs_of (entities : list RegValue) : list string :=
  omap (λ v, match v with Entry mac => mac | NoEntry => None end) entities.

Definition is_refresh (e : Effect) : Prop :=
  match e with
  | Refresh _ => True
  | _ => False
  end.

#[global] Instance is_refresh_dec e : Decision (is_refresh e).
Proof. destruct e; simpl; apply _. Defined.

Definition is_error (e : Effect) : Prop :=
  match e with
  | LogError _ => True
  | _ => False
  end.

#[global] Instance is_error_dec e : Decision (is_error e).
Proof. destruct e; simpl; apply _. Defined.

Definition is_signal (e : Effect) : Prop :=
  match e with
  | DispatcherSend _ => True
  | _ => False
  end.

#[global] Instance is_signal_dec e : Decision (is_signal e).
Proof. destruct e; simpl; apply _. Defined.

(** What the sensors read from the handler is what the device holds: the
    devices sensors, and the AiMesh sensors in the modes that have them. *)
Definition sensors_current (d : ARDevice) (h : ARSensorHandler) : Prop :=
  _get_clients (_latest_connected_list d) h
  = (_clients_number d, _clients_list d, _latest_connected_list d,
     _latest_connected d) ∧
  ∀ mode, tracking_mode mode = true →
    _get_aimesh mode h = Some (_aimesh_number d, _aimesh_list d).
(** The items of the dictionary of available sensors that hold sensor
    names: the ones the loop asks a coordinator for. *)
Definition with_sensors (items : list (SensorType * SensorDefinition))
    : list (SensorType * SensorDefinition) :=
  filter (λ item, def_sensors item.2 = true) items.

(** The sensor types of the bridge that hold sensor names. *)
Definition bridge_types (sensors : list (string * SensorDefinition))
    : list SensorType :=
  Sensor <$> (filter (λ item, def_sensors item.2 = true) sensors).*1.

(** The keys of a dictionary after assignments under [types], in order. *)
Definition key_sets (types keys : list SensorType) : list SensorType :=
  foldl (λ keys sensor_type, key_set sensor_type keys) keys types.

(** What [get_coordinator] adds to the trace when it has made the
    coordinator of a sensor type. *)
Definition coordinator_made (sensor_type : SensorType) : list Effect :=
  [LogDebug "Coordinator initialized for `%s`. Update interval: `%s`";
   Refresh sensor_type].

(** The world after coordinators were made and saved for [types], in
    order. *)
Definition with_coordinators (types : list SensorType) (w : World) : World :=
  {| dev := set_sensor_coordinator
              (key_sets types (_sensor_coordinator (dev w))) (dev w);
     trace := trace w ++ (types ≫= coordinator_made);
     clock := clock w;
     tick := tick w |}.

(** Under the options of a device a coordinator can be made for an item:
    the method is there and the interval is a number. *)
Definition makes_coordinator (d : ARDevice)
    (item : SensorType * SensorDefinition) : Prop :=
  ∃ coordinator,
    Handler.get_coordinator (opt_items (_options d)) (type_name item.1)
      (def_method item.2) = inr coordinator.

(** No coordinator can be made for an item: [e] is raised. *)
Definition fails_with (d : ARDevice) (item : SensorType * SensorDefinition)
    (e : exn) : Prop :=
  Handler.get_coordinator (opt_items (_options d)) (type_name item.1)
    (def_method item.2) = inl e.
End more_vocabulary.

(** ** Names for concrete runs *)

Module SpecNames.

(** Modelled from the spec: const.py is missing and the spec does not give
    the names and defaults [get_coordinator] takes from it; these are the
    ones the concrete runs use. *)
Definition handler_names : Handler.Names :=
  {| Handler.DEVICES := "devices";
     Handler.AIMESH := "aimesh";
     Handler.FIRMWARE := "firmware";
     Handler.CONF_INTERVAL := "interval_";
     Handler.CONF_SCAN_INTERVAL := "scan_interval";
     Handler.CONF_SPLIT_INTERVALS := "split_intervals";
     Handler.CONF_DEFAULT_SCAN_INTERVAL := PInt 30;
     Handler.CONF_DEFAULT_SPLIT_INTERVALS := PBool false;
     Handler.CONF_DEFAULT_INTERVALS := {[ "interval_firmware" := PInt 21600 ]} |}.

(** Modelled from the spec: const.py is missing; the port types and keys
    the concrete runs use. *)
Definition bridge_names : Bridge.Names :=
  {| Bridge.LIST_PORTS := ["lan"; "wan"];
     Bridge.LIST := "list";
     Bridge.STATE := "state" |}.

(** A port with a state, and a registered function. *)
Definition port (state : bool) : identity := {[ "state" := VBool state ]}.

Definition func (name : string) (raises : bool) : OnClose :=
  {| func_name := name; func_raises := raises |}.

(** The options of [SpecEntities.options 5] with other items in the
    dictionary. *)
Definition options_with (items : gmap string pyval) : Options :=
  {| opt_track_devices := true;
     opt_latest_connected := 5;
     opt_consider_home := 0;
     opt_mode := ROUTER;
     opt_event := λ _, false;
     opt_items := items |}.

(** A sensor type of the bridge with sensor names, served by a method or by
    none. *)
Definition sensors (method : option string) : SensorDefinition :=
  {| def_sensors := true; def_method := method |}.

(** A sensor type of the bridge for which no sensor was found. *)
Definition no_sensors (method : string) : SensorDefinition :=
  {| def_sensors := false; def_method := Some method |}.

End SpecNames.
(** * Proofs *)

(** ** The monad *)

Section monad_facts.
Context `{Entities}.

Lemma world_eta (w : World) :
  {| dev := dev w; trace := trace w; clock := clock w; tick := tick w |} = w.
Proof. by destruct w. Qed.

Lemma steps_ret {A} R `{!Reflexive R} (a : A) : steps R (ret a).
Proof. intros w. apply reflexivity. Qed.

Lemma steps_raise {A} R `{!Reflexive R} e : steps R (raise (A:=A) e).
Proof. intros w. apply reflexivity. Qed.

Lemma steps_get_dev R `{!Reflexive R} : steps R get_dev.
Proof. intros w. apply reflexivity. Qed.

Lemma steps_emit R `{!Frame R} e : steps R (emit e).
Proof. intros w. apply frame_emit. Qed.

Lemma steps_utcnow R `{!Frame R} : steps R utcnow.
Proof. intros w. apply frame_utcnow. Qed.

Lemma steps_modify_dev (R : relation World) f :
  (∀ w, R w (with_dev (f (dev w)) w)) → steps R (modify_dev f).
Proof. intros Hf w. apply Hf. Qed.

Lemma steps_bind {A B} R `{!Transitive R} (m : M A) (k : A → M B) :
  steps R m → (∀ a, steps R (k a)) → steps R (bind m k).
Proof.
  intros Hm Hk w. specialize (Hm w). unfold after, bind in *.
  destruct (m w) as [[a|e] w1]; simpl in *; [|done].
  etrans; [exact Hm|]. apply Hk.
Qed.

Lemma steps_mono {A} (R R' : relation World) (m : M A) :
  (∀ w w', R w w' → R' w w') → steps R m → steps R' m.
Proof. intros HR Hm w. apply HR, Hm. Qed.

Lemma after_bind {A B} (m : M A) (k : A → M B) w :
  after (bind m k) w
  = match m w with
    | (Ret a, w1) => after (k a) w1
    | (Raise _, w1) => w1
    end.
Proof. unfold after, bind. by destruct (m w) as [[?|?] ?]. Qed.

#[global] Instance keeps_frame {B} (f : ARDevice → B) : Frame (keeps f).
Proof.
  split; [split|..]; try done.
  intros x y z. unfold keeps. congruence.
Qed.

#[global] Instance keeps_clients_frame : Frame keeps_clients.
Proof.
  split; [split|..].
  - intros w. unfold keeps_clients. reflexivity.
  - intros x y z. unfold keeps_clients. by etrans.
  - intros e w. unfold keeps_clients. reflexivity.
  - intros w. unfold keeps_clients. reflexivity.
Qed.

#[global] Instance trace_grows_frame : Frame trace_grows.
Proof.
  split; [split|..].
  - intros w. unfold trace_grows. reflexivity.
  - intros x y z. unfold trace_grows. by etrans.
  - intros e w. unfold trace_grows. simpl. by apply prefix_app_r.
  - intros w. unfold trace_grows. reflexivity.
Qed.
End monad_facts.

(** Discharges the side condition of a step that assigns to the device. *)
Ltac frame_tac :=
  intros;
  first [ done
        | unfold keeps_clients, trace_grows; simpl; done
        | apply _ ].

(** Runs through a straight-line computation, one statement at a time;
    [hook] is tried first on every statement. *)
Ltac steps_with hook :=
  repeat first
    [ hook
    | apply steps_ret; apply _
    | apply steps_raise; apply _
    | apply steps_get_dev; apply _
    | apply steps_emit; apply _
    | apply steps_utcnow; apply _
    | apply steps_modify_dev; frame_tac
    | apply steps_bind; [apply _ | | intro ]
    | match goal with
      | |- steps _ (match ?x with _ => _ end) => destruct x
      end ].

Ltac steps_tac := steps_with fail.

(** ** Lists: removal, sorting, eviction *)

Lemma list_remove_sublist x l : list_remove x l `sublist_of` l.
Proof.
  induction l as [|y l IH]; simpl; [done|].
  case_decide; [by apply sublist_cons | by apply sublist_skip].
Qed.

Lemma list_remove_app x pre suf :
  x ∉ pre → list_remove x (pre ++ x :: suf) = pre ++ suf.
Proof.
  induction pre as [|y pre IH]; simpl; intros Hx.
  - by rewrite decide_True.
  - apply not_elem_of_cons in Hx as [? ?].
    rewrite decide_False by done. by rewrite IH.
Qed.

Lemma filter_all {A} (P : A → Prop) `{!∀ x, Decision (P x)} (l : list A) :
  Forall P l → filter P l = l.
Proof.
  induction 1 as [|x l Hx _ IH]; [done|].
  by rewrite filter_cons_True, IH.
Qed.

Section remove_loop_facts.
Context `{Consts}.

Lemma remove_loop_sublist fuel mac i l :
  remove_loop fuel mac i l `sublist_of` l.
Proof.
  revert i l. induction fuel as [|fuel IH]; intros i l; simpl; [done|].
  destruct (l !! i) as [device|]; [|done].
  case_decide; [|done].
  etrans; [apply IH | apply list_remove_sublist].
Qed.

(** Past the index nothing bears the MAC: the loop changes nothing. *)
Lemma remove_loop_no_match fuel mac i l :
  (∀ j e, (i ≤ j)%nat → l !! j = Some e → dict_get MAC e ≠ mac) →
  remove_loop fuel mac i l = l.
Proof.
  revert i. induction fuel as [|fuel IH]; intros i Hno; simpl; [done|].
  destruct (l !! i) as [device|] eqn:Hi; [|done].
  rewrite decide_False by eauto.
  apply IH. intros j e Hj. apply Hno. lia.
Qed.

(** The fuel given by [connected_device] does not run out: from the length
    of the list on, more fuel gives the same list. *)
Lemma remove_loop_fuel fuel fuel' mac i l :
  (length l - i ≤ fuel)%nat → (length l - i ≤ fuel')%nat →
  remove_loop fuel mac i l = remove_loop fuel' mac i l.
Proof.
  revert fuel' i l. induction fuel as [|fuel IH]; intros fuel' i l Hf Hf'.
  - destruct fuel'; simpl; [done|].
    rewrite lookup_ge_None_2 by lia. done.
  - destruct fuel' as [|fuel']; simpl.
    + rewrite lookup_ge_None_2 by lia. done.
    + destruct (l !! i) as [device|] eqn:Hi; [|done].
      apply lookup_lt_Some in Hi.
      case_decide.
      * pose proof (sublist_length _ _ (list_remove_sublist device l)).
        apply IH; lia.
      * apply IH; lia.
Qed.

(** With at most one entry bearing the MAC from the index on, and none
    before, the loop drops exactly that entry. *)
Lemma remove_loop_filter fuel mac pre suf :
  (length suf ≤ fuel)%nat →
  Forall (λ e, dict_get MAC e ≠ mac) pre →
  (length (filter (λ e, dict_get MAC e = mac) suf) ≤ 1)%nat →
  remove_loop fuel mac (length pre) (pre ++ suf)
  = pre ++ filter (λ e, dict_get MAC e ≠ mac) suf.
Proof.
  revert pre suf. induction fuel as [|fuel IH]; intros pre suf Hfuel Hpre Hone.
  - destruct suf; simpl in *; [done|lia].
  - destruct suf as [|d suf]; simpl.
    + rewrite lookup_ge_None_2 by (rewrite length_app; simpl; lia). done.
    + rewrite list_lookup_middle by done.
      rewrite filter_cons in Hone |- *.
      case_decide as Hd.
      * rewrite decide_False by (by intros ?).
        simpl in Hone.
        assert (Hnone : Forall (λ e, dict_get MAC e ≠ mac) suf).
        { apply Forall_forall. intros e He Hm.
          assert (e ∈ filter (λ e, dict_get MAC e = mac) suf) as Hin
            by (by apply list_elem_of_filter).
          destruct (filter _ suf); [by apply elem_of_nil in Hin|simpl in *; lia]. }
        rewrite list_remove_app.
        2:{ intros Hin. rewrite Forall_forall in Hpre. by apply (Hpre d). }
        rewrite remove_loop_no_match.
        -- by rewrite filter_all.
        -- intros j e Hj Hl.
           assert (e ∈ pre ++ suf) as Hin by (by eapply list_elem_of_lookup_2).
           apply elem_of_app in Hin as [Hin|Hin].
           ++ rewrite Forall_forall in Hpre. by apply Hpre.
           ++ rewrite Forall_forall in Hnone. by apply Hnone.
      * rewrite decide_True by done.
        specialize (IH (pre ++ [d]) suf).
        rewrite length_app in IH. simpl in IH.
        replace (length pre + 1)%nat with (S (length pre)) in IH by lia.
        rewrite <- !app_assoc in IH. simpl in IH.
        apply IH.
        -- simpl in Hfuel. lia.
        -- apply Forall_app. split; [done|]. by apply Forall_singleton.
        -- done.
Qed.
End remove_loop_facts.


Lemma insert_by_key_perm x l : insert_by_key x l ≡ₚ x :: l.
Proof.
  induction l as [|y l IH]; simpl; [done|].
  case_match; [done|]. rewrite IH. apply Permutation_swap.
Qed.

Lemma sort_by_key_perm l : sort_by_key l ≡ₚ l.
Proof.
  induction l as [|x l IH]; simpl; [done|].
  rewrite insert_by_key_perm. by f_equiv.
Qed.

Lemma insert_by_key_sorted x l :
  StronglySorted key_le l → StronglySorted key_le (insert_by_key x l).
Proof.
  induction 1 as [|y l Hl IH Hy]; simpl.
  - repeat constructor.
  - destruct (x.1 <=? y.1) eqn:Hxy.
    + apply Z.leb_le in Hxy. constructor; [by constructor|].
      constructor; [done|].
      eapply Forall_impl; [exact Hy|]. unfold key_le. intros; simpl in *; lia.
    + apply Z.leb_gt in Hxy. constructor; [done|].
      rewrite insert_by_key_perm. constructor; [|done].
      unfold key_le. lia.
Qed.

Lemma sort_by_key_sorted l : StronglySorted key_le (sort_by_key l).
Proof.
  induction l as [|x l IH]; simpl; [constructor|].
  by apply insert_by_key_sorted.
Qed.

Lemma evict_nonneg maximum l :
  0 ≤ maximum →
  evict maximum l = (drop (length l - Z.to_nat maximum) l, None).
Proof.
  intros Hmax. induction l as [|x l IH].
  - simpl. destruct (Z.gtb_spec 0 maximum); [lia|done].
  - cbn [evict]. change (length (x :: l)) with (S (length l)).
    destruct (Z.gtb_spec (Z.of_nat (S (length l))) maximum).
    + rewrite IH.
      replace (S (length l) - Z.to_nat maximum)%nat
        with (S (length l - Z.to_nat maximum)) by lia.
      done.
    + replace (S (length l) - Z.to_nat maximum)%nat with 0%nat by lia.
      done.
Qed.

Lemma evict_negative maximum l :
  maximum < 0 → evict maximum l = ([], Some IndexError).
Proof.
  intros Hmax. induction l as [|x l IH].
  - simpl. destruct (Z.gtb_spec 0 maximum); [done|lia].
  - cbn [evict]. change (length (x :: l)) with (S (length l)).
    destruct (Z.gtb_spec (Z.of_nat (S (length l))) maximum); [done|lia].
Qed.

Lemma evict_suffix maximum l : (evict maximum l).1 `suffix_of` l.
Proof.
  destruct (decide (0 ≤ maximum)).
  - rewrite evict_nonneg by done. apply suffix_drop.
  - rewrite evict_negative by lia. apply suffix_nil.
Qed.

(** ** [connected_device] *)

Section history_facts.
Context `{Consts} `{Entities}.

Lemma connected_device_time_spec e w :
  (∃ c, dict_get "connected" e = VDatetime c ∧
        connected_device_time e w = (Ret c, w)) ∨
  ((∀ c, dict_get "connected" e ≠ VDatetime c) ∧
   connected_device_time e w = (Ret (clock w (tick w)), advance 1 w)).
Proof.
  unfold connected_device_time.
  assert (utcnow w = (Ret (clock w (tick w)), advance 1 w)) as Hnow.
  { unfold utcnow, advance. do 2 f_equal. lia. }
  destruct (dict_get "connected" e) as [| | |c]; eauto.
Qed.

Lemma stamped_shift w i n k e :
  stamped (advance i w) (advance n (advance i w)) k e →
  stamped w (advance (i + n) w) k e.
Proof.
  unfold stamped. destruct (dict_get "connected" e); try done.
  all: intros (j & Hj & ->); exists j; simpl in *; split; [lia|done].
Qed.

Lemma advance_advance i n w : advance n (advance i w) = advance (i + n) w.
Proof. unfold advance. simpl. f_equal. lia. Qed.

Lemma advance_0 w : advance 0 w = w.
Proof. unfold advance. rewrite Nat.add_0_r. apply world_eta. Qed.

Lemma sort_keys_spec l w :
  ∃ ks n,
    sort_keys l w = (Ret ks, advance n w) ∧
    Forall2 (stamped w (advance n w)) ks l.
Proof.
  revert w. induction l as [|e l IH]; intros w.
  - exists [], 0%nat. split; [|constructor].
    simpl. unfold ret. by rewrite advance_0.
  - simpl. destruct (connected_device_time_spec e w)
      as [(c & He & Hc)|[He Hc]].
    + destruct (IH w) as (ks & n & Hks & Hst).
      exists (c :: ks), n. split.
      * unfold bind. rewrite Hc, Hks. done.
      * constructor; [|done]. unfold stamped. by rewrite He.
    + destruct (IH (advance 1 w)) as (ks & n & Hks & Hst).
      exists (clock w (tick w) :: ks), (1 + n)%nat. split.
      * unfold bind. rewrite Hc, Hks. unfold ret.
        by rewrite advance_advance.
      * constructor.
        -- unfold stamped. destruct (dict_get "connected" e) eqn:E;
             try (exists (tick w); simpl; split; [lia|done]).
           by destruct (He t).
        -- eapply Forall2_impl; [exact Hst|]. intros k x.
           apply stamped_shift.
Qed.

(** What a call that records an identity does, in one equation. *)
Lemma connected_device_spec ident w :
  truthy (dict_get MAC ident) = true →
  ∃ ks n,
    let l1 := remove_loop (length (history w)) (dict_get MAC ident) 0 (history w) in
    let full := (sort_by_key (zip ks l1)).*2 ++ [ident] in
    let lfin := (evict (maximum w) full).1 in
    Forall2 (stamped w (advance n w)) ks l1 ∧
    connected_device ident w =
      match (evict (maximum w) full).2, last lfin with
      | Some e, _ => (Raise e, advance n (with_dev (set_latest_connected_list lfin (dev w)) w))
      | None, None => (Raise IndexError, advance n (with_dev (set_latest_connected_list lfin (dev w)) w))
      | None, Some x =>
          (Ret tt, advance n (with_dev (set_latest_connected (dict_get CONNECTED x)
                                (set_latest_connected_list lfin (dev w))) w))
      end.
Proof.
  intros Hmac. unfold connected_device. rewrite Hmac. simpl negb. cbv iota.
  unfold history, maximum, bind, get_dev, modify_dev. simpl.
  set (l1 := remove_loop _ _ _ _).
  destruct (sort_keys_spec l1 (with_dev (set_latest_connected_list l1 (dev w)) w))
    as (ks & n & Hks & Hst).
  exists ks, n. split.
  { eapply Forall2_impl; [exact Hst|]. intros k x. done. }
  unfold with_dev, advance in Hks |- *. simpl in Hks |- *. rewrite Hks.
  destruct (evict _ _) as [lfin [e|]] eqn:Hev; simpl.
  - unfold raise. destruct w as [[] ? ? ?]; done.
  - unfold raise. destruct (last lfin); destruct w as [[] ? ? ?]; done.
Qed.
End history_facts.

Lemma Forall2_Forall_zip {A B} (P : A → B → Prop) (ks : list A) (l : list B) :
  Forall2 P ks l → Forall (λ ke, P ke.1 ke.2) (zip ks l).
Proof. induction 1; simpl; by constructor. Qed.

Section history_steps.
Context `{Consts} `{Entities}.

Lemma connected_device_no_mac ident w :
  truthy (dict_get MAC ident) = false → connected_device ident w = (Ret tt, w).
Proof. intros Hmac. unfold connected_device. by rewrite Hmac. Qed.

Lemma stamped_tick w w1 w2 k e :
  tick w1 = tick w2 → stamped w w1 k e → stamped w w2 k e.
Proof. unfold stamped. intros ->. done. Qed.

(** The history a recording call leaves: the entries left by the removal
    loop, sorted on their keys, then the identity, then the eviction. *)
Lemma connected_device_history ident w :
  truthy (dict_get MAC ident) = true →
  let w' := after (connected_device ident) w in
  ∃ keyed : list (Z * identity),
    keyed.*2 ≡ₚ remove_loop (length (history w)) (dict_get MAC ident) 0 (history w) ∧
    StronglySorted key_le keyed ∧
    Forall (λ ke, stamped w w' ke.1 ke.2) keyed ∧
    history w' = (evict (maximum w) (keyed.*2 ++ [ident])).1 ∧
    result (connected_device ident) w =
      match (evict (maximum w) (keyed.*2 ++ [ident])).2, last (history w') with
      | Some e, _ => Raise e
      | None, None => Raise IndexError
      | None, Some _ => Ret tt
      end.
Proof.
  intros Hmac w'.
  destruct (connected_device_spec ident w Hmac) as (ks & n & Hst & Heq).
  simpl in Hst, Heq.
  set (l1 := remove_loop _ _ _ _) in *.
  pose proof (Forall2_length _ _ _ Hst) as Hlen.
  exists (sort_by_key (zip ks l1)).
  assert (Htick : tick w' = tick (advance n w)).
  { unfold w', after. rewrite Heq. by repeat case_match. }
  assert (Hhist : history w'
    = (evict (maximum w) ((sort_by_key (zip ks l1)).*2 ++ [ident])).1).
  { unfold w', after, history. rewrite Heq. by repeat case_match. }
  split_and!.
  - rewrite sort_by_key_perm. rewrite snd_zip by lia. done.
  - apply sort_by_key_sorted.
  - rewrite sort_by_key_perm. apply Forall2_Forall_zip.
    eapply Forall2_impl; [exact Hst|]. intros k e. by apply stamped_tick.
  - done.
  - rewrite Hhist. unfold result. rewrite Heq. by repeat case_match.
Qed.

(** The same history, with the keys of the sort. *)
Lemma connected_device_sorted ident w :
  truthy (dict_get MAC ident) = true →
  let w' := after (connected_device ident) w in
  let l1 := remove_loop (length (history w)) (dict_get MAC ident) 0 (history w) in
  ∃ ks : list Z,
    Forall2 (stamped w w') ks l1 ∧
    history w' = (evict (maximum w) ((sort_by_key (zip ks l1)).*2 ++ [ident])).1.
Proof.
  intros Hmac w' l1.
  destruct (connected_device_spec ident w Hmac) as (ks & n & Hst & Heq).
  simpl in Hst, Heq. fold l1 in Hst, Heq.
  exists ks.
  assert (Htick : tick w' = tick (advance n w)).
  { unfold w', after. rewrite Heq. by repeat case_match. }
  split.
  - eapply Forall2_impl; [exact Hst|]. intros k e. by apply stamped_tick.
  - unfold w', after, history. rewrite Heq. by repeat case_match.
Qed.

Lemma connected_device_keeps_options ident :
  steps (keeps _options) (connected_device ident).
Proof.
  intros w. unfold keeps.
  destruct (truthy (dict_get MAC ident)) eqn:Hmac.
  - destruct (connected_device_spec ident w Hmac) as (ks & n & _ & Heq).
    unfold after. rewrite Heq. by repeat case_match.
  - unfold after. by rewrite connected_device_no_mac.
Qed.

Lemma connected_device_maximum ident w :
  maximum (after (connected_device ident) w) = maximum w.
Proof. unfold maximum. f_equal. apply connected_device_keeps_options. Qed.
End history_steps.

Lemma StronglySorted_drop {A} (R : relation A) n (l : list A) :
  StronglySorted R l → StronglySorted R (drop n l).
Proof.
  intros Hl. rewrite <- (take_drop n l) in Hl.
  by apply StronglySorted_app_1_r in Hl.
Qed.

Lemma key_le_ascending (keyed : list (Z * identity)) :
  StronglySorted key_le keyed → ascending keyed.*1.
Proof.
  induction 1 as [|y l Hl IH Hy]; simpl; constructor; [done|].
  apply Forall_fmap. eapply Forall_impl; [exact Hy|]. done.
Qed.

Lemma Forall_fst_snd {A B} (P : A → B → Prop) (l : list (A * B)) :
  Forall (λ ke, P ke.1 ke.2) l → Forall2 P l.*1 l.*2.
Proof. induction 1; simpl; by constructor. Qed.

Section recording.
Context `{Consts} `{Entities}.

(** With a maximum of at least one the identity recorded stays, as the last
    entry, and the call returns. *)
Lemma connected_device_recorded ident w :
  truthy (dict_get MAC ident) = true →
  1 ≤ maximum w →
  let w' := after (connected_device ident) w in
  ∃ (keyed : list (Z * identity)) (d : nat),
    keyed.*2 ≡ₚ remove_loop (length (history w)) (dict_get MAC ident) 0 (history w) ∧
    StronglySorted key_le keyed ∧
    Forall (λ ke, stamped w w' ke.1 ke.2) keyed ∧
    history w' = (drop d keyed).*2 ++ [ident] ∧
    d = (length (keyed.*2 ++ [ident]) - Z.to_nat (maximum w))%nat ∧
    result (connected_device ident) w = Ret tt.
Proof.
  intros Hmac Hmax w'.
  destruct (connected_device_history ident w Hmac)
    as (keyed & Hperm & Hsorted & Hst & Hhist & Hres).
  fold w' in Hst, Hhist, Hres.
  rewrite evict_nonneg in Hhist, Hres by lia. simpl in Hhist, Hres.
  set (d := (length (keyed.*2 ++ [ident]) - Z.to_nat (maximum w))%nat) in *.
  assert (d ≤ length keyed.*2)%nat as Hd.
  { unfold d. rewrite length_app. simpl. lia. }
  rewrite drop_app_le in Hhist by done.
  rewrite <- fmap_drop in Hhist.
  exists keyed, d. split_and!; try done.
  rewrite Hres, Hhist. by rewrite last_snoc.
Qed.

(** Entries sorted on their keys, all of them datetimes not later than the
    time of an identity, are sorted by connection time with the identity
    appended. *)
Lemma appended_sorted (w w' : World) (keyed : list (Z * identity))
    (ident : identity) (now : Z) :
  StronglySorted key_le keyed →
  Forall (λ ke, stamped w w' ke.1 ke.2) keyed →
  Forall (λ e, ∃ c, dict_get "connected" e = VDatetime c
                    ∧ c ≤ time_at now ident) keyed.*2 →
  sorted_at now (keyed.*2 ++ [ident]).
Proof.
  intros Hsorted Hst Hall. unfold sorted_at. rewrite fmap_app. simpl.
  assert (keyed.*1 = time_at now <$> keyed.*2) as Heq.
  { apply Forall_fst_snd in Hst. clear -Hst Hall.
    induction Hst as [|k e ks es Hke _ IH]; [done|].
    apply Forall_cons in Hall as [(c & Hc & _) Hall]. simpl. f_equal; [|auto].
    unfold stamped, time_at in *. by rewrite Hc in *. }
  rewrite <- Heq. apply StronglySorted_app.
  split_and!; [|by apply key_le_ascending|repeat constructor].
  intros k t Hk Ht. apply list_elem_of_singleton in Ht as ->.
  rewrite Heq in Hk. apply list_elem_of_fmap in Hk as (e & -> & He).
  rewrite Forall_forall in Hall. destruct (Hall e He) as (c & Hc & Hle).
  unfold time_at at 1. by rewrite Hc.
Qed.
End recording.

Section history_theorems.
Context `{Consts} `{Entities}.

(** C1 (amended). A [connected_device] call that records an identity sorts
    what is left of the history first and appends the identity afterwards:
    when the call is over the history is empty or ends with the identity
    just recorded, and the entries before that one are in ascending order of
    the keys [connected_device_time] gave them during the call, the datetime
    of an entry or else a reading of the clock. The whole history is sorted
    ascending whenever those entries carry datetimes none of which is later
    than the time of the identity recorded. *)
Theorem connected_device_sorted_before_last (ident : identity) (w : World) :
  truthy (dict_get MAC ident) = true →
  let w' := after (connected_device ident) w in
  history w' = [] ∨
  ∃ (ks : list Z) (earlier : list identity),
    history w' = earlier ++ [ident] ∧
    Forall2 (stamped w w') ks earlier ∧
    ascending ks ∧
    ∀ now,
      Forall (λ e, ∃ c, dict_get "connected" e = VDatetime c
                        ∧ c ≤ time_at now ident) earlier →
      sorted_at now (history w').
Proof.
  intros Hmac w'.
  destruct (connected_device_history ident w Hmac)
    as (keyed & Hperm & Hsorted & Hst & Hhist & _).
  fold w' in Hst, Hhist.
  destruct (decide (maximum w < 0)) as [Hneg|Hpos].
  { left. by rewrite Hhist, evict_negative. }
  rewrite evict_nonneg in Hhist by lia. simpl in Hhist.
  set (d := (length (keyed.*2 ++ [ident]) - Z.to_nat (maximum w))%nat) in *.
  destruct (decide (d ≤ length keyed.*2)%nat) as [Hd|Hd].
  2:{ left. rewrite Hhist. apply drop_ge. rewrite length_app. simpl. lia. }
  right. rewrite drop_app_le in Hhist by done.
  rewrite <- fmap_drop in Hhist.
  exists (drop d keyed).*1, (drop d keyed).*2.
  assert (Hsorted' : StronglySorted key_le (drop d keyed))
    by (by apply StronglySorted_drop).
  assert (Hst' : Forall (λ ke, stamped w w' ke.1 ke.2) (drop d keyed))
    by (by apply Forall_drop).
  split_and!.
  - done.
  - by apply Forall_fst_snd.
  - by apply key_le_ascending.
  - intros now Hall. rewrite Hhist. by eapply appended_sorted.
Qed.

Lemma connected_device_bounded ident w :
  0 ≤ maximum w →
  Z.of_nat (length (history w)) ≤ maximum w →
  Z.of_nat (length (history (after (connected_device ident) w))) ≤ maximum w.
Proof.
  intros Hmax Hlen.
  destruct (truthy (dict_get MAC ident)) eqn:Hmac.
  - destruct (connected_device_history ident w Hmac)
      as (keyed & _ & _ & _ & Hhist & _).
    rewrite Hhist, evict_nonneg by done. simpl. rewrite length_drop. lia.
  - unfold after. by rewrite connected_device_no_mac.
Qed.

(** C6 (amended). Under a maximum that is not negative, a history within
    the bound (the empty one the device starts with in particular) stays
    within it after every call of any sequence of [connected_device] calls,
    whether the call returns or raises. A call that records an identity
    sorts the entries left by the removal loop on their keys, appends the
    identity and drops entries from index 0, exactly as many as the list
    exceeds the maximum by: the entries evicted are those of the smallest
    keys among the earlier entries, no key of an evicted entry being greater
    than the key of an earlier entry that stays, and the identity recorded,
    whatever its time, is the last to go: it stays under a maximum of at
    least one. *)
Theorem history_bounded (w : World) (calls : list identity) :
  0 ≤ maximum w →
  Z.of_nat (length (history w)) ≤ maximum w →
  Forall (λ w', Z.of_nat (length (history w')) ≤ maximum w) (after_calls calls w)
  ∧ ∀ ident, truthy (dict_get MAC ident) = true →
      let w' := after (connected_device ident) w in
      let left :=
        remove_loop (length (history w)) (dict_get MAC ident) 0 (history w) in
      ∃ ks : list Z,
        Forall2 (stamped w w') ks left ∧
        let sorted := sort_by_key (zip ks left) in
        let evicted :=
          (length (sorted.*2 ++ [ident]) - Z.to_nat (maximum w))%nat in
        sorted.*2 ≡ₚ left ∧
        StronglySorted key_le sorted ∧
        history w' = drop evicted (sorted.*2 ++ [ident]) ∧
        (∀ old kept, old ∈ take evicted sorted → kept ∈ drop evicted sorted →
                     old.1 ≤ kept.1) ∧
        (1 ≤ maximum w → last (history w') = Some ident).
Proof.
  intros Hmax Hlen. split.
  - revert w Hmax Hlen. induction calls as [|ident calls IH]; intros w Hmax Hlen.
    + constructor.
    + simpl. pose proof (connected_device_bounded ident w Hmax Hlen) as Hb.
      constructor; [done|].
      rewrite <- (connected_device_maximum ident w).
      apply IH; rewrite connected_device_maximum; done.
  - intros ident Hmac w' left.
    destruct (connected_device_sorted ident w Hmac) as (ks & Hst & Hhist).
    fold w' left in Hst, Hhist.
    exists ks. split; [exact Hst|]. intros sorted evicted.
    fold sorted in Hhist. rewrite evict_nonneg in Hhist by done.
    simpl in Hhist. fold evicted in Hhist.
    pose proof (Forall2_length _ _ _ Hst) as Hks.
    pose proof (sort_by_key_sorted (zip ks left)) as Hsorted.
    fold sorted in Hsorted.
    split_and!.
    + unfold sorted. rewrite sort_by_key_perm, snd_zip by lia. done.
    + exact Hsorted.
    + exact Hhist.
    + intros old kept Hold Hkept.
      rewrite <- (take_drop evicted sorted) in Hsorted.
      apply StronglySorted_app in Hsorted as (Hle & _ & _).
      by apply Hle.
    + intros Hone. rewrite Hhist.
      assert (evicted ≤ length sorted.*2)%nat as Hd.
      { unfold evicted. rewrite length_app. simpl. lia. }
      rewrite drop_app_le by done. by rewrite last_snoc.
Qed.

(** C10. With a maximum of 0 every [connected_device] call whose identity
    has a MAC (a true value under the key) raises [IndexError], the history
    having been emptied; with a maximum of at least 1 every call returns,
    and one that records an identity leaves it as the last entry. *)
Theorem connected_device_total (ident : identity) (w : World) :
  (maximum w = 0 → truthy (dict_get MAC ident) = true →
   result (connected_device ident) w = Raise IndexError ∧
   history (after (connected_device ident) w) = []) ∧
  (1 ≤ maximum w →
   result (connected_device ident) w = Ret tt ∧
   (truthy (dict_get MAC ident) = true →
    last (history (after (connected_device ident) w)) = Some ident)).
Proof.
  split.
  - intros Hmax Hmac.
    destruct (connected_device_history ident w Hmac)
      as (keyed & _ & _ & _ & Hhist & Hres).
    rewrite Hmax, evict_nonneg in Hhist, Hres by done.
    rewrite Nat.sub_0_r, drop_all in Hhist, Hres.
    simpl in Hhist, Hres. by rewrite Hhist in Hres |- *.
  - intros Hmax. destruct (truthy (dict_get MAC ident)) eqn:Hmac.
    + destruct (connected_device_recorded ident w Hmac Hmax)
        as (keyed & d & _ & _ & _ & Hhist & _ & Hres).
      split; [done|]. intros _. by rewrite Hhist, last_snoc.
    + unfold result, after. rewrite connected_device_no_mac by done.
      split; [done|]. intros [=].
Qed.
End history_theorems.

Lemma suffix_is_sublist {A} (l1 l2 : list A) :
  l1 `suffix_of` l2 → l1 `sublist_of` l2.
Proof. intros [k ->]. by apply sublist_inserts_l. Qed.

Section uniqueness.
Context `{Consts} `{Entities}.

Lemma entries_of_app m l1 l2 :
  entries_of m (l1 ++ l2) = entries_of m l1 ++ entries_of m l2.
Proof. apply filter_app. Qed.

Lemma entries_of_perm m l1 l2 :
  l1 ≡ₚ l2 → length (entries_of m l1) = length (entries_of m l2).
Proof. intros Hp. unfold entries_of. by rewrite Hp. Qed.

Lemma entries_of_sublist m l1 l2 :
  l1 `sublist_of` l2 → (length (entries_of m l1) ≤ length (entries_of m l2))%nat.
Proof.
  intros Hs. apply sublist_length. unfold entries_of.
  induction Hs as [|x l1 l2 Hs IH|x l1 l2 Hs IH]; [done| |].
  - rewrite !filter_cons. case_decide; [by apply sublist_skip|done].
  - rewrite filter_cons. case_decide; [by apply sublist_cons|done].
Qed.

Lemma entries_of_removed m m' l :
  entries_of m' (filter (λ e, dict_get MAC e ≠ m) l)
  = if decide (m' = m) then [] else entries_of m' l.
Proof.
  unfold entries_of. induction l as [|e l IH]; simpl.
  - by case_decide.
  - rewrite !filter_cons. destruct (decide (dict_get MAC e = m)) as [He|He].
    + rewrite decide_False by (by intros ?). rewrite IH.
      case_decide as Hm; [done|]. rewrite decide_False; [done|congruence].
    + rewrite decide_True by done. rewrite filter_cons, IH.
      case_decide as Hm; [|done]. subst m'. by rewrite decide_False.
Qed.

(** Under the invariant the removal loop drops the entry bearing the MAC. *)
Lemma remove_loop_at_most_one (m : value) (l : list identity) :
  at_most_one_per_mac l → truthy m = true →
  remove_loop (length l) m 0 l = filter (λ e, dict_get MAC e ≠ m) l.
Proof.
  intros Hone Hm.
  apply (remove_loop_filter (length l) m [] l); [done|constructor|].
  by apply Hone.
Qed.

Lemma connected_device_at_most_one ident w :
  at_most_one_per_mac (history w) →
  at_most_one_per_mac (history (after (connected_device ident) w)).
Proof.
  intros Hone. destruct (truthy (dict_get MAC ident)) eqn:Hmac.
  2:{ unfold after. by rewrite connected_device_no_mac. }
  destruct (connected_device_history ident w Hmac)
    as (keyed & Hperm & _ & _ & Hhist & _).
  rewrite remove_loop_at_most_one in Hperm by done.
  rewrite Hhist. intros m Hm.
  etrans; [apply entries_of_sublist, suffix_is_sublist, evict_suffix|].
  rewrite entries_of_app, length_app, (entries_of_perm _ _ _ Hperm).
  rewrite entries_of_removed. unfold entries_of at 2.
  rewrite filter_cons, filter_nil.
  destruct (decide (m = dict_get MAC ident)) as [->|Hne].
  - rewrite decide_True by done. simpl. lia.
  - rewrite decide_False by done. simpl. specialize (Hone m Hm). lia.
Qed.

(** C7 (amended). From a history with at most one entry per MAC, every
    sequence of [connected_device] calls keeps at most one entry per MAC after
    each call, the loop removing the entry that bears the MAC recorded; and
    with a maximum of at least one, two calls with identities bearing the
    same MAC both return and leave exactly one entry for that MAC: the
    identity of the second call, with its timestamp, at the end of the
    history, whatever that timestamp. The entry is then in its place by
    timestamp when the entries before it carry datetimes none of which is
    later than its time. *)
Theorem one_entry_per_mac (w : World) (ident1 ident2 : identity)
    (calls : list identity) :
  at_most_one_per_mac (history w) →
  truthy (dict_get MAC ident1) = true →
  dict_get MAC ident2 = dict_get MAC ident1 →
  1 ≤ maximum w →
  let w1 := after (connected_device ident1) w in
  let w2 := after (connected_device ident2) w1 in
  Forall (λ w', at_most_one_per_mac (history w')) (after_calls calls w) ∧
  remove_loop (length (history w)) (dict_get MAC ident1) 0 (history w)
  = filter (λ e, dict_get MAC e ≠ dict_get MAC ident1) (history w) ∧
  result (connected_device ident1) w = Ret tt ∧
  result (connected_device ident2) w1 = Ret tt ∧
  entries_of (dict_get MAC ident1) (history w2) = [ident2] ∧
  ∃ earlier,
    history w2 = earlier ++ [ident2] ∧
    ∀ now,
      Forall (λ e, ∃ c, dict_get "connected" e = VDatetime c
                        ∧ c ≤ time_at now ident2) earlier →
      sorted_at now (history w2).
Proof.
  intros Hone Hmac Hsame Hmax w1 w2.
  assert (Hmac2 : truthy (dict_get MAC ident2) = true) by (by rewrite Hsame).
  assert (Hmax1 : 1 ≤ maximum w1)
    by (unfold w1; by rewrite connected_device_maximum).
  assert (Hone1 : at_most_one_per_mac (history w1))
    by (by apply connected_device_at_most_one).
  split_and!.
  - clear -Hone. revert w Hone.
    induction calls as [|ident calls IH]; intros w Hone; simpl; constructor.
    + by apply connected_device_at_most_one.
    + by apply IH, connected_device_at_most_one.
  - by apply remove_loop_at_most_one.
  - by destruct (connected_device_recorded ident1 w Hmac Hmax)
      as (? & ? & _ & _ & _ & _ & _ & ?).
  - by destruct (connected_device_recorded ident2 w1 Hmac2 Hmax1)
      as (? & ? & _ & _ & _ & _ & _ & ?).
  - destruct (connected_device_recorded ident2 w1 Hmac2 Hmax1)
      as (keyed & d & Hperm & _ & _ & Hhist & _ & _).
    fold w2 in Hhist. rewrite Hhist, entries_of_app.
    rewrite remove_loop_at_most_one in Hperm by done.
    assert (entries_of (dict_get MAC ident1) (drop d keyed).*2 = []) as ->.
    { apply length_zero_iff_nil.
      assert (length (entries_of (dict_get MAC ident1) (drop d keyed).*2)
              ≤ length (entries_of (dict_get MAC ident1) keyed.*2))%nat as Hle.
      { apply entries_of_sublist. rewrite fmap_drop. apply sublist_drop. }
      rewrite (entries_of_perm _ _ _ Hperm), entries_of_removed in Hle.
      rewrite decide_True in Hle by done. simpl in Hle. lia. }
    unfold entries_of. rewrite filter_cons, filter_nil.
    by rewrite decide_True.
  - destruct (connected_device_recorded ident2 w1 Hmac2 Hmax1)
      as (keyed & d & _ & Hsorted & Hst & Hhist & _ & _).
    fold w2 in Hhist, Hst.
    exists (drop d keyed).*2. split; [exact Hhist|].
    intros now Hall. rewrite Hhist.
    apply (appended_sorted w1 w2); [by apply StronglySorted_drop| |done].
    by apply Forall_drop.
Qed.
End uniqueness.

(** ** What the parts of a pass leave alone *)

Section frames.
Context `{Consts} `{Entities}.
Context (R : relation World) `{!Frame R}.

Lemma steps_connected_device_time e : steps R (connected_device_time e).
Proof. unfold connected_device_time. steps_tac. Qed.

Lemma steps_sort_keys l : steps R (sort_keys l).
Proof.
  induction l as [|e l IH]; simpl; steps_tac;
    first [apply IH | apply steps_connected_device_time].
Qed.

Lemma steps_fire_event event args : steps R (fire_event event args).
Proof. unfold fire_event. steps_tac. Qed.

Lemma steps_fire_events calls : steps R (fire_events calls).
Proof.
  induction calls as [|[event args] calls IH]; simpl; steps_tac; apply IH.
Qed.

(** Relations that hold across every change of the history. *)
Hypothesis R_history : ∀ l w, R w (with_dev (set_latest_connected_list l (dev w)) w).
Hypothesis R_latest : ∀ x w, R w (with_dev (set_latest_connected x (dev w)) w).

Lemma steps_connected_device ident : steps R (connected_device ident).
Proof.
  unfold connected_device. steps_tac; try apply steps_sort_keys.
  all: apply steps_modify_dev; intros; first [apply R_history|apply R_latest].
Qed.

Lemma steps_run_callbacks calls : steps R (run_callbacks calls).
Proof.
  induction calls as [|[event args|ident] calls IH]; simpl; steps_tac;
    first [apply IH | apply steps_connected_device].
Qed.
End frames.

Lemma od_set_keys {V} (k : string) (v : V) (l : list (string * V)) :
  l.*1 `prefix_of` (od_set k v l).*1.
Proof.
  induction l as [|[k' v'] l IH]; simpl.
  - apply prefix_nil.
  - case_decide; simpl; [done|]. by apply prefix_cons.
Qed.

Section client_keys.
Context `{Consts} `{Entities}.

Lemma update_known_clients_from_keys consider_home i known clients w :
  known.*1 = drop i (_clients (dev w)).*1 →
  (_clients (dev (after (update_known_clients_from consider_home i known clients) w))).*1
  = (_clients (dev w)).*1.
Proof.
  revert i clients w.
  induction known as [|[client_mac client_state] known IH];
    intros i clients w Hknown; [done|].
  simpl in Hknown |- *.
  destruct (od_pop client_mac clients) as [client_info clients'].
  rewrite after_bind. simpl.
  destruct (client_update _ _ _ _) as [client' calls].
  rewrite after_bind. simpl. rewrite after_bind.
  set (w2 := {| dev := set_clients _ _ |}).
  assert (Hkeys : (_clients (dev w2)).*1 = (_clients (dev w)).*1).
  { simpl. rewrite list_fmap_insert. simpl. apply list_insert_id.
    rewrite <- (Nat.add_0_r i), <- lookup_drop, <- Hknown. done. }
  pose proof (steps_run_callbacks (keeps _clients) (λ _ _, eq_refl)
                (λ _ _, eq_refl) calls w2) as Hcalls.
  unfold keeps, after in Hcalls.
  destruct (run_callbacks calls w2) as [[[]|e] w3]; simpl in Hcalls.
  all: assert (Hc : (_clients (dev w3)).*1 = (_clients (dev w)).*1)
    by (rewrite Hcalls; exact Hkeys).
  - rewrite IH; [done|].
    rewrite Hc. replace (S i) with (i + 1)%nat by lia.
    by rewrite <- drop_drop, <- Hknown.
  - done.
Qed.

Lemma steps_update_known_clients consider_home clients :
  steps keeps_clients (update_known_clients consider_home clients).
Proof.
  intros w. unfold update_known_clients, keeps_clients.
  rewrite after_bind. simpl.
  by rewrite update_known_clients_from_keys.
Qed.

Lemma keeps_clients_by_keeps w w' : keeps _clients w w' → keeps_clients w w'.
Proof. unfold keeps, keeps_clients. by intros ->. Qed.

Lemma steps_run_callbacks_clients calls : steps keeps_clients (run_callbacks calls).
Proof.
  apply (steps_mono (keeps _clients)); [apply keeps_clients_by_keeps|].
  apply (steps_run_callbacks (keeps _clients)); intros; reflexivity.
Qed.

Lemma steps_add_new_clients clients new_clients :
  steps keeps_clients (add_new_clients clients new_clients).
Proof.
  revert new_clients.
  induction clients as [|[client_mac client_info] clients IH];
    intros new_clients; simpl; steps_tac.
  - apply steps_run_callbacks_clients.
  - apply steps_modify_dev. intros w. apply od_set_keys.
  - apply IH.
Qed.
End client_keys.

Section pass_frames.
Context `{Consts} `{Entities}.
Context (R : relation World) `{!Frame R}.

Lemma steps_clients_sensor :
  (∀ n w, R w (with_dev (set_clients_number n (dev w)) w)) →
  (∀ l w, R w (with_dev (set_clients_list l (dev w)) w)) →
  steps R clients_sensor.
Proof.
  intros Hn Hl. unfold clients_sensor.
  assert (∀ l, steps R (clients_sensor_from l)) as Hfrom.
  { intros l. induction l as [|[mac client] l IH]; simpl; steps_tac; apply IH. }
  steps_with ltac:(apply Hfrom).
Qed.

Lemma steps_update_unpolled_sensors :
  (∀ h w, R w (with_dev (set_sensor_handler h (dev w)) w)) →
  steps R _update_unpolled_sensors.
Proof. intros Hh. unfold _update_unpolled_sensors. steps_tac. Qed.
End pass_frames.

Section node_frames.
Context `{Consts} `{Entities}.
Context (R : relation World) `{!Frame R}.
Hypothesis R_aimesh : ∀ x w, R w (with_dev (set_aimesh x (dev w)) w).

Lemma steps_update_known_nodes_from i known nodes :
  steps R (update_known_nodes_from i known nodes).
Proof.
  revert i nodes.
  induction known as [|[node_mac node] l IH]; intros i nodes; simpl;
    steps_with ltac:(first [by apply steps_fire_events | apply IH]).
Qed.

Lemma steps_add_new_nodes nodes new_nodes : steps R (add_new_nodes nodes new_nodes).
Proof.
  revert new_nodes. induction nodes as [|[node_mac node_info] nodes IH];
    intros new_nodes; simpl;
    steps_with ltac:(first [by apply steps_fire_events | apply IH]).
Qed.

Hypothesis R_aimesh_number : ∀ x w, R w (with_dev (set_aimesh_number x (dev w)) w).
Hypothesis R_aimesh_list : ∀ x w, R w (with_dev (set_aimesh_list x (dev w)) w).

Lemma steps_aimesh_sensors_from nodes : steps R (aimesh_sensors_from nodes).
Proof.
  induction nodes as [|[mac node] l IH]; simpl; steps_with ltac:(apply IH).
Qed.

Hypothesis R_connect_error : ∀ x w, R w (with_dev (set_connect_error x (dev w)) w).

Lemma steps_update_nodes fetched : steps R (update_nodes fetched).
Proof.
  unfold update_nodes.
  steps_with ltac:(first [ apply steps_update_known_nodes_from
                         | apply steps_add_new_nodes
                         | by apply steps_fire_events
                         | apply steps_aimesh_sensors_from ]).
Qed.
End node_frames.

Section device_frames.
Context `{Consts} `{Entities}.
Context (R : relation World) `{!Frame R}.
Hypothesis R_history : ∀ l w, R w (with_dev (set_latest_connected_list l (dev w)) w).
Hypothesis R_latest : ∀ x w, R w (with_dev (set_latest_connected x (dev w)) w).
Hypothesis R_number : ∀ n w, R w (with_dev (set_clients_number n (dev w)) w).
Hypothesis R_list : ∀ l w, R w (with_dev (set_clients_list l (dev w)) w).
Hypothesis R_handler : ∀ h w, R w (with_dev (set_sensor_handler h (dev w)) w).
Hypothesis R_connect_error : ∀ x w, R w (with_dev (set_connect_error x (dev w)) w).

(** A pass over the clients, given what its two loops over the snapshot do. *)
Lemma steps_update_devices_with fetched :
  (∀ consider_home clients, steps R (update_known_clients consider_home clients)) →
  (∀ clients new_clients, steps R (add_new_clients clients new_clients)) →
  steps R (update_devices fetched).
Proof.
  intros Hknown Hnew. unfold update_devices.
  steps_with ltac:(first [ apply Hknown | apply Hnew
                         | by apply steps_fire_events
                         | by apply steps_clients_sensor
                         | by apply steps_update_unpolled_sensors ]).
Qed.

Hypothesis R_clients : ∀ x w, R w (with_dev (set_clients x (dev w)) w).

Lemma steps_update_known_clients_any consider_home clients :
  steps R (update_known_clients consider_home clients).
Proof.
  unfold update_known_clients.
  assert (∀ i l clients, steps R (update_known_clients_from consider_home i l clients))
    as Hfrom.
  { intros i l. revert i.
    induction l as [|[client_mac client_state] l IH]; intros i clients'; simpl;
      steps_with ltac:(first [by apply steps_run_callbacks | apply IH]). }
  steps_with ltac:(apply Hfrom).
Qed.

Lemma steps_add_new_clients_any clients new_clients :
  steps R (add_new_clients clients new_clients).
Proof.
  revert new_clients.
  induction clients as [|[client_mac client_info] clients IH];
    intros new_clients; simpl;
    steps_with ltac:(first [by apply steps_run_callbacks | apply IH]).
Qed.

Lemma steps_update_devices fetched : steps R (update_devices fetched).
Proof.
  apply steps_update_devices_with.
  - apply steps_update_known_clients_any.
  - apply steps_add_new_clients_any.
Qed.
End device_frames.

Lemma od_pop_keys {V} (k : string) (l : list (string * V)) :
  NoDup l.*1 → k ∉ (od_pop k l).2.*1.
Proof.
  induction l as [|[k' v'] l IH]; simpl; intros Hnd.
  - apply not_elem_of_nil.
  - apply NoDup_cons in Hnd as [Hk' Hnd]. case_decide as Hk; simpl.
    + by subst.
    + specialize (IH Hnd). destruct (od_pop k l) as [r l']. simpl in *.
      apply not_elem_of_cons. split; [congruence|done].
Qed.

Section reconciliation_theorems.
Context `{Consts} `{Entities}.

(** C3. When the snapshot fetch raises [UpdateFailed], [update_devices] and
    [update_nodes] return at once: the client map, the mesh-node map, the
    history, the aggregate values and the values published in the sensor
    handler are what they were; only the [_connect_error] flag is set, and
    nothing but log messages is added to the trace. *)
Theorem fetch_failure_preserves_state (ex : string) (w : World) :
  let wd := after (update_devices (UpdateFailed ex)) w in
  let wn := after (update_nodes (UpdateFailed ex)) w in
  (result (update_devices (UpdateFailed ex)) w = Ret tt ∧
   reconciled_state (dev wd) = reconciled_state (dev w) ∧
   dev wd = set_connect_error true (dev w) ∧
   ∃ logs, trace wd = trace w ++ logs ∧ Forall is_log logs) ∧
  (result (update_nodes (UpdateFailed ex)) w = Ret tt ∧
   reconciled_state (dev wn) = reconciled_state (dev w) ∧
   dev wn = set_connect_error true (dev w) ∧
   ∃ logs, trace wn = trace w ++ logs ∧ Forall is_log logs).
Proof.
  destruct w as [[? ? ? ? ? ? ? ? ? ? ? err] tr ck tk].
  unfold result, after, update_devices, update_nodes.
  unfold bind, get_dev, emit, modify_dev, ret. simpl.
  destruct (opt_track_devices _), err; simpl.
  all: split; split_and!; try done.
  all: rewrite <- ?app_assoc; eexists; split; [done|]; by repeat constructor.
Qed.

(** C9. A MAC in the client map before [update_devices] is in the map after
    it, however the pass ends and whatever the snapshot holds; [update_nodes]
    and [connected_device] leave the client map as it is. The map loses a
    record in [remove_trackers], whose loop pops the MACs it is given. *)
Theorem reconciliation_keeps_clients (fetched : fetch ClientInfo)
    (nodes : fetch NodeInfo) (ident : identity) (w : World) (mac : string) :
  mac ∈ (_clients (dev w)).*1 →
  mac ∈ (_clients (dev (after (update_devices fetched) w))).*1 ∧
  _clients (dev (after (update_nodes nodes) w)) = _clients (dev w) ∧
  _clients (dev (after (connected_device ident) w)) = _clients (dev w) ∧
  (NoDup (_clients (dev w)).*1 →
   mac ∉ (_clients (dev (after (remove_entities [Entry (Some mac)]) w))).*1).
Proof.
  intros Hmac. split_and!.
  - assert (steps keeps_clients (update_devices fetched)) as Hsteps.
    { apply (steps_update_devices_with keeps_clients);
        first [ apply _
              | intros; apply steps_update_known_clients
              | intros; apply steps_add_new_clients
              | frame_tac ]. }
    destruct (Hsteps w) as [new ->]. apply elem_of_app. by left.
  - apply (steps_update_nodes (keeps _clients)); frame_tac.
  - apply (steps_connected_device (keeps _clients)); frame_tac.
  - intros Hnd. unfold after, remove_entities, bind, emit, get_dev, modify_dev.
    simpl. unfold od_mem. rewrite bool_decide_eq_true_2 by done. simpl.
    by apply od_pop_keys.
Qed.

(** A node pass that has fetched its snapshot leaves the connect error flag
    as it finds it: set by a failure, the flag stays set. *)
Lemma update_nodes_keeps_connect_error snapshot :
  steps (keeps _connect_error) (update_nodes (Fetched snapshot)).
Proof.
  unfold update_nodes.
  steps_with ltac:(first [ apply steps_update_known_nodes_from; frame_tac
                         | apply steps_add_new_nodes; frame_tac
                         | apply steps_fire_events; frame_tac
                         | apply steps_aimesh_sensors_from; frame_tac ]).
Qed.
End reconciliation_theorems.

Section ensures_facts.
Context `{Entities}.

Lemma result_bind {A B} (m : M A) (k : A → M B) w :
  result (bind m k) w
  = match m w with
    | (Ret a, w1) => result (k a) w1
    | (Raise e, _) => Raise e
    end.
Proof. unfold result, bind. by destruct (m w) as [[?|?] ?]. Qed.

(** A postcondition that exceptions meet holds after a computation as soon as
    it holds after what comes last. *)
Lemma ensures_bind {A B} (Q : outcome B → World → Prop) (m : M A) (k : A → M B) :
  (∀ e w, Q (Raise e) w) → (∀ a, ensures Q (k a)) → ensures Q (bind m k).
Proof.
  intros Hraise Hk w. rewrite result_bind, after_bind.
  destruct (m w) as [[a|e] w1]; [apply Hk|apply Hraise].
Qed.
End ensures_facts.

Section aggregates.
Context `{Consts} `{Entities}.

Lemma clients_sensor_from_spec l w :
  ∃ w', clients_sensor_from l w = (Ret tt, w') ∧
    _clients (dev w') = _clients (dev w) ∧
    _clients_number (dev w')
    = _clients_number (dev w)
      + Z.of_nat (length (filter (λ kc, client_state kc.2 = true) l)) ∧
    _clients_list (dev w')
    = _clients_list (dev w)
      ++ ((λ kc, client_identity kc.2) <$> filter (λ kc, client_state kc.2 = true) l).
Proof.
  revert w. induction l as [|[mac client] l IH]; intros w; simpl.
  - exists w. rewrite Z.add_0_r, app_nil_r. done.
  - rewrite filter_cons. simpl.
    destruct (client_state client) eqn:Hstate.
    + unfold bind at 1. simpl.
      match goal with |- context [clients_sensor_from l ?w1] =>
        destruct (IH w1) as (w' & -> & Hc & Hn & Hl) end.
      exists w'. simpl in *. rewrite Hc, Hn, Hl, <- app_assoc.
      split_and!; try done. lia.
    + unfold bind at 1. simpl.
      destruct (IH w) as (w' & -> & Hc & Hn & Hl). by exists w'.
Qed.

Lemma aimesh_sensors_from_spec l w w' :
  aimesh_sensors_from l w = (Ret tt, w') →
  _aimesh (dev w') = _aimesh (dev w) ∧
  _aimesh_number (dev w')
  = _aimesh_number (dev w)
    + Z.of_nat (length (filter
        (λ kn, truthy <$> node_identity kn.2 !! CONNECTED = Some true) l)) ∧
  _aimesh_list (dev w')
  = _aimesh_list (dev w) ++ ((λ kn, node_identity kn.2) <$> l).
Proof.
  revert w. induction l as [|[mac node] l IH]; intros w; simpl.
  - intros [= <-]. rewrite Z.add_0_r, app_nil_r. done.
  - rewrite filter_cons. simpl.
    destruct (node_identity node !! CONNECTED) as [connected|] eqn:Hc;
      [|by intros [=]].
    simpl. destruct (truthy connected) eqn:Htruthy.
    + rewrite decide_True by done. unfold bind at 1 2. simpl.
      intros Hrun. apply IH in Hrun as (Ha & Hn & Hl). simpl in *.
      rewrite Ha, Hn, Hl, <- app_assoc. split_and!; try done. lia.
    + rewrite decide_False by (by intros [=]). unfold bind at 1 2. simpl.
      intros Hrun. apply IH in Hrun as (Ha & Hn & Hl). simpl in *.
      rewrite Ha, Hn, Hl, <- app_assoc. done.
Qed.
End aggregates.

Section aggregate_theorems.
Context `{Consts} `{Entities}.

Lemma run_eq {A} (m : M A) w : m w = (result m w, after m w).
Proof. unfold result, after. by destruct (m w). Qed.

Lemma clients_sensor_tail (rest : M unit) w w' :
  steps (keeps (λ d, (_clients d, _clients_number d, _clients_list d))) rest →
  (modify_dev (set_clients_number 0) ;;
   modify_dev (set_clients_list []) ;;
   clients_sensor ;;
   rest) w = (Ret tt, w') →
  _clients_number (dev w') = Z.of_nat (length (connected_clients (dev w'))) ∧
  _clients_list (dev w')
  = (λ kc, client_identity kc.2) <$> connected_clients (dev w').
Proof.
  intros Hrest. unfold bind at 1 2 3, modify_dev, clients_sensor.
  unfold bind at 1, get_dev. simpl.
  match goal with |- context [clients_sensor_from ?l ?w1] =>
    destruct (clients_sensor_from_spec l w1) as (w2 & -> & Hc & Hn & Hl) end.
  simpl in Hc, Hn, Hl. intros Hrun.
  specialize (Hrest w2). unfold keeps, after in Hrest. rewrite Hrun in Hrest.
  simpl in Hrest. injection Hrest as Hc' Hn' Hl'.
  unfold connected_clients. rewrite Hc', Hn', Hl', Hc. done.
Qed.

Lemma aimesh_sensors_tail (rest : M unit) w w' :
  steps (keeps (λ d, (_aimesh d, _aimesh_number d, _aimesh_list d))) rest →
  (modify_dev (set_aimesh_number 0) ;;
   modify_dev (set_aimesh_list []) ;;
   aimesh_sensors ;;
   rest) w = (Ret tt, w') →
  _aimesh_number (dev w') = Z.of_nat (length (connected_nodes (dev w'))) ∧
  _aimesh_list (dev w') = (λ kn, node_identity kn.2) <$> _aimesh (dev w').
Proof.
  intros Hrest. unfold bind at 1 2 3, modify_dev, aimesh_sensors.
  unfold bind at 1, get_dev. simpl.
  match goal with |- context [aimesh_sensors_from ?l ?w1] =>
    destruct (aimesh_sensors_from l w1) as [[[]|e] w2] eqn:Hsens;
      [|by intros [=]] end.
  apply aimesh_sensors_from_spec in Hsens as (Hc & Hn & Hl).
  simpl in Hc, Hn, Hl. intros Hrun.
  specialize (Hrest w2). unfold keeps, after in Hrest. rewrite Hrun in Hrest.
  simpl in Hrest. injection Hrest as Hc' Hn' Hl'.
  unfold connected_nodes, node_connected. rewrite Hc', Hn', Hl', Hc. done.
Qed.

(** C4 (amended). After a pass that has fetched its snapshot and has run to
    its end, the clients count is the number of records of the client map
    whose connected flag is true and the clients list holds the identities of
    exactly those records, in the order of the map; the nodes count is the
    number of mesh nodes whose identity has a true connected flag, and the
    nodes list holds the identities of all the nodes of the map, connected or
    not, in the order of the map. *)
Theorem aggregates_recomputed (w : World) :
  (∀ snapshot w',
     update_devices (Fetched snapshot) w = (Ret tt, w') →
     _clients_number (dev w') = Z.of_nat (length (connected_clients (dev w'))) ∧
     _clients_list (dev w')
     = (λ kc, client_identity kc.2) <$> connected_clients (dev w')) ∧
  (∀ snapshot w',
     update_nodes (Fetched snapshot) w = (Ret tt, w') →
     _aimesh_number (dev w') = Z.of_nat (length (connected_nodes (dev w'))) ∧
     _aimesh_list (dev w') = (λ kn, node_identity kn.2) <$> _aimesh (dev w')).
Proof.
  split; intros snapshot w' Hrun.
  - set (Q := λ (r : outcome unit) (w' : World), r = Ret tt →
      _clients_number (dev w') = Z.of_nat (length (connected_clients (dev w'))) ∧
      _clients_list (dev w')
      = (λ kc, client_identity kc.2) <$> connected_clients (dev w')).
    assert (ensures Q (update_devices (Fetched snapshot))) as Hq.
    { unfold update_devices.
      do 9 (apply ensures_bind; [done|intros]).
      intros w0 Hres. eapply clients_sensor_tail; [|rewrite run_eq, Hres; done].
      steps_with ltac:(apply steps_update_unpolled_sensors; frame_tac). }
    specialize (Hq w). unfold Q, result, after in Hq. rewrite Hrun in Hq.
    by apply Hq.
  - set (Q := λ (r : outcome unit) (w' : World), r = Ret tt →
      _aimesh_number (dev w') = Z.of_nat (length (connected_nodes (dev w'))) ∧
      _aimesh_list (dev w') = (λ kn, node_identity kn.2) <$> _aimesh (dev w')).
    assert (ensures Q (update_nodes (Fetched snapshot))) as Hq.
    { unfold update_nodes.
      do 4 (apply ensures_bind; [done|intros]).
      intros w0 Hres. eapply aimesh_sensors_tail; [|rewrite run_eq, Hres; done].
      steps_tac. }
    specialize (Hq w). unfold Q, result, after in Hq. rewrite Hrun in Hq.
    by apply Hq.
Qed.
End aggregate_theorems.

Section publication.
Context `{Consts} `{Entities}.





End publication.

Section publication_theorem.
Context `{Consts} `{Entities}.

Lemma update_clients_spec (d : ARDevice) (h : ARSensorHandler) :
  update_clients (_latest_connected_list d) h (_clients_number d)
    (_clients_list d) (_latest_connected d)
  = if decide (recomputed_clients d = published_clients d h)
    then (false, h)
    else (true,
          {| h_clients_number := _clients_number d;
             h_clients_list := _clients_list d;
             h_latest_connected := _latest_connected d;
             h_latest_connected_list := DeviceHistory;
             h_aimesh_number := h_aimesh_number h;
             h_aimesh_list := h_aimesh_list h |}).
Proof.
  unfold update_clients, recomputed_clients, published_clients.
  case_decide as Heq.
  - injection Heq as -> -> -> Hd. rewrite <- Hd.
    by rewrite !bool_decide_eq_true_2.
  - repeat case_bool_decide; simpl; try done. destruct Heq. congruence.
Qed.

Lemma update_aimesh_spec (d : ARDevice) (h : ARSensorHandler) :
  update_aimesh h (_aimesh_number d) (_aimesh_list d)
  = if decide (recomputed_aimesh d = published_aimesh h)
    then (false, h)
    else (true,
          {| h_clients_number := h_clients_number h;
             h_clients_list := h_clients_list h;
             h_latest_connected := h_latest_connected h;
             h_latest_connected_list := h_latest_connected_list h;
             h_aimesh_number := _aimesh_number d;
             h_aimesh_list := _aimesh_list d |}).
Proof.
  unfold update_aimesh, recomputed_aimesh, published_aimesh.
  case_decide as Heq.
  - injection Heq as -> ->. by rewrite !bool_decide_eq_true_2.
  - repeat case_bool_decide; simpl; try done. destruct Heq. congruence.
Qed.


End publication_theorem.

(** ** The [trackDevices] option *)

Section tracking.
Context `{Consts} `{Entities}.

Lemma retrack_inv d1 d2 :
  retrack true d1 = retrack true d2 →
  d1 = retrack (opt_track_devices (_options d1)) d2.
Proof.
  destruct d1 as [[] ? ? ? ? ? ? ? ? ? ? ?], d2 as [[] ? ? ? ? ? ? ? ? ? ? ?].
  unfold retrack. simpl. intros [=]. by subst.
Qed.

Lemma related_ret {A} (a : A) : related (ret a) (ret a).
Proof. by intros w1 w2 Hsim. Qed.

Lemma related_raise {A} e : related (raise (A:=A) e) (raise e).
Proof. by intros w1 w2 Hsim. Qed.

Lemma related_bind {A B} (m1 m2 : M A) (k1 k2 : A → M B) :
  related m1 m2 → (∀ a, related (k1 a) (k2 a)) →
  related (bind m1 k1) (bind m2 k2).
Proof.
  intros Hm Hk w1 w2 Hsim. rewrite !result_bind, !after_bind.
  destruct (Hm w1 w2 Hsim) as [Hres Hsim']. unfold result, after in Hres, Hsim'.
  destruct (m1 w1) as [[a1|e1] w1'], (m2 w2) as [[a2|e2] w2']; simpl in *;
    try done.
  - injection Hres as ->. by apply Hk.
  - by injection Hres as ->.
Qed.

Lemma related_get_dev_bind {B} (k1 k2 : ARDevice → M B) :
  (∀ d1 d2, retrack true d1 = retrack true d2 → related (k1 d1) (k2 d2)) →
  related (bind get_dev k1) (bind get_dev k2).
Proof.
  intros Hk w1 w2 Hsim. unfold result, after, bind, get_dev. simpl.
  apply Hk; [|done]. by destruct Hsim.
Qed.

Lemma related_emit e : related (emit e) (emit e).
Proof.
  intros w1 w2 (Hd & Ht & Hc & Hk). split; [done|]. split_and!; try done.
  simpl. unfold other_effects in *. by rewrite !filter_app, Ht.
Qed.

Lemma related_emit_tracking (b1 b2 : bool) :
  related
    (if b1 then emit (LogDebug "Device tracking is disabled")
     else emit (LogDebug "Device tracking is enabled"))
    (if b2 then emit (LogDebug "Device tracking is disabled")
     else emit (LogDebug "Device tracking is enabled")).
Proof.
  intros w1 w2 (Hd & Ht & Hc & Hk).
  unfold result, after.
  destruct b1, b2; simpl; (split; [done|]); split_and!; try done.
  all: simpl; unfold other_effects in *; rewrite !filter_app, Ht; by f_equal.
Qed.

Lemma related_utcnow : related utcnow utcnow.
Proof.
  intros w1 w2 (Hd & Ht & Hc & Hk). unfold result, after, utcnow. simpl.
  split; [by rewrite Hc, Hk|]. split_and!; simpl; first [done | by f_equal].
Qed.

Lemma related_modify_dev (f : ARDevice → ARDevice) :
  (∀ d1 d2, retrack true d1 = retrack true d2 →
            retrack true (f d1) = retrack true (f d2)) →
  related (modify_dev f) (modify_dev f).
Proof.
  intros Hf w1 w2 (Hd & Ht & Hc & Hk). split; [done|].
  split_and!; simpl; by try apply Hf.
Qed.
End tracking.

(** Discharges the side condition of [related_modify_dev]. *)
Ltac retrack_tac :=
  let d1 := fresh "d" in let d2 := fresh "d" in let Hd := fresh "Hd" in
  intros d1 d2 Hd; rewrite (retrack_inv d1 d2 Hd); reflexivity.

(** Runs through two copies of a computation in worlds that differ in
    [trackDevices]. *)
Ltac related_with hook :=
  repeat first
    [ hook
    | apply related_ret
    | apply related_raise
    | apply related_emit
    | apply related_utcnow
    | apply related_modify_dev; retrack_tac
    | apply related_get_dev_bind;
      let d1 := fresh "d" in let d2 := fresh "d" in let Hd := fresh "Hd" in
      intros d1 d2 Hd; rewrite (retrack_inv d1 d2 Hd); simpl
    | apply related_bind; [ | intro ]
    | match goal with
      | |- related (match ?x with _ => _ end) _ => destruct x
      end ].

Ltac related_tac := related_with fail.

Section tracking_passes.
Context `{Consts} `{Entities}.

Lemma related_sort_keys l : related (sort_keys l) (sort_keys l).
Proof.
  induction l as [|e l IH]; simpl; related_with ltac:(apply IH).
  unfold connected_device_time. related_tac.
Qed.

Lemma related_fire_event event args :
  related (fire_event event args) (fire_event event args).
Proof. unfold fire_event. related_tac. Qed.

Lemma related_fire_events calls : related (fire_events calls) (fire_events calls).
Proof.
  induction calls as [|[event args] calls IH]; simpl;
    related_with ltac:(first [apply IH | apply related_fire_event]).
Qed.

Lemma related_connected_device ident :
  related (connected_device ident) (connected_device ident).
Proof.
  unfold connected_device. related_with ltac:(apply related_sort_keys).
Qed.
End tracking_passes.

Section tracking_theorem.
Context `{Consts} `{Entities}.

Lemma related_run_callbacks calls :
  related (run_callbacks calls) (run_callbacks calls).
Proof.
  induction calls as [|[event args|ident] calls IH]; simpl;
    related_with ltac:(first [ apply IH | apply related_fire_event
                             | apply related_connected_device ]).
Qed.

Lemma related_update_known_clients_from consider_home i known clients :
  related (update_known_clients_from consider_home i known clients)
          (update_known_clients_from consider_home i known clients).
Proof.
  revert i clients.
  induction known as [|[client_mac client_state] known IH]; intros i clients;
    simpl; related_with ltac:(first [apply IH | apply related_run_callbacks]).
Qed.

Lemma related_add_new_clients clients new_clients :
  related (add_new_clients clients new_clients)
          (add_new_clients clients new_clients).
Proof.
  revert new_clients.
  induction clients as [|[client_mac client_info] clients IH];
    intros new_clients; simpl;
    related_with ltac:(first [apply IH | apply related_run_callbacks]).
Qed.

Lemma related_clients_sensor_from clients :
  related (clients_sensor_from clients) (clients_sensor_from clients).
Proof.
  induction clients as [|[client_mac client] clients IH]; simpl;
    related_with ltac:(apply IH).
Qed.

Lemma related_update_unpolled_sensors :
  related _update_unpolled_sensors _update_unpolled_sensors.
Proof. unfold _update_unpolled_sensors. related_tac. Qed.

Lemma related_update_devices fetched :
  related (update_devices fetched) (update_devices fetched).
Proof.
  unfold update_devices.
  apply related_get_dev_bind. intros d1 d2 Hd.
  apply related_bind; [apply related_emit_tracking|intros _].
  related_with ltac:(first [ apply related_update_known_clients_from
                           | apply related_add_new_clients
                           | apply related_fire_events
                           | apply related_clients_sensor_from
                           | apply related_update_unpolled_sensors ]).
Qed.

Lemma related_update_known_nodes_from i known nodes :
  related (update_known_nodes_from i known nodes)
          (update_known_nodes_from i known nodes).
Proof.
  revert i nodes.
  induction known as [|[node_mac node] known IH]; intros i nodes;
    simpl; related_with ltac:(first [apply IH | apply related_fire_events]).
Qed.

Lemma related_add_new_nodes nodes new_nodes :
  related (add_new_nodes nodes new_nodes) (add_new_nodes nodes new_nodes).
Proof.
  revert new_nodes.
  induction nodes as [|[node_mac node_info] nodes IH];
    intros new_nodes; simpl;
    related_with ltac:(first [apply IH | apply related_fire_events]).
Qed.

Lemma related_aimesh_sensors_from nodes :
  related (aimesh_sensors_from nodes) (aimesh_sensors_from nodes).
Proof.
  induction nodes as [|[mac node] nodes IH]; simpl; related_with ltac:(apply IH).
Qed.

Lemma related_update_nodes fetched :
  related (update_nodes fetched) (update_nodes fetched).
Proof.
  unfold update_nodes.
  related_with ltac:(first [ apply related_update_known_nodes_from
                           | apply related_add_new_nodes
                           | apply related_fire_events
                           | apply related_aimesh_sensors_from ]).
Qed.

Lemma track_sim_retrack b1 b2 w :
  track_sim (with_dev (retrack b1 (dev w)) w) (with_dev (retrack b2 (dev w)) w).
Proof. done. Qed.

Lemma retrack_reconciled_state d1 d2 :
  retrack true d1 = retrack true d2 → reconciled_state d1 = reconciled_state d2.
Proof.
  intros Hd. rewrite (retrack_inv d1 d2 Hd). done.
Qed.

(** C2 (amended). [trackDevices] only selects the debug message logged at
    the start of [update_devices]. With the option set to false a pass ends
    the way it ends with the option set to true and leaves the same client
    map, mesh-node map, history, aggregate values and published values, the
    new clients it has added included, and the same trace but for that
    message; the same holds of [update_nodes], which does not read the
    option. *)
Theorem track_devices_only_logs (w : World) (clients : fetch ClientInfo)
    (nodes : fetch NodeInfo) :
  let off := with_dev (retrack false (dev w)) w in
  let on := with_dev (retrack true (dev w)) w in
  (result (update_devices clients) off = result (update_devices clients) on ∧
   reconciled_state (dev (after (update_devices clients) off))
   = reconciled_state (dev (after (update_devices clients) on)) ∧
   other_effects (trace (after (update_devices clients) off))
   = other_effects (trace (after (update_devices clients) on))) ∧
  (result (update_nodes nodes) off = result (update_nodes nodes) on ∧
   reconciled_state (dev (after (update_nodes nodes) off))
   = reconciled_state (dev (after (update_nodes nodes) on)) ∧
   other_effects (trace (after (update_nodes nodes) off))
   = other_effects (trace (after (update_nodes nodes) on))).
Proof.
  intros off on. split.
  - destruct (related_update_devices clients off on (track_sim_retrack _ _ w))
      as (Hres & Hd & Ht & _).
    split_and!; [done| |done]. by apply retrack_reconciled_state.
  - destruct (related_update_nodes nodes off on (track_sim_retrack _ _ w))
      as (Hres & Hd & Ht & _).
    split_and!; [done| |done]. by apply retrack_reconciled_state.
Qed.
End tracking_theorem.

(** ** Concrete runs *)

Section runs.
#[local] Existing Instance SpecEntities.consts.
#[local] Existing Instance SpecEntities.entities.
#[local] Existing Instance SpecNames.handler_names.
Import SpecEntities.

(** Closes a goal made of equations between closed terms. *)
Ltac run_tac :=
  intros; split_and?; vm_compute; first [reflexivity | discriminate].

(** C1, counterexample. With room for five entries, recording A connected
    at 10 and then B connected at 5 returns and leaves the history [A, B]:
    after the second call it is not sorted by connection timestamp, whatever
    the current time. *)
Lemma connected_device_unsorted :
  let w0 := world (ARDevice_init (options 5)) in
  ∃ w1 w2,
    after_calls [ident "A" 10; ident "B" 5] w0 = [w1; w2] ∧
    result (connected_device (ident "B" 5)) w1 = Ret tt ∧
    history w2 = [ident "A" 10; ident "B" 5] ∧
    ∀ now, ¬ sorted_at now (history w2).
Proof.
  eexists _, _. split; [reflexivity|].
  assert (Hhist : history (after (connected_device (ident "B" 5))
                    (after (connected_device (ident "A" 10))
                       (world (ARDevice_init (options 5)))))
                  = [ident "A" 10; ident "B" 5]) by run_tac.
  split; [run_tac|]. split; [exact Hhist|].
  intros now Hsorted. rewrite Hhist in Hsorted.
  assert (time_at now <$> [ident "A" 10; ident "B" 5] = [10; 5]) as Htimes
    by run_tac.
  unfold sorted_at, ascending in Hsorted. rewrite Htimes in Hsorted.
  apply StronglySorted_inv in Hsorted as [_ Hle].
  apply Forall_cons in Hle as [Hle _]. lia.
Qed.

(** C1, at a history the sort reorders. The history holding A connected
    at 10 and then B connected at 5, recording C connected at 20 sorts the
    two and appends C; no entry is later than C, and the whole history is
    sorted. *)
Lemma connected_device_sorted_before_last_witness :
  let w := after (connected_device (ident "B" 5))
             (after (connected_device (ident "A" 10))
                (world (ARDevice_init (options 5)))) in
  let w' := after (connected_device (ident "C" 20)) w in
  truthy (dict_get MAC (ident "C" 20)) = true ∧
  history w = [ident "A" 10; ident "B" 5] ∧
  history w' = [ident "B" 5; ident "A" 10; ident "C" 20] ∧
  (∃ ks, Forall2 (stamped w w') ks [ident "B" 5; ident "A" 10] ∧ ascending ks) ∧
  ∀ now, sorted_at now (history w').
Proof.
  intros w w'.
  assert (Hhist : history w' = [ident "B" 5; ident "A" 10; ident "C" 20])
    by run_tac.
  assert (truthy (dict_get MAC (ident "C" 20)) = true) as Hmac by reflexivity.
  split; [exact Hmac|]. split; [run_tac|]. split; [exact Hhist|].
  destruct (connected_device_sorted_before_last (ident "C" 20) w Hmac)
    as [Hnil|(ks & earlier & Heq & Hst & Hasc & Hsorted)].
  { fold w' in Hnil. rewrite Hhist in Hnil. discriminate. }
  fold w' in Heq, Hst, Hsorted.
  assert (earlier = [ident "B" 5; ident "A" 10]) as ->.
  { rewrite Hhist in Heq.
    change [ident "B" 5; ident "A" 10; ident "C" 20]
      with ([ident "B" 5; ident "A" 10] ++ [ident "C" 20]) in Heq.
    by apply app_inj_tail in Heq as [<- _]. }
  split; [by exists ks|].
  intros now. apply Hsorted.
  assert (time_at now (ident "C" 20) = 20) as -> by reflexivity.
  repeat constructor.
  - exists 5. split; [reflexivity|lia].
  - exists 10. split; [reflexivity|lia].
Defined.

(** C6, counterexample. With room for two entries and the history holding
    A connected at 10 and then B connected at 5, recording C connected at 1
    returns and evicts B: C, which is older, and A, which was recorded
    before B, stay. The entry evicted is the oldest neither by connection
    time nor by the order of recording. *)
Lemma evicted_entry_not_oldest :
  let w0 := world (ARDevice_init (options 2)) in
  ∃ w1 w2 w3,
    after_calls [ident "A" 10; ident "B" 5; ident "C" 1] w0 = [w1; w2; w3] ∧
    history w1 = [ident "A" 10] ∧
    history w2 = [ident "A" 10; ident "B" 5] ∧
    result (connected_device (ident "C" 1)) w2 = Ret tt ∧
    history w3 = [ident "A" 10; ident "C" 1] ∧
    ∀ now, time_at now (ident "C" 1) < time_at now (ident "B" 5).
Proof.
  eexists _, _, _. split; [reflexivity|].
  split; [run_tac|]. split; [run_tac|]. split; [run_tac|]. split; [run_tac|].
  intros now.
  assert (time_at now (ident "C" 1) = 1) as -> by reflexivity.
  assert (time_at now (ident "B" 5) = 5) as -> by reflexivity.
  lia.
Qed.

(** C6, where an entry is evicted. With room for two entries and the
    history holding A connected at 10 and then B connected at 5, recording C
    connected at 20 sorts B before A and drops B, the entry of the smallest
    key, which was not at index 0 before the call. *)
Lemma history_bounded_witness :
  let w := after (connected_device (ident "B" 5))
             (after (connected_device (ident "A" 10))
                (world (ARDevice_init (options 2)))) in
  let w' := after (connected_device (ident "C" 20)) w in
  0 ≤ maximum w ∧
  Z.of_nat (length (history w)) ≤ maximum w ∧
  truthy (dict_get MAC (ident "C" 20)) = true ∧
  1 ≤ maximum w ∧
  Forall (λ w', Z.of_nat (length (history w')) ≤ maximum w)
    (after_calls [ident "C" 20; ident "D" 30] w) ∧
  history w = [ident "A" 10; ident "B" 5] ∧
  (∃ ks : list Z,
     Forall2 (stamped w w') ks (history w) ∧
     (sort_by_key (zip ks (history w))).*2 ≡ₚ history w ∧
     StronglySorted key_le (sort_by_key (zip ks (history w))) ∧
     history w'
     = drop 1 ((sort_by_key (zip ks (history w))).*2 ++ [ident "C" 20])) ∧
  last (history w') = Some (ident "C" 20) ∧
  history w' = [ident "A" 10; ident "C" 20].
Proof.
  intros w w'.
  assert (0 ≤ maximum w) as Hmax by run_tac.
  assert (Z.of_nat (length (history w)) ≤ maximum w) as Hlen by run_tac.
  assert (1 ≤ maximum w) as Hone by run_tac.
  assert (history w = [ident "A" 10; ident "B" 5]) as Hhist by run_tac.
  destruct (history_bounded w [ident "C" 20; ident "D" 30] Hmax Hlen)
    as [Hbound Hevict].
  assert (truthy (dict_get MAC (ident "C" 20)) = true) as Hmac by reflexivity.
  destruct (Hevict (ident "C" 20) Hmac)
    as (ks & Hst & Hperm & Hsorted & Hleft & _ & Hlast).
  fold w' in Hst, Hleft, Hlast.
  assert (remove_loop (length (history w)) (dict_get MAC (ident "C" 20)) 0
            (history w) = history w) as Hkept by run_tac.
  rewrite Hkept in Hst, Hperm, Hsorted, Hleft.
  assert (maximum w = 2) as Htwo by run_tac.
  pose proof (Forall2_length _ _ _ Hst) as Hks.
  assert (length (sort_by_key (zip ks (history w))).*2 = 2%nat) as Hsize.
  { rewrite Hperm, Hhist. reflexivity. }
  rewrite length_app, Hsize, Htwo in Hleft. simpl in Hleft.
  split; [exact Hmax|]. split; [exact Hlen|]. split; [exact Hmac|].
  split; [exact Hone|]. split; [exact Hbound|]. split; [exact Hhist|].
  split; [by exists ks|]. split; [by apply Hlast|]. run_tac.
Defined.

(** C7, counterexample. The history holding B connected at 2, recording A
    connected at 3 and then A connected at 1 leaves one entry for A, the
    second identity; it comes after B, at the end, where its timestamp does
    not place it. *)
Lemma readded_mac_goes_last :
  let w := after (connected_device (ident "B" 2))
             (world (ARDevice_init (options 3))) in
  let w1 := after (connected_device (ident "A" 3)) w in
  let w2 := after (connected_device (ident "A" 1)) w1 in
  history w = [ident "B" 2] ∧
  result (connected_device (ident "A" 3)) w = Ret tt ∧
  result (connected_device (ident "A" 1)) w1 = Ret tt ∧
  history w2 = [ident "B" 2; ident "A" 1] ∧
  ∀ now, ¬ sorted_at now (history w2).
Proof.
  intros w w1 w2.
  assert (Hhist : history w2 = [ident "B" 2; ident "A" 1]) by run_tac.
  split; [run_tac|]. split; [run_tac|]. split; [run_tac|]. split; [exact Hhist|].
  intros now Hsorted. rewrite Hhist in Hsorted.
  assert (time_at now <$> [ident "B" 2; ident "A" 1] = [2; 1]) as Htimes
    by run_tac.
  unfold sorted_at, ascending in Hsorted. rewrite Htimes in Hsorted.
  apply StronglySorted_inv in Hsorted as [_ Hle].
  apply Forall_cons in Hle as [Hle _]. lia.
Qed.

Lemma one_entry_per_mac_witness :
  let w := after (connected_device (ident "B" 2))
             (world (ARDevice_init (options 3))) in
  let w1 := after (connected_device (ident "A" 1)) w in
  let w2 := after (connected_device (ident "A" 3)) w1 in
  at_most_one_per_mac (history w) ∧
  truthy (dict_get MAC (ident "A" 1)) = true ∧
  dict_get MAC (ident "A" 3) = dict_get MAC (ident "A" 1) ∧
  1 ≤ maximum w ∧
  entries_of (dict_get MAC (ident "A" 1)) (history w2) = [ident "A" 3] ∧
  (∃ earlier,
     history w2 = earlier ++ [ident "A" 3] ∧
     ∀ now,
       Forall (λ e, ∃ c, dict_get "connected" e = VDatetime c
                         ∧ c ≤ time_at now (ident "A" 3)) earlier →
       sorted_at now (history w2)) ∧
  history w2 = [ident "B" 2; ident "A" 3].
Proof.
  intros w w1 w2.
  assert (at_most_one_per_mac (history w)) as Hone.
  { intros m _. replace (history w) with [ident "B" 2] by run_tac.
    unfold entries_of. rewrite filter_cons, filter_nil.
    case_decide; simpl; lia. }
  split; [exact Hone|]. split; [reflexivity|]. split; [reflexivity|].
  split; [run_tac|].
  destruct (one_entry_per_mac w (ident "A" 1) (ident "A" 3) [] Hone
              eq_refl eq_refl)
    as (_ & _ & _ & _ & Hentries & Hlast); [run_tac|].
  split; [exact Hentries|]. split; [exact Hlast|]. run_tac.
Defined.

Lemma connected_device_total_witness :
  let w0 := world (ARDevice_init (options 0)) in
  let w1 := world (ARDevice_init (options 1)) in
  (maximum w0 = 0 ∧ truthy (dict_get MAC (ident "A" 1)) = true ∧
   result (connected_device (ident "A" 1)) w0 = Raise IndexError ∧
   history (after (connected_device (ident "A" 1)) w0) = []) ∧
  (1 ≤ maximum w1 ∧
   result (connected_device (ident "A" 1)) w1 = Ret tt ∧
   last (history (after (connected_device (ident "A" 1)) w1)) = Some (ident "A" 1)).
Proof.
  split.
  - split; [reflexivity|]. split; [reflexivity|].
    apply (connected_device_total (ident "A" 1) (world (ARDevice_init (options 0))));
      reflexivity.
  - split; [run_tac|].
    destruct (connected_device_total (ident "A" 1)
                (world (ARDevice_init (options 1)))) as [_ Hret].
    destruct Hret as [Hres Hlast]; [run_tac|].
    split; [exact Hres|]. apply Hlast. reflexivity.
Defined.

(** C2, counterexample. With [trackDevices] set to false and an empty
    client map, a pass over a snapshot holding the connected client X adds X
    to the map, counts it, lists it and records it in the history. *)
Lemma track_devices_false_still_tracks :
  let w := world (ARDevice_init options_untracked) in
  let w' := after (update_devices (Fetched [("X", snapshot_record true)])) w in
  opt_track_devices (_options (dev w)) = false ∧
  _clients (dev w) = [] ∧
  result (update_devices (Fetched [("X", snapshot_record true)])) w = Ret tt ∧
  (_clients (dev w')).*1 = ["X"] ∧
  _clients_number (dev w') = 1 ∧
  _clients_list (dev w') = [{[ "mac" := VStr "X" ]}] ∧
  history w' = [{[ "mac" := VStr "X" ]}].
Proof. run_tac. Qed.

(** C4, counterexample. After a pass over a snapshot holding the node N,
    not connected, no node of the map is connected and the nodes count is 0,
    yet the nodes list holds the identity of N. *)
Lemma aimesh_list_holds_disconnected_nodes :
  let w := world (ARDevice_init (options 5)) in
  let w' := after (update_nodes (Fetched [("N", snapshot_record false)])) w in
  result (update_nodes (Fetched [("N", snapshot_record false)])) w = Ret tt ∧
  connected_nodes (dev w') = [] ∧
  _aimesh_number (dev w') = 0 ∧
  _aimesh_list (dev w') = [{[ "mac" := VStr "N"; "connected" := VBool false ]}] ∧
  _aimesh_list (dev w') ≠ (λ kn, node_identity kn.2) <$> connected_nodes (dev w').
Proof. run_tac. Qed.

Lemma aggregates_recomputed_witness :
  let w := world (ARDevice_init (options 5)) in
  let clients := [("X", snapshot_record true); ("Y", snapshot_record false)] in
  let nodes := [("N", snapshot_record false); ("M", snapshot_record true)] in
  let wd := after (update_devices (Fetched clients)) w in
  let wn := after (update_nodes (Fetched nodes)) w in
  update_devices (Fetched clients) w = (Ret tt, wd) ∧
  update_nodes (Fetched nodes) w = (Ret tt, wn) ∧
  (_clients_number (dev wd) = Z.of_nat (length (connected_clients (dev wd))) ∧
   _clients_list (dev wd)
   = (λ kc, client_identity kc.2) <$> connected_clients (dev wd)) ∧
  (_aimesh_number (dev wn) = Z.of_nat (length (connected_nodes (dev wn))) ∧
   _aimesh_list (dev wn) = (λ kn, node_identity kn.2) <$> _aimesh (dev wn)) ∧
  _clients_number (dev wd) = 1 ∧ _aimesh_number (dev wn) = 1 ∧
  length (_aimesh_list (dev wn)) = 2%nat.
Proof.
  intros w clients nodes wd wn.
  assert (update_devices (Fetched clients) w = (Ret tt, wd)) as Hd
    by (rewrite run_eq; f_equal; run_tac).
  assert (update_nodes (Fetched nodes) w = (Ret tt, wn)) as Hn
    by (rewrite run_eq; f_equal; run_tac).
  destruct (aggregates_recomputed w) as [Hclients Hnodes].
  split; [exact Hd|]. split; [exact Hn|].
  split; [exact (Hclients clients wd Hd)|].
  split; [exact (Hnodes nodes wn Hn)|].
  run_tac.
Defined.



(** C8, at the failing input. A client pass whose fetch fails sets the
    connect error flag and logs the error; the node pass that follows
    fetches its snapshot, which is the first success after the failure, and
    returns with the flag still set and no recovery notice in the trace,
    where a client pass would have cleared the flag and logged the notice. *)
Lemma update_nodes_no_recovery :
  let w0 := world (ARDevice_init (options 5)) in
  let w1 := after (update_devices (UpdateFailed "timeout")) w0 in
  let w2 := after (update_nodes (Fetched [])) w1 in
  _connect_error (dev w1) = true ∧
  result (update_nodes (Fetched [])) w1 = Ret tt ∧
  _connect_error (dev w2) = true ∧
  trace w2 = [LogDebug "Device tracking is enabled";
              LogDebug "Updating AsusRouter device list for '%s'";
              LogError "Error connecting to '%s' for device update: %s";
              LogDebug "Updating AiMesh status for '%s'";
              DispatcherSend signal_aimesh_update] ∧
  _connect_error (dev (after (update_devices (Fetched [])) w1)) = false ∧
  trace (after (update_devices (Fetched [])) w1)
  = trace w1 ++ [LogDebug "Device tracking is enabled";
                 LogDebug "Updating AsusRouter device list for '%s'";
                 LogInfo "Reconnected to '%s'";
                 DispatcherSend signal_device_update].
Proof. run_tac. Qed.

(** The same defect over three cycles of [update_all] in which the clients
    fetch succeeds and the nodes fetch fails: the failure streak of the node
    pass is logged in every cycle, each client pass in between logging a
    recovery. *)
Lemma node_failure_streak_logged_every_cycle :
  let cycle := update_all (Fetched []) (UpdateFailed "timeout") in
  let w3 := after cycle (after cycle (after cycle
              (world (ARDevice_init (options 5))))) in
  filter (λ e, e ≠ DispatcherSend signal_device_update ∧ ¬ is_debug e) (trace w3)
  = [LogError "Error connecting to '%s' for device update: %s";
     LogInfo "Reconnected to '%s'";
     LogError "Error connecting to '%s' for device update: %s";
     LogInfo "Reconnected to '%s'";
     LogError "Error connecting to '%s' for device update: %s"].
Proof. run_tac. Qed.

Lemma reconciliation_keeps_clients_witness :
  let w0 := world (ARDevice_init (options 5)) in
  let w := after (update_devices (Fetched [("X", snapshot_record true)])) w0 in
  let w' := after (update_devices (Fetched [])) w in
  "X" ∈ (_clients (dev w)).*1 ∧
  "X" ∈ (_clients (dev w')).*1 ∧
  NoDup (_clients (dev w)).*1 ∧
  "X" ∉ (_clients (dev (after (remove_entities [Entry (Some "X")]) w))).*1.
Proof.
  intros w0 w w'.
  assert ((_clients (dev w)).*1 = ["X"]) as Hkeys by run_tac.
  assert ("X" ∈ (_clients (dev w)).*1) as Hin
    by (rewrite Hkeys; apply list_elem_of_here).
  assert (NoDup (_clients (dev w)).*1) as Hnd
    by (rewrite Hkeys; apply NoDup_singleton).
  split; [exact Hin|].
  destruct (reconciliation_keeps_clients (Fetched []) (Fetched []) ∅ w "X" Hin)
    as (Hkept & _ & _ & Hremoved).
  split; [exact Hkept|]. split; [exact Hnd|]. exact (Hremoved Hnd).
Defined.
End runs.

(** * Further properties *)

(** ** More on the history *)

Section history_extras.
Context `{Consts} `{Entities}.

(** X1. [connected_device] works on the history and on the latest connection
    time only: the options, the sensor handler and its coordinators, the
    client and mesh-node maps, the aggregate values and the connect error
    flag are what they were, nothing is logged, sent or fired, and every
    entry of the history afterwards is the identity given or an entry that
    was there before. An identity without a MAC, or with an empty one, is
    ignored: the world is left as it was. *)
Theorem connected_device_only_history (ident : identity) (w : World) :
  let w' := after (connected_device ident) w in
  beside_history (dev w') = beside_history (dev w) ∧
  trace w' = trace w ∧
  clock w' = clock w ∧
  (∀ e, e ∈ history w' → e = ident ∨ e ∈ history w) ∧
  (truthy (dict_get MAC ident) = false → w' = w).
Proof.
  intros w'. destruct (truthy (dict_get MAC ident)) eqn:Hmac.
  - destruct (connected_device_spec ident w Hmac) as (ks & n & _ & Heq).
    simpl in Heq.
    assert (beside_history (dev w') = beside_history (dev w)
            ∧ trace w' = trace w ∧ clock w' = clock w) as (? & ? & ?).
    { unfold w', after. rewrite Heq. by repeat case_match. }
    split_and!; try done.
    intros e He.
    destruct (connected_device_history ident w Hmac)
      as (keyed & Hperm & _ & _ & Hhist & _).
    fold w' in Hhist. rewrite Hhist in He.
    eapply elem_of_suffix in He; [|apply evict_suffix].
    apply elem_of_app in He as [He|He].
    + right. rewrite Hperm in He.
      eapply elem_of_sublist; [exact He|apply remove_loop_sublist].
    + left. by apply list_elem_of_singleton in He.
  - assert (w' = w) as -> by (unfold w', after; by rewrite connected_device_no_mac).
    split_and!; auto.
Qed.

(** X2. A call that records an identity under a maximum of at least one
    leaves as latest connection time the value the identity holds under
    [CONNECTED], [None] when it holds none, whatever the times of the entries
    before it. Under a maximum of zero or less the call empties the history
    and raises [IndexError] before the latest connection time is assigned:
    it keeps the value it had. *)
Theorem latest_connected_of_recorded (ident : identity) (w : World) :
  truthy (dict_get MAC ident) = true →
  let w' := after (connected_device ident) w in
  (1 ≤ maximum w → _latest_connected (dev w') = dict_get CONNECTED ident) ∧
  (maximum w ≤ 0 →
   result (connected_device ident) w = Raise IndexError ∧
   history w' = [] ∧
   _latest_connected (dev w') = _latest_connected (dev w)).
Proof.
  intros Hmac w'.
  destruct (connected_device_spec ident w Hmac) as (ks & n & _ & Heq).
  simpl in Heq. set (l1 := remove_loop _ _ _ _) in Heq.
  set (full := (sort_by_key (zip ks l1)).*2 ++ [ident]) in Heq.
  split; intros Hmax.
  - rewrite evict_nonneg in Heq by lia. simpl in Heq.
    assert (last (drop (length full - Z.to_nat (maximum w)) full) = Some ident)
      as Hlast.
    { unfold full. rewrite drop_app_le by (rewrite length_app; simpl; lia).
      by rewrite last_snoc. }
    rewrite Hlast in Heq. unfold w', after. by rewrite Heq.
  - destruct (decide (maximum w < 0)) as [Hneg|Hzero].
    + rewrite evict_negative in Heq by done. simpl in Heq.
      unfold w', result, after, history. by rewrite Heq.
    + rewrite evict_nonneg in Heq by lia. simpl in Heq.
      replace (Z.to_nat (maximum w)) with 0%nat in Heq by lia.
      rewrite Nat.sub_0_r, drop_all in Heq. simpl in Heq.
      unfold w', result, after, history. by rewrite Heq.
Qed.
End history_extras.

(** ** What a computation writes to the trace *)

Section writes_facts.
Context `{Entities}.

Lemma added_app (w w' : World) t : trace w' = trace w ++ t → added w w' = t.
Proof. unfold added. intros ->. by rewrite drop_app_length. Qed.

Lemma writes_ret {A} I P (a : A) : writes I P (ret a).
Proof. intros w HI. split; [done|]. exists []. by rewrite app_nil_r. Qed.

Lemma writes_raise {A} I P e : writes I P (raise (A:=A) e).
Proof. intros w HI. split; [done|]. exists []. by rewrite app_nil_r. Qed.

Lemma writes_utcnow I P : writes I P utcnow.
Proof. intros w HI. split; [done|]. exists []. by rewrite app_nil_r. Qed.

Lemma writes_emit I (P : Effect → Prop) e : P e → writes I P (emit e).
Proof. intros He w HI. split; [done|]. exists [e]. by repeat constructor. Qed.

Lemma writes_modify_dev (I : ARDevice → Prop) P f :
  (∀ d, I d → I (f d)) → writes I P (modify_dev f).
Proof.
  intros Hf w HI. split; [by apply Hf|]. exists []. by rewrite app_nil_r.
Qed.

Lemma writes_bind {A B} I P (m : M A) (k : A → M B) :
  writes I P m → (∀ a, writes I P (k a)) → writes I P (bind m k).
Proof.
  intros Hm Hk w HI. destruct (Hm w HI) as (HI1 & t1 & Ht1 & HP1).
  rewrite after_bind. unfold after in HI1, Ht1.
  destruct (m w) as [[a|e] w1]; simpl in *; [|eauto].
  destruct (Hk a w1 HI1) as (HI2 & t2 & Ht2 & HP2). split; [done|].
  exists (t1 ++ t2). rewrite Ht2, Ht1, <- app_assoc. split; [done|].
  by apply Forall_app.
Qed.

(** What follows a reading of the device may rely on the invariant of the
    device that was read. *)
Lemma writes_get_dev_bind {B} (I : ARDevice → Prop) P (k : ARDevice → M B) :
  (∀ d, I d → writes I P (k d)) → writes I P (bind get_dev k).
Proof. intros Hk w HI. exact (Hk (dev w) HI w HI). Qed.

Lemma writes_mono {A} (I : ARDevice → Prop) (P P' : Effect → Prop) (m : M A) :
  (∀ e, P e → P' e) → writes I P m → writes I P' m.
Proof.
  intros HP Hm w HI. destruct (Hm w HI) as (HI1 & t & Ht & Hall).
  split; [done|]. exists t. split; [done|]. by eapply Forall_impl.
Qed.

Lemma writes_added {A} (I : ARDevice → Prop) P (m : M A) w :
  writes I P m → I (dev w) → Forall P (added w (after m w)).
Proof.
  intros Hm HI. destruct (Hm w HI) as (_ & t & Ht & Hall).
  by rewrite (added_app _ _ _ Ht).
Qed.
End writes_facts.

(** Runs through a straight-line computation; [hook] is tried first on
    every statement, [side] proves that an effect may be written and that an
    assignment keeps the invariant. *)
Ltac writes_with hook side :=
  repeat first
    [ hook
    | apply writes_ret
    | apply writes_raise
    | apply writes_utcnow
    | apply writes_emit; side
    | apply writes_modify_dev; side
    | apply writes_get_dev_bind; intros ? ?
    | apply writes_bind; [ | intro ]
    | match goal with
      | |- writes _ _ (match ?x with _ => _ end) => destruct x eqn:?
      end ].

Section writes_parts.
Context `{Consts} `{Entities}.
Context (I : ARDevice → Prop) (P : Effect → Prop).

(** The invariant depends on the options, on the sensor handler and on the
    coordinators only. *)
Hypothesis I_frame : ∀ d d',
  _options d' = _options d → _sensor_handler d' = _sensor_handler d →
  _sensor_coordinator d' = _sensor_coordinator d →
  I d → I d'.
Hypothesis P_debug : ∀ msg, P (LogDebug msg).

(** An event fired is one the options enable. *)
Hypothesis P_fire : ∀ d event args,
  I d → opt_event (_options d) event = true → P (BusFire event args).

Local Ltac side :=
  first [ apply P_debug
        | intros; eapply I_frame; [| | |eassumption]; done ].

Lemma writes_fire_event event args : writes I P (fire_event event args).
Proof.
  unfold fire_event. writes_with fail side.
  apply writes_emit. by eapply P_fire.
Qed.

Lemma writes_fire_events calls : writes I P (fire_events calls).
Proof.
  induction calls as [|[event args] calls IH]; simpl;
    writes_with ltac:(first [apply writes_fire_event | apply IH]) side.
Qed.

Lemma writes_sort_keys l : writes I P (sort_keys l).
Proof.
  induction l as [|e l IH]; simpl; [apply writes_ret|].
  apply writes_bind; [unfold connected_device_time; writes_with fail side|].
  intros k. writes_with ltac:(apply IH) side.
Qed.

Lemma writes_connected_device ident : writes I P (connected_device ident).
Proof.
  unfold connected_device. writes_with ltac:(apply writes_sort_keys) side.
Qed.

Lemma writes_run_callbacks calls : writes I P (run_callbacks calls).
Proof.
  induction calls as [|[event args|ident] calls IH]; simpl;
    writes_with ltac:(first [ apply writes_fire_event
                            | apply writes_connected_device
                            | apply IH ]) side.
Qed.

Lemma writes_update_known_clients consider_home clients :
  writes I P (update_known_clients consider_home clients).
Proof.
  unfold update_known_clients.
  assert (∀ i l clients,
            writes I P (update_known_clients_from consider_home i l clients))
    as Hfrom.
  { intros i l. revert i.
    induction l as [|[client_mac client_state] l IH]; intros i clients'; simpl;
      writes_with ltac:(first [apply writes_run_callbacks | apply IH]) side. }
  writes_with ltac:(apply Hfrom) side.
Qed.

Lemma writes_add_new_clients clients new_clients :
  writes I P (add_new_clients clients new_clients).
Proof.
  revert new_clients.
  induction clients as [|[client_mac client_info] clients IH];
    intros new_clients; simpl;
    writes_with ltac:(first [apply writes_run_callbacks | apply IH]) side.
Qed.

Lemma writes_clients_sensor : writes I P clients_sensor.
Proof.
  unfold clients_sensor.
  assert (∀ l, writes I P (clients_sensor_from l)) as Hfrom.
  { intros l. induction l as [|[mac client] l IH]; simpl;
      writes_with ltac:(apply IH) side. }
  writes_with ltac:(apply Hfrom) side.
Qed.

Lemma writes_update_known_nodes nodes : writes I P (update_known_nodes nodes).
Proof.
  unfold update_known_nodes.
  assert (∀ i l nodes, writes I P (update_known_nodes_from i l nodes)) as Hfrom.
  { intros i l. revert i.
    induction l as [|[node_mac node] l IH]; intros i nodes'; simpl;
      writes_with ltac:(first [apply writes_fire_events | apply IH]) side. }
  writes_with ltac:(apply Hfrom) side.
Qed.

Lemma writes_add_new_nodes nodes new_nodes :
  writes I P (add_new_nodes nodes new_nodes).
Proof.
  revert new_nodes.
  induction nodes as [|[node_mac node_info] nodes IH];
    intros new_nodes; simpl;
    writes_with ltac:(first [apply writes_fire_events | apply IH]) side.
Qed.

Lemma writes_aimesh_sensors : writes I P aimesh_sensors.
Proof.
  unfold aimesh_sensors.
  assert (∀ l, writes I P (aimesh_sensors_from l)) as Hfrom.
  { intros l. induction l as [|[mac node] l IH]; simpl;
      writes_with ltac:(apply IH) side. }
  writes_with ltac:(apply Hfrom) side.
Qed.

(** The passes, given what they may log and send and what the publication
    at the end of the client pass writes. *)
Lemma writes_update_devices fetched :
  (∀ msg, P (LogInfo msg)) → (∀ msg, P (LogError msg)) →
  P (DispatcherSend signal_device_update) →
  P (DispatcherSend signal_device_new) →
  writes I P _update_unpolled_sensors →
  writes I P (update_devices fetched).
Proof.
  intros Pinfo Perror Pupdate Pnew Hunpolled. unfold update_devices.
  writes_with ltac:(first [ apply writes_update_known_clients
                          | apply writes_add_new_clients
                          | apply writes_fire_events
                          | apply writes_clients_sensor
                          | apply Hunpolled ])
              ltac:(first [side | apply Pinfo | apply Perror | done]).
Qed.

Lemma writes_update_nodes fetched :
  (∀ msg, P (LogError msg)) →
  P (DispatcherSend signal_aimesh_update) →
  P (DispatcherSend signal_aimesh_new) →
  writes I P (update_nodes fetched).
Proof.
  intros Perror Pupdate Pnew. unfold update_nodes.
  writes_with ltac:(first [ apply writes_update_known_nodes
                          | apply writes_add_new_nodes
                          | apply writes_fire_events
                          | apply writes_aimesh_sensors ])
              ltac:(first [side | apply Perror | done]).
Qed.

Lemma writes_remove_entities entities : writes I P (remove_entities entities).
Proof.
  induction entities as [|[|[mac|]] entities IH]; simpl;
    writes_with ltac:(apply IH) side.
Qed.
End writes_parts.

(** ** Events and signals *)

Section writes_passes.
Context `{Consts} `{Entities} `{Handler.Names}.
Context (I : ARDevice → Prop) (P : Effect → Prop).

Lemma writes_update_unpolled_sensors :
  (∀ h d, I d → I (set_sensor_handler h d)) →
  (∀ t, P (Refresh t)) →
  writes I P _update_unpolled_sensors.
Proof.
  intros Ih Prefresh. unfold _update_unpolled_sensors.
  writes_with fail ltac:(first [apply Ih | apply Prefresh]).
Qed.

Lemma writes_get_coordinator sensor_type update_method :
  (∀ msg, P (LogDebug msg)) →
  (∀ t, P (Refresh t)) →
  writes I P (get_coordinator sensor_type update_method).
Proof.
  intros Pdebug Prefresh. unfold get_coordinator.
  writes_with fail ltac:(first [apply Pdebug | apply Prefresh]).
Qed.

Lemma writes_process_available items :
  (∀ c d, I d → I (set_sensor_coordinator c d)) →
  (∀ msg, P (LogDebug msg)) →
  (∀ t, P (Refresh t)) →
  writes I P (process_available items).
Proof.
  intros Ic Pdebug Prefresh.
  induction items as [|[sensor_type sensor_definition] items IH]; simpl;
    writes_with ltac:(first [ apply IH
                            | by apply writes_get_coordinator ])
                ltac:(intros; by apply Ic).
Qed.

Lemma writes_init_sensor_coordinators discovery :
  (∀ h d, I d → I (set_sensor_handler h d)) →
  (∀ c d, I d → I (set_sensor_coordinator c d)) →
  (∀ msg, P (LogDebug msg)) →
  (∀ t, P (Refresh t)) →
  writes I P (_init_sensor_coordinators discovery).
Proof.
  intros Ih Ic Pdebug Prefresh. unfold _init_sensor_coordinators.
  writes_with ltac:(by apply writes_process_available) ltac:(apply Ih).
Qed.

(** With an invariant of the options alone and every effect but the events
    allowed, the invariant is kept and the events fired are enabled ones. *)
Hypothesis I_options : ∀ d d', _options d' = _options d → I d → I d'.
Hypothesis P_log : ∀ e, is_log e → P e.
Hypothesis P_signal : ∀ s, P (DispatcherSend s).
Hypothesis P_refresh : ∀ t, P (Refresh t).
Hypothesis P_fire : ∀ d event args,
  I d → opt_event (_options d) event = true → P (BusFire event args).

Local Ltac options_side :=
  intros;
  first [ by apply P_log | apply P_signal | apply P_refresh
        | by eapply P_fire
        | eapply I_options; [|eassumption]; done ].

Lemma writes_update_devices_events fetched : writes I P (update_devices fetched).
Proof.
  apply writes_update_devices; try options_side.
  apply writes_update_unpolled_sensors; options_side.
Qed.

Lemma writes_update_nodes_events fetched : writes I P (update_nodes fetched).
Proof.
  apply writes_update_nodes; options_side.
Qed.

Lemma writes_update_all_events clients nodes :
  writes I P (update_all clients nodes).
Proof.
  unfold update_all.
  writes_with ltac:(first [ apply writes_update_devices_events
                          | apply writes_update_nodes_events ]) options_side.
Qed.

Lemma writes_remove_trackers_events raw fetched :
  writes I P (remove_trackers raw fetched).
Proof.
  unfold remove_trackers.
  writes_with ltac:(first [ apply writes_update_devices_events
                          | apply writes_remove_entities ]) options_side.
  all: options_side.
Qed.

Lemma writes_setup_events nodes clients discovery :
  writes I P (setup nodes clients discovery).
Proof.
  unfold setup.
  writes_with ltac:(first [ apply writes_update_devices_events
                          | apply writes_update_nodes_events
                          | apply writes_init_sensor_coordinators ])
              options_side.
  all: options_side.
Qed.
End writes_passes.

Section event_theorems.
Context `{Consts} `{Entities} `{Handler.Names}.

(** X3. An event whose option is not [True] is never fired: whatever the
    snapshots hold and whatever the callbacks of the clients and nodes ask
    for, and however the computation ends, a client pass, a node pass, a
    polling cycle, a removal of trackers and the setup add no bus event of
    that name to the trace, and leave the option as it is. *)
Theorem disabled_event_never_fired (ev : string) (w : World)
    (clients : fetch ClientInfo) (nodes : fetch NodeInfo)
    (raw : option (option (list RegValue))) (discovery : Discovery)
    (m : M unit) :
  opt_event (_options (dev w)) ev = false →
  m ∈ [update_devices clients; update_nodes nodes; update_all clients nodes;
       remove_trackers raw clients; setup nodes clients discovery] →
  trace w `prefix_of` trace (after m w) ∧
  (∀ args, BusFire ev args ∉ added w (after m w)) ∧
  opt_event (_options (dev (after m w))) ev = false.
Proof.
  intros Hev Hm.
  set (I := λ d : ARDevice, opt_event (_options d) ev = false).
  set (P := λ e : Effect, ∀ args, e ≠ BusFire ev args).
  assert (writes I P m) as Hwrites.
  { assert (∀ d d', _options d' = _options d → I d → I d') as I_options
      by (unfold I; intros d d' ->; done).
    assert (∀ e, is_log e → P e) as P_log by (by intros [] ? ?).
    assert (∀ d event args,
              I d → opt_event (_options d) event = true → P (BusFire event args))
      as P_fire by (unfold I, P; intros d event args Hd He args' [= -> _];
                    congruence).
    repeat (apply elem_of_cons in Hm as [->|Hm]);
      [ apply writes_update_devices_events
      | apply writes_update_nodes_events
      | apply writes_update_all_events
      | apply writes_remove_trackers_events
      | apply writes_setup_events
      | by apply elem_of_nil in Hm ]; done. }
  destruct (Hwrites w Hev) as (Hev' & t & Ht & Hall).
  split; [rewrite Ht; by apply prefix_app_r|]. split; [|done].
  intros args Hin. rewrite (added_app _ _ _ Ht) in Hin.
  rewrite Forall_forall in Hall. by apply (Hall _ Hin args).
Qed.

(** X4. The passes keep to their own signals, however they end: the only
    signals a client pass sends are the device-update and the device-new
    signal, the only ones a node pass sends are the AiMesh-update and the
    AiMesh-new signal, and a node pass asks for no refresh of a
    coordinator. *)
Theorem passes_keep_to_their_signals (clients : fetch ClientInfo)
    (nodes : fetch NodeInfo) (w : World) :
  let wd := after (update_devices clients) w in
  let wn := after (update_nodes nodes) w in
  (trace w `prefix_of` trace wd ∧
   ∀ s, DispatcherSend s ∈ added w wd →
        s = signal_device_update ∨ s = signal_device_new) ∧
  (trace w `prefix_of` trace wn ∧
   (∀ s, DispatcherSend s ∈ added w wn →
         s = signal_aimesh_update ∨ s = signal_aimesh_new) ∧
   ∀ t, Refresh t ∉ added w wn).
Proof.
  intros wd wn.
  set (Pd := λ e : Effect, ∀ s, e = DispatcherSend s →
                 s = signal_device_update ∨ s = signal_device_new).
  set (Pn := λ e : Effect, ¬ is_refresh e ∧ ∀ s, e = DispatcherSend s →
                 s = signal_aimesh_update ∨ s = signal_aimesh_new).
  assert (writes (λ _, True) Pd (update_devices clients)) as Hd.
  { apply writes_update_devices; try done.
    all: try (intros s [= <-]; auto).
    apply writes_update_unpolled_sensors; done. }
  assert (writes (λ _, True) Pn (update_nodes nodes)) as Hn.
  { apply writes_update_nodes; try done.
    all: intros; (split; [by intros []|]); intros s [= <-]; auto. }
  destruct (Hd w Logic.I) as (_ & td & Htd & Halld).
  destruct (Hn w Logic.I) as (_ & tn & Htn & Halln).
  fold wd in Htd. fold wn in Htn.
  rewrite (added_app _ _ _ Htd), (added_app _ _ _ Htn).
  rewrite Forall_forall in Halld, Halln.
  split_and!.
  - rewrite Htd. by apply prefix_app_r.
  - intros s Hin. by apply (Halld _ Hin).
  - rewrite Htn. by apply prefix_app_r.
  - intros s Hin. by apply (Halln _ Hin).
  - intros t Hin. by apply (Halln _ Hin).
Qed.
End event_theorems.

(** ** Running a computation statement by statement *)

Section run_facts.
Context `{Entities}.

Lemma run_bind_get_dev {B} (k : ARDevice → M B) w :
  bind get_dev k w = k (dev w) w.
Proof. done. Qed.

Lemma run_bind_emit {B} e (k : unit → M B) w :
  bind (emit e) k w = k tt (after (emit e) w).
Proof. done. Qed.

Lemma run_bind_modify_dev {B} f (k : unit → M B) w :
  bind (modify_dev f) k w = k tt (with_dev (f (dev w)) w).
Proof. done. Qed.

Lemma run_bind_ret {A B} (a : A) (k : A → M B) w : bind (ret a) k w = k a w.
Proof. done. Qed.

Lemma run_bind_assoc {A B C} (m : M A) (f : A → M B) (g : B → M C) w :
  bind (bind m f) g w = bind m (λ a, bind (f a) g) w.
Proof. unfold bind. by destruct (m w) as [[a|e] w1]. Qed.

(** A sequence that returns: its first part has returned. *)
Lemma run_bind_inv {A B} (m : M A) (k : A → M B) w b w' :
  bind m k w = (Ret b, w') →
  ∃ a w1, m w = (Ret a, w1) ∧ k a w1 = (Ret b, w').
Proof.
  unfold bind. destruct (m w) as [[a|e] w1]; [eauto|by intros [=]].
Qed.

Lemma run_bind_raise {A B} (m : M A) (k : A → M B) w e w' :
  m w = (Raise e, w') → bind m k w = (Raise e, w').
Proof. unfold bind. by intros ->. Qed.

Lemma after_run {A} (m : M A) w r w' : m w = (r, w') → after m w = w'.
Proof. unfold after. by intros ->. Qed.

Lemma result_run {A} (m : M A) w r w' : m w = (r, w') → result m w = r.
Proof. unfold result. by intros ->. Qed.

Lemma steps_run {A} (R : relation World) (m : M A) w r w' :
  steps R m → m w = (r, w') → R w w'.
Proof. intros Hm Hrun. rewrite <- (after_run _ _ _ _ Hrun). apply Hm. Qed.

Lemma writes_run {A} (I : ARDevice → Prop) P (m : M A) w r w' :
  writes I P m → I (dev w) → m w = (r, w') →
  I (dev w') ∧ ∃ t, trace w' = trace w ++ t ∧ Forall P t.
Proof. intros Hm HI Hrun. rewrite <- (after_run _ _ _ _ Hrun). by apply Hm. Qed.

Lemma added_trans (w w1 w2 : World) t1 t2 :
  trace w1 = trace w ++ t1 → trace w2 = trace w1 ++ t2 →
  trace w2 = trace w ++ (t1 ++ t2).
Proof. intros -> ->. by rewrite app_assoc. Qed.
End run_facts.

(** One statement of the computation run in the goal. *)
Ltac run_step :=
  first [ rewrite run_bind_get_dev
        | rewrite run_bind_emit
        | rewrite run_bind_modify_dev
        | rewrite run_bind_ret
        | rewrite run_bind_assoc ].

(** ** Failure and recovery of the client pass *)

Section recovery.
Context `{Consts} `{Entities}.

(** X5. A client pass that has fetched its snapshot leaves the connect error
    flag cleared, however it ends; it logs the reconnection exactly when it
    finds the flag set, and it logs no error. *)
Theorem update_devices_recovers (snapshot : list (string * ClientInfo))
    (w : World) :
  let w' := after (update_devices (Fetched snapshot)) w in
  _connect_error (dev w') = false ∧
  trace w `prefix_of` trace w' ∧
  (LogInfo "Reconnected to '%s'" ∈ added w w' ↔ _connect_error (dev w) = true) ∧
  ∀ msg, LogError msg ∉ added w w'.
Proof.
  intros w'.
  set (P := λ e : Effect, ¬ is_error e ∧ ∀ msg, e ≠ LogInfo msg).
  assert (∀ d d' : ARDevice,
            _options d' = _options d → _sensor_handler d' = _sensor_handler d →
            _sensor_coordinator d' = _sensor_coordinator d →
            True → True) as I_frame by done.
  assert (∀ msg, P (LogDebug msg)) as P_debug by (by intros msg; split; [intros []|]).
  assert (∀ (d : ARDevice) event args,
            True → opt_event (_options d) event = true → P (BusFire event args))
    as P_fire by (by intros; split; [intros []|]).
  assert (∀ g : list (string * ClientInfo) → M unit,
            (∀ clients, steps (keeps _connect_error) (g clients)) →
            (∀ clients, writes (λ _, True) P (g clients)) →
            ∀ w1 clients,
              _connect_error (dev w1) = false →
              _connect_error (dev (after (g clients) w1)) = false ∧
              ∃ t, trace (after (g clients) w1) = trace w1 ++ t ∧ Forall P t)
    as Htail.
  { intros g Hkeeps Hwrites w1 clients Hflag. split.
    - rewrite <- Hflag. apply (Hkeeps clients w1).
    - by apply (Hwrites clients w1). }
  unfold w', after, update_devices.
  rewrite run_bind_get_dev.
  destruct (negb (opt_track_devices (_options (dev w)))) eqn:Htrack.
  all: rewrite run_bind_emit, run_bind_emit, run_bind_get_dev.
  all: simpl dev.
  all: destruct (_connect_error (dev w)) eqn:Hflag.
  all: repeat run_step.
  all: match goal with
       | |- context [bind (update_known_clients ?ch ?cl) ?k ?ww] =>
           set (g := λ clients, bind (update_known_clients ch clients) k);
           change ((bind (update_known_clients ch cl) k ww).2)
             with (after (g cl) ww);
           let Hn := fresh in
           pose proof (λ Hk Hw, Htail g Hk Hw ww cl) as Hn;
           destruct Hn as (Hdone & t & Ht & Hall);
           [unfold g; intros clients|unfold g; intros clients| |
            set (wf := after (g cl) ww) in *; clearbody wf]
       end.
  all: try (match goal with |- steps _ _ => idtac end;
            steps_with ltac:(first
              [ apply steps_update_known_clients_any; frame_tac
              | apply steps_add_new_clients_any; frame_tac
              | apply steps_fire_events; frame_tac
              | apply steps_clients_sensor; frame_tac
              | apply steps_update_unpolled_sensors; frame_tac ])).
  all: try (match goal with |- writes _ _ _ => idtac end;
            writes_with ltac:(first
              [ by apply writes_update_known_clients
              | by apply writes_add_new_clients
              | by apply writes_fire_events
              | by apply writes_clients_sensor
              | apply writes_update_unpolled_sensors;
                  [done | by intros; split; [intros []|]] ])
              ltac:(first [done | by split; [intros []|]])).
  all: try done.
  all: simpl in Ht.
  all: rewrite <- ?app_assoc in Ht; simpl in Ht.
  all: split; [exact Hdone|].
  all: split; [rewrite Ht; by apply prefix_app_r|].
  all: rewrite (added_app _ _ _ Ht).
  all: rewrite Forall_forall in Hall.
  all: split; [|intros msg Hin;
                repeat (apply elem_of_cons in Hin as [[=]|Hin]);
                by apply (Hall _ Hin)].
  all: split; [|intros; repeat constructor].
  all: try done.
  all: intros Hin; repeat (apply elem_of_cons in Hin as [[=]|Hin]).
  all: by destruct (Hall _ Hin) as [_ Hno]; destruct (Hno "Reconnected to '%s'").
Qed.
End recovery.

(** ** A streak of failed cycles *)

Section failure_streak.
Context `{Consts} `{Entities}.

(** One polling cycle whose two fetches fail: the flag is set, and the error
    is logged when the flag was not set before. *)
Lemma failed_cycle ex ex' w :
  tracking_mode (opt_mode (_options (dev w))) = true →
  ∃ logs,
    update_all (UpdateFailed ex) (UpdateFailed ex') w
    = (Ret tt, {| dev := set_connect_error true (dev w);
                  trace := trace w ++ logs;
                  clock := clock w; tick := tick w |}) ∧
    filter is_error logs
    = if _connect_error (dev w) then []
      else [LogError "Error connecting to '%s' for device update: %s"].
Proof.
  intros Hmode. destruct w as [[? ? ? ? ? ? ? ? ? ? ? err] tr ck tk].
  unfold update_all, update_devices, update_nodes.
  unfold bind, get_dev, emit, modify_dev, ret. simpl in *. rewrite Hmode.
  destruct (opt_track_devices _), err; simpl.
  all: rewrite <- ?app_assoc; simpl; eexists; split; [reflexivity|done].
Qed.

(** X6. A streak of polling cycles in which both fetches fail logs the error
    once, in its first cycle: the client pass and the node pass share the
    flag. Every cycle returns, and the maps, the history, the aggregate
    values and the published values stay what they were. *)
Theorem failure_streak_logged_once (n : nat) (ex ex' : string) (w : World) :
  tracking_mode (opt_mode (_options (dev w))) = true →
  _connect_error (dev w) = false →
  let streak := cycles (S n) (UpdateFailed ex) (UpdateFailed ex') in
  result streak w = Ret tt ∧
  trace w `prefix_of` trace (after streak w) ∧
  filter is_error (added w (after streak w))
  = [LogError "Error connecting to '%s' for device update: %s"] ∧
  dev (after streak w) = set_connect_error true (dev w).
Proof.
  intros Hmode Hflag streak.
  assert (∀ k w1,
            tracking_mode (opt_mode (_options (dev w1))) = true →
            _connect_error (dev w1) = true →
            ∃ logs,
              cycles k (UpdateFailed ex) (UpdateFailed ex') w1
              = (Ret tt, {| dev := dev w1; trace := trace w1 ++ logs;
                            clock := clock w1; tick := tick w1 |}) ∧
              filter is_error logs = []) as Hflagged.
  { induction k as [|k IH]; intros w1 Hmode1 Hflag1.
    - exists []. simpl. unfold ret. by rewrite app_nil_r, world_eta.
    - destruct (failed_cycle ex ex' w1 Hmode1) as (logs & Hrun & Herr).
      rewrite Hflag1 in Herr. simpl. unfold bind. rewrite Hrun.
      match goal with |- context [cycles k _ _ ?w2] =>
        destruct (IH w2) as (logs' & Hrun' & Herr'); [done|done|] end.
      exists (logs ++ logs'). rewrite Hrun'. simpl. split.
      + do 2 f_equal; [|by rewrite app_assoc].
        destruct w1 as [[] ? ? ?]; simpl in *. by subst.
      + by rewrite filter_app, Herr, Herr'. }
  destruct (failed_cycle ex ex' w Hmode) as (logs & Hrun & Herr).
  rewrite Hflag in Herr.
  assert (∃ logs',
            streak w = (Ret tt, {| dev := set_connect_error true (dev w);
                                   trace := trace w ++ logs ++ logs';
                                   clock := clock w; tick := tick w |}) ∧
            filter is_error logs' = []) as (logs' & Hstreak & Herr').
  { unfold streak. simpl. unfold bind. rewrite Hrun.
    match goal with |- context [cycles n _ _ ?w2] =>
      destruct (Hflagged n w2) as (logs' & Hrun' & Herr'); [done|done|] end.
    exists logs'. rewrite Hrun'. simpl. by rewrite app_assoc. }
  unfold result, after. rewrite Hstreak. simpl. split_and!; try done.
  - by apply prefix_app_r.
  - unfold added. simpl. rewrite drop_app_length.
    by rewrite filter_app, Herr, Herr'.
Qed.
End failure_streak.

(** ** More on publication *)

Section publication_extras.
Context `{Consts} `{Entities} `{Handler.Names}.

Lemma set_sensor_handler_same (d : ARDevice) h :
  _sensor_handler d = Some h → set_sensor_handler (Some h) d = d.
Proof. destruct d. simpl. by intros ->. Qed.

(** What [_update_unpolled_sensors] does once the handler exists, whatever
    coordinators there are. *)
Lemma update_unpolled_sensors_run (w : World) (h : ARSensorHandler) :
  _sensor_handler (dev w) = Some h →
  let d := dev w in
  let a := if bool_decide (AIMESH ∈ _sensor_coordinator d)
           then update_aimesh h (_aimesh_number d) (_aimesh_list d)
           else (false, h) in
  let c := if bool_decide (DEVICES ∈ _sensor_coordinator d)
           then update_clients (_latest_connected_list d) a.2 (_clients_number d)
                  (_clients_list d) (_latest_connected d)
           else (false, a.2) in
  _update_unpolled_sensors w
  = (Ret tt,
     {| dev := set_sensor_handler (Some c.2) d;
        trace := trace w ++ (if a.1 then [Refresh AIMESH] else [])
                         ++ (if c.1 then [Refresh DEVICES] else []);
        clock := clock w;
        tick := tick w |}).
Proof.
  intros Hh. simpl. unfold _update_unpolled_sensors.
  unfold bind, get_dev, modify_dev, emit, ret. simpl. rewrite Hh.
  destruct (bool_decide (AIMESH ∈ _)); simpl; rewrite ?Hh;
    [destruct (update_aimesh _ _ _) as [[] h1]; simpl|];
    (destruct (bool_decide (DEVICES ∈ _)); simpl; rewrite ?Hh;
     [destruct (update_clients _ _ _ _ _) as [[] h2]; simpl|]);
    rewrite ?app_nil_r, <- ?app_assoc, ?set_sensor_handler_same by done;
    destruct w as [[] ? ? ?]; simpl in *; try done.
Qed.

Lemma update_aimesh_published (d : ARDevice) (h : ARSensorHandler) :
  published_aimesh h = recomputed_aimesh d →
  update_aimesh h (_aimesh_number d) (_aimesh_list d) = (false, h).
Proof. intros Heq. rewrite update_aimesh_spec. by rewrite decide_True. Qed.

Lemma update_clients_published (d : ARDevice) (h : ARSensorHandler) :
  published_clients d h = recomputed_clients d →
  update_clients (_latest_connected_list d) h (_clients_number d)
    (_clients_list d) (_latest_connected d) = (false, h).
Proof. intros Heq. rewrite update_clients_spec. by rewrite decide_True. Qed.

Lemma update_aimesh_publishes (d : ARDevice) (h : ARSensorHandler) :
  let h' := (update_aimesh h (_aimesh_number d) (_aimesh_list d)).2 in
  published_aimesh h' = recomputed_aimesh d ∧
  stored_clients h' = stored_clients h.
Proof. simpl. rewrite update_aimesh_spec. by case_decide. Qed.

Lemma update_clients_publishes (d : ARDevice) (h : ARSensorHandler) :
  let h' := (update_clients (_latest_connected_list d) h (_clients_number d)
               (_clients_list d) (_latest_connected d)).2 in
  published_clients d h' = recomputed_clients d ∧
  published_aimesh h' = published_aimesh h.
Proof. simpl. rewrite update_clients_spec. by case_decide. Qed.

Lemma published_clients_stored (d : ARDevice) (h h' : ARSensorHandler) :
  stored_clients h' = stored_clients h →
  published_clients d h' = published_clients d h.
Proof. unfold stored_clients, published_clients. by intros [= -> -> -> ->]. Qed.

Lemma sensors_current_published (d : ARDevice) (h : ARSensorHandler) :
  published_clients d h = recomputed_clients d →
  published_aimesh h = recomputed_aimesh d →
  sensors_current d h.
Proof.
  unfold published_clients, recomputed_clients, published_aimesh,
    recomputed_aimesh, sensors_current, _get_clients, _get_aimesh.
  intros [= -> -> -> ->] [= -> ->]. split; [done|].
  by intros mode ->.
Qed.

(** X7. Asking twice is asking once: right after [_update_unpolled_sensors]
    a second call returns with the world as it is, nothing stored and no
    refresh requested. *)
Theorem update_unpolled_sensors_idempotent (w : World) :
  let w1 := after _update_unpolled_sensors w in
  result _update_unpolled_sensors w = Ret tt ∧
  _update_unpolled_sensors w1 = (Ret tt, w1).
Proof.
  intros w1. destruct (_sensor_handler (dev w)) as [h|] eqn:Hh.
  2:{ assert (_update_unpolled_sensors w = (Ret tt, w)) as Hrun.
      { unfold _update_unpolled_sensors, bind, get_dev. simpl. by rewrite Hh. }
      unfold w1, result, after. by rewrite !Hrun. }
  pose proof (update_unpolled_sensors_run w h Hh) as Hrun. simpl in Hrun.
  set (d := dev w) in *.
  set (a := if bool_decide (AIMESH ∈ _) then _ else _) in Hrun.
  set (c := if bool_decide (DEVICES ∈ _) then _ else _) in Hrun.
  split; [unfold result; by rewrite Hrun|].
  assert (w1 = {| dev := set_sensor_handler (Some c.2) d;
                  trace := trace w ++ (if a.1 then [Refresh AIMESH] else [])
                                   ++ (if c.1 then [Refresh DEVICES] else []);
                  clock := clock w; tick := tick w |}) as Hw1
    by (unfold w1, after; by rewrite Hrun).
  assert (_sensor_handler (dev w1) = Some c.2) as Hh1 by (by rewrite Hw1).
  rewrite (update_unpolled_sensors_run w1 _ Hh1). simpl.
  assert (dev w1 = set_sensor_handler (Some c.2) d) as Hd1 by (by rewrite Hw1).
  set (d1 := dev w1) in *.
  assert (AIMESH ∈ _sensor_coordinator d →
          published_aimesh c.2 = recomputed_aimesh d1) as Haimesh.
  { intros Hin. unfold c, a. rewrite (bool_decide_eq_true_2 _ Hin).
    destruct (update_aimesh_publishes d h) as [Hpa _].
    rewrite Hd1. case_bool_decide.
    - destruct (update_clients_publishes d
                  (update_aimesh h (_aimesh_number d) (_aimesh_list d)).2)
        as [_ ->]. exact Hpa.
    - exact Hpa. }
  assert (DEVICES ∈ _sensor_coordinator d →
          published_clients d1 c.2 = recomputed_clients d1) as Hclients.
  { intros Hin. unfold c. rewrite (bool_decide_eq_true_2 _ Hin).
    rewrite Hd1. apply (update_clients_publishes d a.2). }
  assert (_sensor_coordinator d1 = _sensor_coordinator d) as Hcoord
    by (by rewrite Hd1).
  rewrite Hcoord.
  assert ((if bool_decide (AIMESH ∈ _sensor_coordinator d)
           then update_aimesh c.2 (_aimesh_number d1) (_aimesh_list d1)
           else (false, c.2)) = (false, c.2)) as ->.
  { case_bool_decide; [|done]. by apply update_aimesh_published, Haimesh. }
  simpl.
  assert ((if bool_decide (DEVICES ∈ _sensor_coordinator d)
           then update_clients (_latest_connected_list d1) c.2
                  (_clients_number d1) (_clients_list d1) (_latest_connected d1)
           else (false, c.2)) = (false, c.2)) as ->.
  { case_bool_decide; [|done]. by apply update_clients_published, Hclients. }
  simpl. rewrite !app_nil_r, set_sensor_handler_same by done.
  f_equal. unfold d1. by destruct w1.
Qed.

Lemma sensors_current_ext (d d' : ARDevice) (h : ARSensorHandler) :
  recomputed_clients d' = recomputed_clients d →
  recomputed_aimesh d' = recomputed_aimesh d →
  sensors_current d h → sensors_current d' h.
Proof.
  unfold recomputed_clients, recomputed_aimesh, sensors_current.
  by intros [= -> -> -> ->] [= -> ->].
Qed.

Lemma run_bind {A B} (m : M A) (k : A → M B) (w : World) :
  bind m k w = match m w with
               | (Ret a, w1) => k a w1
               | (Raise e, w1) => (Raise e, w1)
               end.
Proof. done. Qed.

(** A call of [get_coordinator]. *)
Lemma get_coordinator_run sensor_type update_method (w : World) :
  get_coordinator sensor_type update_method w
  = match Handler.get_coordinator (opt_items (_options (dev w)))
            (type_name sensor_type) update_method with
    | inl e => (Raise e, w)
    | inr coordinator =>
        (Ret coordinator,
         {| dev := dev w; trace := trace w ++ coordinator_made sensor_type;
            clock := clock w; tick := tick w |})
    end.
Proof.
  unfold get_coordinator, bind, get_dev, emit, raise, ret. simpl.
  destruct (Handler.get_coordinator _ _ _); simpl; [done|].
  by rewrite <- app_assoc.
Qed.

Lemma with_coordinators_nil (w : World) : with_coordinators [] w = w.
Proof.
  unfold with_coordinators. simpl. rewrite app_nil_r.
  by destruct w as [[] ? ? ?].
Qed.

Lemma with_coordinators_cons sensor_type types (w : World) :
  with_coordinators (sensor_type :: types) w
  = with_coordinators types
      {| dev := set_sensor_coordinator
                  (key_set sensor_type (_sensor_coordinator (dev w))) (dev w);
         trace := trace w ++ coordinator_made sensor_type;
         clock := clock w; tick := tick w |}.
Proof.
  unfold with_coordinators. simpl. by rewrite <- app_assoc.
Qed.

(** For every item a coordinator is made, or there is a first one for
    which none can be. *)
Lemma makes_or_fails (d : ARDevice) (items : list (SensorType * SensorDefinition)) :
  Forall (makes_coordinator d) items ∨
  ∃ before item rest e,
    items = before ++ item :: rest ∧
    Forall (makes_coordinator d) before ∧ fails_with d item e.
Proof.
  induction items as [|item items IH]; [by left|].
  destruct (Handler.get_coordinator (opt_items (_options d)) (type_name item.1)
              (def_method item.2)) as [e|c] eqn:Hmade.
  - right. by exists [], item, items, e.
  - assert (makes_coordinator d item) as Hitem by (by exists c).
    destruct IH as [Hall|(before & item' & rest & e & -> & Hbefore & Hfail)].
    + left. by constructor.
    + right. exists (item :: before), item', rest, e. split; [done|].
      split; [by constructor|done].
Qed.

(** The loop over the available sensors when every coordinator is made. *)
Lemma process_available_made items (w : World) :
  Forall (makes_coordinator (dev w)) (with_sensors items) →
  process_available items w
  = (Ret tt, with_coordinators (with_sensors items).*1 w).
Proof.
  revert w. induction items as [|[sensor_type sensor_definition] items IH];
    intros w Hall.
  { by rewrite with_coordinators_nil. }
  cbn [process_available]. unfold with_sensors in *.
  destruct (def_sensors sensor_definition) eqn:Hnames; cbn [negb].
  - rewrite filter_cons_True in Hall |- * by done.
    apply Forall_cons in Hall as [[c Hc] Hall]. simpl in Hc.
    rewrite run_bind, get_coordinator_run, Hc, run_bind.
    unfold modify_dev at 1. cbv beta iota.
    rewrite IH by exact Hall.
    by rewrite fmap_cons, with_coordinators_cons.
  - rewrite filter_cons_False in Hall |- * by (simpl; congruence).
    by apply IH.
Qed.

(** The loop when a coordinator cannot be made: the ones before it are
    made and saved. *)
Lemma process_available_failed items before item rest e (w : World) :
  with_sensors items = before ++ item :: rest →
  Forall (makes_coordinator (dev w)) before →
  fails_with (dev w) item e →
  process_available items w = (Raise e, with_coordinators before.*1 w).
Proof.
  revert before w.
  induction items as [|[sensor_type sensor_definition] items IH];
    intros before w Hsplit Hbefore Hfail.
  { by destruct before. }
  cbn [process_available]. unfold with_sensors in *.
  destruct (def_sensors sensor_definition) eqn:Hnames; cbn [negb].
  - rewrite filter_cons_True in Hsplit by done.
    destruct before as [|first before]; simplify_eq/=.
    + unfold fails_with in Hfail. simpl in Hfail.
      rewrite run_bind, get_coordinator_run, Hfail.
      by rewrite with_coordinators_nil.
    + apply Forall_cons in Hbefore as [[c Hc] Hbefore]. simpl in Hc.
      rewrite run_bind, get_coordinator_run, Hc, run_bind.
      unfold modify_dev at 1. cbv beta iota.
      erewrite IH; [|done|exact Hbefore|exact Hfail].
      by rewrite with_coordinators_cons.
  - rewrite filter_cons_False in Hsplit by (simpl; congruence).
    by apply IH.
Qed.

(** The items a coordinator is asked for: those of the bridge that hold
    sensor names, then the two of the device in the modes that have them. *)
Lemma with_sensors_available mode sensors :
  (with_sensors (available_sensors mode sensors)).*1
  = bridge_types sensors ++ (if tracking_mode mode then [DEVICES; AIMESH] else []).
Proof.
  assert ((with_sensors (prod_map Sensor id <$> sensors)).*1
          = bridge_types sensors) as Hbridge.
  { unfold with_sensors, bridge_types.
    induction sensors as [|[name definition] sensors IH]; [done|].
    rewrite fmap_cons. simpl prod_map.
    destruct (def_sensors definition) eqn:Hnames.
    - rewrite !filter_cons_True by done. rewrite !fmap_cons, IH. done.
    - rewrite !filter_cons_False by (simpl; congruence). done. }
  unfold available_sensors. destruct (tracking_mode mode).
  - unfold with_sensors in *. rewrite filter_app, fmap_app, Hbridge. done.
  - by rewrite Hbridge, app_nil_r.
Qed.

(** The first [_init_sensor_coordinators] up to the loop: the handler is
    created with what the device holds before the bridge is asked. *)
Lemma init_sensor_coordinators_start discovery (w : World) :
  _sensor_handler (dev w) = None →
  let d := dev w in
  let h1 := (update_clients (_latest_connected_list d) ARSensorHandler_init
               (_clients_number d) (_clients_list d) (_latest_connected d)).2 in
  let h2 := (update_aimesh h1 (_aimesh_number d) (_aimesh_list d)).2 in
  let w2 := with_dev (set_sensor_handler (Some h2) d) w in
  sensors_current d h2 ∧
  _init_sensor_coordinators discovery w
  = match discovery with
    | Unavailable e => (Raise e, w2)
    | Available sensors =>
        process_available (available_sensors (opt_mode (_options d)) sensors) w2
    end.
Proof.
  intros Hh d h1 h2 w2. split.
  - destruct (update_clients_publishes d ARSensorHandler_init) as [Hc _].
    destruct (update_aimesh_publishes d h1) as [Ha Hs].
    apply sensors_current_published; [|exact Ha].
    fold h1 in Hc. fold h2 in Hs. by rewrite (published_clients_stored d _ _ Hs).
  - unfold _init_sensor_coordinators.
    unfold bind at 1. unfold get_dev at 1. cbv beta iota. rewrite Hh.
    by destruct discovery.
Qed.

(** An [_init_sensor_coordinators] that returns with a handler created: the
    bridge has come back with its sensors and every coordinator was made. *)
Lemma init_sensor_coordinators_returned discovery (w w' : World) :
  _sensor_handler (dev w) = None →
  _init_sensor_coordinators discovery w = (Ret tt, w') →
  let d := dev w in
  ∃ sensors h,
    discovery = Available sensors ∧
    let wanted :=
      with_sensors (available_sensors (opt_mode (_options d)) sensors) in
    sensors_current d h ∧
    Forall (makes_coordinator d) wanted ∧
    w' = with_coordinators wanted.*1 (with_dev (set_sensor_handler (Some h) d) w).
Proof.
  intros Hh Hrun d.
  destruct (init_sensor_coordinators_start discovery w Hh) as [Hcurrent Hstart].
  simpl in Hcurrent, Hstart. rewrite Hstart in Hrun. clear Hstart.
  destruct discovery as [sensors|e]; [|done].
  eexists sensors, _. split; [done|]. split; [exact Hcurrent|].
  set (wanted := with_sensors _).
  destruct (makes_or_fails d wanted)
    as [Hall|(before & item & rest & e & Hsplit & Hbefore & Hfail)].
  - split; [done|].
    rewrite process_available_made in Hrun by exact Hall.
    by injection Hrun as <-.
  - erewrite process_available_failed in Hrun;
      [|exact Hsplit|exact Hbefore|exact Hfail].
    done.
Qed.

(** X8. The first [_init_sensor_coordinators] creates the sensor handler
    with the values the device holds before it asks the bridge for its
    sensors, so that the sensors read what the device has however the call
    ends, and it leaves the options, the maps, the flag and the aggregate
    values as they are. When the bridge raises, the call raises the same
    and no coordinator is made. Otherwise a coordinator is asked for every
    sensor type of the bridge that holds sensor names, in the order of the
    bridge, and then, in router, access-point and media-bridge mode, for the
    devices and for the AiMesh sensors: when all of them can be made the
    call returns, every coordinator having been logged, refreshed once and
    saved in that order; when one cannot (no method, an interval that is no
    number, no default), the call raises what [get_coordinator] raises, the
    coordinators before it having been logged, refreshed and saved and none
    after it. A second call does nothing. *)
Theorem init_sensor_coordinators_publishes (discovery : Discovery) (w : World) :
  _sensor_handler (dev w) = None →
  let run := _init_sensor_coordinators discovery in
  let w' := after run w in
  let d := dev w in
  (∃ h, _sensor_handler (dev w') = Some h ∧ sensors_current (dev w') h) ∧
  (_options (dev w'), _clients (dev w'), _aimesh (dev w'), _connect_error (dev w'),
   recomputed_clients (dev w'), recomputed_aimesh (dev w'))
  = (_options d, _clients d, _aimesh d, _connect_error d,
     recomputed_clients d, recomputed_aimesh d) ∧
  match discovery with
  | Unavailable e =>
      result run w = Raise e ∧
      (_sensor_coordinator (dev w'), trace w') = (_sensor_coordinator d, trace w)
  | Available sensors =>
      let wanted :=
        with_sensors (available_sensors (opt_mode (_options d)) sensors) in
      wanted.*1
      = bridge_types sensors
        ++ (if tracking_mode (opt_mode (_options d))
            then [DEVICES; AIMESH] else []) ∧
      (Forall (makes_coordinator d) wanted →
       result run w = Ret tt ∧
       (_sensor_coordinator (dev w'), trace w')
       = (key_sets wanted.*1 (_sensor_coordinator d),
          trace w ++ (wanted.*1 ≫= coordinator_made))) ∧
      (∀ before item rest e,
         wanted = before ++ item :: rest →
         Forall (makes_coordinator d) before →
         fails_with d item e →
         result run w = Raise e ∧
         (_sensor_coordinator (dev w'), trace w')
         = (key_sets before.*1 (_sensor_coordinator d),
            trace w ++ (before.*1 ≫= coordinator_made)))
  end ∧
  ∀ discovery', _init_sensor_coordinators discovery' w' = (Ret tt, w').
Proof.
  intros Hh run w' d.
  destruct (init_sensor_coordinators_start discovery w Hh) as [Hcurrent Hstart].
  simpl in Hcurrent, Hstart. fold d in Hcurrent, Hstart.
  set (h := (update_aimesh _ _ _).2) in Hcurrent, Hstart.
  set (w2 := with_dev (set_sensor_handler (Some h) d) w) in Hstart.
  assert (∃ types, w' = with_coordinators types w2) as [types Hw'].
  { unfold w', run, after. rewrite Hstart.
    destruct discovery as [sensors|e]; [|by exists []; rewrite with_coordinators_nil].
    destruct (makes_or_fails d
                (with_sensors (available_sensors (opt_mode (_options d)) sensors)))
      as [Hall|(before & item & rest & e & Hsplit & Hbefore & Hfail)].
    - eexists. by rewrite process_available_made.
    - eexists. by erewrite process_available_failed. }
  assert (_sensor_handler (dev w') = Some h) as Hh' by (by rewrite Hw').
  split_and!.
  - exists h. split; [done|].
    apply (sensors_current_ext d); [by rewrite Hw'|by rewrite Hw'|done].
  - by rewrite Hw'.
  - destruct discovery as [sensors|e].
    + cbv zeta. split; [apply with_sensors_available|]. split.
      * intros Hall. unfold w', run, result, after.
        rewrite Hstart, process_available_made by exact Hall. done.
      * intros before item rest e Hsplit Hbefore Hfail.
        unfold w', run, result, after. rewrite Hstart.
        erewrite process_available_failed;
          [|exact Hsplit|exact Hbefore|exact Hfail].
        done.
    + unfold w', run, result, after. by rewrite Hstart.
  - intros discovery'.
    unfold _init_sensor_coordinators, bind, get_dev. simpl. by rewrite Hh'.
Qed.
End publication_extras.

(** ** Ordered dictionaries *)

Lemma od_set_keys_eq {V} (k : string) (v : V) (d : list (string * V)) :
  (od_set k v d).*1 = if bool_decide (k ∈ d.*1) then d.*1 else d.*1 ++ [k].
Proof.
  induction d as [|[k' v'] d IH]; csimpl; [done|].
  destruct (decide (k' = k)) as [->|Hk]; csimpl.
  - rewrite bool_decide_eq_true_2; [done|apply list_elem_of_here].
  - rewrite IH. case_bool_decide as Hin.
    + rewrite bool_decide_eq_true_2; [done|by apply list_elem_of_further].
    + rewrite bool_decide_eq_false_2; [done|].
      intros [?|?]%elem_of_cons; by subst.
Qed.

Lemma od_set_new_key {V} (k : string) (v : V) (d : list (string * V)) :
  k ∉ d.*1 → (od_set k v d).*1 = d.*1 ++ [k].
Proof. intros Hk. by rewrite od_set_keys_eq, bool_decide_eq_false_2. Qed.

Lemma od_set_NoDup {V} (k : string) (v : V) (d : list (string * V)) :
  NoDup d.*1 → NoDup (od_set k v d).*1.
Proof.
  intros Hnd. rewrite od_set_keys_eq. case_bool_decide; [done|].
  apply NoDup_app. split_and!; [done| |apply NoDup_singleton].
  intros x Hx ->%list_elem_of_singleton. done.
Qed.

Lemma od_set_elem {V} (k : string) (v : V) (d : list (string * V)) kv :
  kv ∈ od_set k v d → kv ∈ d ∨ kv = (k, v).
Proof.
  induction d as [|[k' v'] d IH]; simpl.
  - intros ->%list_elem_of_singleton. by right.
  - case_decide as Hk.
    + subst. intros [->|?]%elem_of_cons; [by right|].
      left. by apply list_elem_of_further.
    + intros [->|Hin]%elem_of_cons; [left; apply list_elem_of_here|].
      destruct (IH Hin) as [?|?]; [|by right].
      left. by apply list_elem_of_further.
Qed.

Lemma od_pop_filter {V} (k : string) (l : list (string * V)) :
  NoDup l.*1 → (od_pop k l).2 = filter (λ kv, kv.1 ≠ k) l.
Proof.
  induction l as [|[k' v'] l IH]; simpl; intros Hnd; [done|].
  apply NoDup_cons in Hnd as [Hk' Hnd]. case_decide as Hk; simpl.
  - subst. rewrite filter_cons_False by (simpl; auto).
    symmetry. apply filter_all. apply Forall_forall.
    intros [k1 v1] Hin Heq. simpl in Heq.
    apply Hk'. apply list_elem_of_fmap. exists (k1, v1). by split.
  - rewrite filter_cons_True by done. specialize (IH Hnd).
    destruct (od_pop k l) as [r l']. simpl in *. by rewrite IH.
Qed.

Lemma filter_keys_NoDup {V} (P : string * V → Prop) `{!∀ x, Decision (P x)}
    (l : list (string * V)) :
  NoDup l.*1 → NoDup (filter P l).*1.
Proof.
  intros Hnd. eapply sublist_NoDup; [exact Hnd|].
  apply fmap_sublist, sublist_filter.
Qed.

Lemma filter_by_key {V} (P : string → Prop) `{!∀ x, Decision (P x)}
    (Q : string * V → Prop) `{!∀ x, Decision (Q x)} (l : list (string * V)) :
  (∀ kv, Q kv ↔ P kv.1) → (filter Q l).*1 = filter P l.*1.
Proof.
  intros HPQ. induction l as [|[k v] l IH]; csimpl; [done|].
  rewrite !filter_cons. destruct (decide (Q (k, v))) as [Hq|Hq].
  - rewrite decide_True by (by apply (HPQ (k, v))). csimpl. by rewrite IH.
  - rewrite decide_False; [done|]. intros Hp. by apply Hq, HPQ.
Qed.

(** The dictionary a comprehension builds: its keys are distinct, they are
    the keys given, renamed, and its values are values given. *)
Lemma dict_comprehension_spec {V} (f : string → string)
    (items : list (string * V)) :
  NoDup (dict_comprehension f items).*1 ∧
  (∀ k, k ∈ (dict_comprehension f items).*1 ↔ ∃ k0, k0 ∈ items.*1 ∧ f k0 = k) ∧
  (∀ k v, (k, v) ∈ dict_comprehension f items →
          ∃ k0, (k0, v) ∈ items ∧ f k0 = k).
Proof.
  unfold dict_comprehension.
  assert (∀ acc : list (string * V),
            NoDup acc.*1 →
            let r := foldl (λ d kv, od_set (f kv.1) kv.2 d) acc items in
            NoDup r.*1 ∧
            (∀ k, k ∈ r.*1 ↔ k ∈ acc.*1 ∨ ∃ k0, k0 ∈ items.*1 ∧ f k0 = k) ∧
            (∀ k v, (k, v) ∈ r →
                    (k, v) ∈ acc ∨ ∃ k0, (k0, v) ∈ items ∧ f k0 = k)) as Hgen.
  { induction items as [|[k0 v0] items IH]; intros acc Hnd; simpl.
    - split_and!; [done| |by left].
      intros k. split; [by left|]. intros [?|(? & Hnil & _)]; [done|].
      by apply elem_of_nil in Hnil.
    - destruct (IH (od_set (f k0) v0 acc)) as (Hnd' & Hkeys & Hvals);
        [by apply od_set_NoDup|]. simpl in *.
      split_and!; [done| |].
      + intros k. rewrite Hkeys, od_set_keys_eq. split.
        * intros [Hin|(k1 & Hk1 & <-)].
          -- case_bool_decide; [by left|].
             apply elem_of_app in Hin as [?|Heq]; [by left|].
             apply list_elem_of_singleton in Heq as ->.
             right. exists k0. split; [apply list_elem_of_here|done].
          -- right. exists k1. split; [by apply list_elem_of_further|done].
        * intros [Hin|(k1 & Hk1 & <-)].
          -- left. case_bool_decide; [done|]. apply elem_of_app. by left.
          -- csimpl in Hk1. apply elem_of_cons in Hk1 as [->|Hk1].
             ++ left. case_bool_decide; [done|].
                apply elem_of_app. right. by apply list_elem_of_singleton.
             ++ right. by exists k1.
      + intros k v Hkv. apply Hvals in Hkv as [Hin|(k1 & Hin & <-)].
        * apply od_set_elem in Hin as [?|[= -> ->]]; [by left|].
          right. exists k0. split; [apply list_elem_of_here|done].
        * right. exists k1. split; [by apply list_elem_of_further|done]. }
  destruct (Hgen [] (NoDup_nil_2)) as (Hnd & Hkeys & Hvals).
  split_and!; [done| |].
  - intros k. rewrite Hkeys. split; [|by right].
    intros [Hnil|?]; [by apply elem_of_nil in Hnil|done].
  - intros k v Hkv. apply Hvals in Hkv as [Hnil|?]; [|done].
    by apply elem_of_nil in Hnil.
Qed.

(** ** The keys of the client map after a pass *)

Section client_reconciliation.
Context `{Consts} `{Entities}.

(** The snapshot left by the loop over the known clients. *)
Lemma update_known_clients_from_left consider_home i known clients w left w' :
  NoDup clients.*1 →
  update_known_clients_from consider_home i known clients w = (Ret left, w') →
  left = filter (λ kv, kv.1 ∉ known.*1) clients.
Proof.
  revert i clients w.
  induction known as [|[client_mac client_state] known IH];
    intros i clients w Hnd Hrun; simpl in Hrun.
  - injection Hrun as <- _. symmetry. apply filter_all, Forall_forall.
    intros kv _. simpl. apply not_elem_of_nil.
  - pose proof (od_pop_filter client_mac clients Hnd) as Hpop.
    destruct (od_pop client_mac clients) as [client_info clients'].
    simpl in Hpop.
    apply run_bind_inv in Hrun as (now & w1 & _ & Hrun).
    destruct (client_update _ _ _ _) as [client' calls].
    rewrite run_bind_modify_dev in Hrun.
    apply run_bind_inv in Hrun as ([] & w2 & _ & Hrun).
    apply IH in Hrun; [|subst; by apply filter_keys_NoDup].
    subst. rewrite list_filter_filter. apply list_filter_iff.
    intros [k v]. simpl. rewrite not_elem_of_cons. tauto.
Qed.

(** The loop over the clients left appends their keys to the client map. *)
Lemma add_new_clients_run clients new_clients w r w' :
  NoDup clients.*1 →
  (∀ k, k ∈ clients.*1 → k ∉ client_keys w) →
  add_new_clients clients new_clients w = (Ret r, w') →
  client_keys w' = client_keys w ++ clients.*1.
Proof.
  revert new_clients w.
  induction clients as [|[client_mac client_info] clients IH];
    intros new_clients w Hnd Hnew Hrun; simpl in Hrun.
  - injection Hrun as _ <-. simpl. by rewrite app_nil_r.
  - apply NoDup_cons in Hnd as [Hmac Hnd].
    apply run_bind_inv in Hrun as (now & w1 & Hnow & Hrun).
    injection Hnow as _ <-.
    destruct (client_update _ _ _ _) as [client calls].
    apply run_bind_inv in Hrun as ([] & w2 & Hcalls & Hrun).
    assert (_clients (dev w2) = _clients (dev w)) as Hkept.
    { apply (steps_run (keeps _clients) _ _ _ _
               (steps_run_callbacks (keeps _clients) (λ _ _, eq_refl)
                  (λ _ _, eq_refl) calls)) in Hcalls.
      exact Hcalls. }
    rewrite run_bind_modify_dev in Hrun.
    apply IH in Hrun; [|done|].
    + rewrite Hrun. unfold client_keys. simpl.
      rewrite od_set_new_key, Hkept, <- app_assoc; [done|].
      rewrite Hkept. apply Hnew. apply list_elem_of_here.
    + intros k Hk. unfold client_keys. simpl.
      rewrite od_set_new_key, Hkept
        by (rewrite Hkept; apply Hnew; apply list_elem_of_here).
      rewrite not_elem_of_app. split; [by apply Hnew, list_elem_of_further|].
      intros ->%list_elem_of_singleton. done.
Qed.
End client_reconciliation.

(** ** Where a pass stands *)

Lemma filter_none {A} `{EqDecision A} (x : A) (l : list A) :
  Forall (λ e, e ≠ x) l → filter (λ e, e = x) l = [].
Proof.
  induction 1 as [|e l He _ IH]; [done|]. by rewrite filter_cons_False.
Qed.

Section pass_state_facts.
Context `{Entities}.
Context (proj : World → list string) (signal : Effect).

Lemma pass_state_start w : pass_state proj signal (proj w) (trace w) [] w.
Proof. split; [done|]. exists []. by rewrite app_nil_r. Qed.

(** A step that keeps the keys and does not send the signal. *)
Lemma pass_state_step keys before sent w w' :
  proj w' = proj w →
  (∃ t, trace w' = trace w ++ t ∧ Forall (λ e, e ≠ signal) t) →
  pass_state proj signal keys before sent w →
  pass_state proj signal keys before sent w'.
Proof.
  intros Hproj (t & Ht & Hall) (Hkeys & t0 & Ht0 & Hsent).
  split; [congruence|]. exists (t0 ++ t).
  rewrite Ht, Ht0, <- app_assoc. split; [done|].
  by rewrite filter_app, Hsent, (filter_none _ _ Hall), app_nil_r.
Qed.

(** A step that appends keys. *)
Lemma pass_state_keys keys keys' before sent w w' :
  proj w' = proj w ++ keys' →
  (∃ t, trace w' = trace w ++ t ∧ Forall (λ e, e ≠ signal) t) →
  pass_state proj signal keys before sent w →
  pass_state proj signal (keys ++ keys') before sent w'.
Proof.
  intros Hproj Ht [Hkeys Hst].
  destruct Ht as (t & Ht & Hall). split; [by rewrite Hproj, Hkeys|].
  destruct Hst as (t0 & Ht0 & Hsent). exists (t0 ++ t).
  rewrite Ht, Ht0, <- app_assoc. split; [done|].
  by rewrite filter_app, Hsent, (filter_none _ _ Hall), app_nil_r.
Qed.

(** The signal is sent. *)
Lemma pass_state_signal keys before sent w :
  proj (after (emit signal) w) = proj w →
  pass_state proj signal keys before sent w →
  pass_state proj signal keys before (sent ++ [signal]) (after (emit signal) w).
Proof.
  intros Hproj (Hkeys & t0 & Ht0 & Hsent). split; [congruence|].
  exists (t0 ++ [signal]). simpl. rewrite Ht0, <- app_assoc. split; [done|].
  rewrite filter_app, Hsent. f_equal.
  by rewrite filter_cons_True, filter_nil.
Qed.

Lemma pass_state_added keys before sent w w' :
  trace w = before →
  pass_state proj signal keys before sent w' →
  trace w `prefix_of` trace w' ∧
  filter (λ e, e = signal) (added w w') = sent.
Proof.
  intros <- (_ & t & Ht & Hsent). split; [rewrite Ht; by apply prefix_app_r|].
  by rewrite (added_app _ _ _ Ht).
Qed.
End pass_state_facts.

Section client_pass.
Context `{Consts} `{Entities}.

Lemma update_known_clients_run consider_home clients w left w' :
  NoDup clients.*1 →
  update_known_clients consider_home clients w = (Ret left, w') →
  left = filter (λ kv, kv.1 ∉ client_keys w) clients ∧
  client_keys w' = client_keys w.
Proof.
  intros Hnd Hrun. unfold update_known_clients in Hrun.
  rewrite run_bind_get_dev in Hrun. split.
  - by eapply update_known_clients_from_left.
  - rewrite <- (after_run _ _ _ _ Hrun). unfold client_keys.
    by apply update_known_clients_from_keys.
Qed.

(** Where a client pass that returns ends: the keys of the clients left in
    the snapshot come after the keys the map had, and the signal for new
    devices is sent once if there are any, and not otherwise. *)
Lemma update_devices_pass snapshot w w' :
  update_devices (Fetched snapshot) w = (Ret tt, w') →
  let api :=
    if decide (opt_mode (_options (dev w)) = MEDIA_BRIDGE)
    then dict_comprehension id (filter (λ kv, info_wired kv.2) snapshot)
    else snapshot in
  let new := filter (λ k, k ∉ client_keys w)
               (dict_comprehension format_mac api).*1 in
  NoDup new ∧
  pass_state client_keys (DispatcherSend signal_device_new)
    (client_keys w ++ new) (trace w)
    (if bool_decide (new ≠ []) then [DispatcherSend signal_device_new] else [])
    w'.
Proof.
  intros Hrun api new.
  set (sig := DispatcherSend signal_device_new).
  set (cl := dict_comprehension format_mac api).
  destruct (dict_comprehension_spec format_mac api) as (Hnd & _ & _).
  fold cl in Hnd.
  assert (NoDup new) as Hnew_nd by (by apply NoDup_filter).
  split; [done|].
  assert (∀ d d' : ARDevice,
            _options d' = _options d → _sensor_handler d' = _sensor_handler d →
            _sensor_coordinator d' = _sensor_coordinator d →
            True → True) as I_frame by done.
  assert (∀ msg, LogDebug msg ≠ sig) as P_debug by done.
  assert (∀ (d : ARDevice) event args,
            True → opt_event (_options d) event = true → BusFire event args ≠ sig)
    as P_fire by done.
  unfold update_devices in Hrun. rewrite run_bind_get_dev in Hrun.
  pose proof (pass_state_start client_keys sig w) as Hst.
  assert (∃ ww,
    (bind (update_known_clients (opt_consider_home (_options (dev w))) cl)
       (λ clients,
          let new_client := bool_decide (clients ≠ []) in
          new_clients <- add_new_clients clients [] ;;
          fire_events ((λ c, ("device_connected", client_identity c)) <$> new_clients) ;;
          modify_dev (set_clients_number 0) ;;
          modify_dev (set_clients_list []) ;;
          clients_sensor ;;
          emit (DispatcherSend signal_device_update) ;;
          (if new_client then emit (DispatcherSend signal_device_new) else ret tt) ;;
          _update_unpolled_sensors)) ww = (Ret tt, w') ∧
    client_keys ww = client_keys w ∧
    pass_state client_keys sig (client_keys w) (trace w) [] ww)
    as (ww & Hrun' & Hkeys & Hww).
  { destruct (negb (opt_track_devices (_options (dev w))));
      rewrite !run_bind_emit, run_bind_get_dev in Hrun;
      simpl dev in Hrun;
      destruct (_connect_error (dev w));
      rewrite ?run_bind_assoc, ?run_bind_modify_dev, ?run_bind_emit,
        ?run_bind_ret, ?run_bind_get_dev in Hrun;
      simpl dev in Hrun;
      (eexists; split; [exact Hrun|]); (split; [done|]);
      (split; [done|]); simpl; eexists; (split; [by rewrite <- ?app_assoc|]);
      done. }
  clear Hrun Hst.
  apply run_bind_inv in Hrun' as (left & w2 & Hknown & Hrun).
  pose proof (writes_run _ _ _ _ _ _
    (writes_update_known_clients (λ _, True) (λ e, e ≠ sig)
       I_frame P_debug P_fire _ _) Logic.I Hknown) as [_ Ht2].
  apply update_known_clients_run in Hknown as [Hleft Hkeys2]; [|done].
  rewrite Hkeys in Hleft.
  assert (left.*1 = new) as Hleft_keys
    by (rewrite Hleft; unfold new, cl; by apply filter_by_key).
  pose proof (pass_state_step _ _ _ _ _ _ _ Hkeys2 Ht2 Hww) as Hw2.
  simpl in Hrun.
  apply run_bind_inv in Hrun as (new_clients & w3 & Hnew & Hrun).
  pose proof (writes_run _ _ _ _ _ _
    (writes_add_new_clients (λ _, True) (λ e, e ≠ sig)
       I_frame P_debug P_fire _ _) Logic.I Hnew) as [_ Ht3].
  apply add_new_clients_run in Hnew.
  2:{ by rewrite Hleft_keys. }
  2:{ intros k. rewrite Hleft_keys, Hkeys2, Hkeys. unfold new.
      by intros [? _]%list_elem_of_filter. }
  rewrite Hleft_keys in Hnew.
  pose proof (pass_state_keys _ _ _ _ _ _ _ _ Hnew Ht3 Hw2) as Hw3.
  apply run_bind_inv in Hrun as ([] & w4 & Hfire & Hrun).
  pose proof (writes_run _ _ _ _ _ _
    (writes_fire_events (λ _, True) (λ e, e ≠ sig) P_debug P_fire _)
    Logic.I Hfire) as [_ Ht4].
  assert (client_keys w4 = client_keys w3) as Hkeys4.
  { unfold client_keys. f_equal.
    apply (steps_run (keeps _clients) _ _ _ _
             (steps_fire_events (keeps _clients) _) Hfire). }
  pose proof (pass_state_step _ _ _ _ _ _ _ Hkeys4 Ht4 Hw3) as Hw4.
  rewrite !run_bind_modify_dev in Hrun.
  apply run_bind_inv in Hrun as ([] & w5 & Hsensor & Hrun).
  pose proof (writes_run _ _ _ _ _ _
    (writes_clients_sensor (λ _, True) (λ e, e ≠ sig) I_frame) Logic.I Hsensor)
    as [_ Ht5].
  assert (client_keys w5 = client_keys w4) as Hkeys5.
  { unfold client_keys. f_equal.
    apply (steps_run (keeps _clients) _ _ _ _
             (steps_clients_sensor (keeps _clients)
                (λ _ _, eq_refl) (λ _ _, eq_refl)) Hsensor). }
  simpl in Ht5.
  assert (pass_state client_keys sig (client_keys w ++ new) (trace w) [] w5)
    as Hw5.
  { eapply pass_state_step; [exact Hkeys5| |exact Hw4]. exact Ht5. }
  rewrite run_bind_emit in Hrun.
  assert (pass_state client_keys sig (client_keys w ++ new) (trace w) []
            (after (emit (DispatcherSend signal_device_update)) w5)) as Hw6.
  { eapply pass_state_step; [| |exact Hw5]; [done|].
    exists [DispatcherSend signal_device_update]. split; [done|].
    by repeat constructor. }
  assert (bool_decide (left ≠ []) = bool_decide (new ≠ [])) as Hflag.
  { rewrite <- Hleft_keys. apply bool_decide_ext.
    destruct left; simpl; split; congruence. }
  rewrite Hflag in Hrun.
  assert (∀ w7 sent,
            pass_state client_keys sig (client_keys w ++ new) (trace w) sent w7 →
            _update_unpolled_sensors w7 = (Ret tt, w') →
            pass_state client_keys sig (client_keys w ++ new) (trace w) sent w')
    as Hlast.
  { intros w7 sent Hw7 Hun.
    pose proof (writes_run _ _ _ _ _ _
      (writes_update_unpolled_sensors (λ _, True) (λ e, e ≠ sig)
         (λ _ _ _, Logic.I) (λ t, ltac:(done))) Logic.I Hun) as [_ Ht7].
    eapply pass_state_step; [|exact Ht7|exact Hw7].
    unfold client_keys. f_equal.
    apply (steps_run (keeps _clients) _ _ _ _
             (steps_update_unpolled_sensors (keeps _clients)
                (λ _ _, eq_refl)) Hun). }
  destruct (bool_decide (new ≠ [])).
  - rewrite run_bind_emit in Hrun. eapply Hlast; [|exact Hrun].
    by apply (pass_state_signal client_keys sig _ _ []).
  - rewrite run_bind_ret in Hrun. by eapply Hlast.
Qed.

(** The keys the comprehensions of a client pass leave are the MACs it is
    offered. *)
Lemma offered_keys (d : ARDevice) snapshot mac :
  let api :=
    if decide (opt_mode (_options d) = MEDIA_BRIDGE)
    then dict_comprehension id (filter (λ kv, info_wired kv.2) snapshot)
    else snapshot in
  mac ∈ (dict_comprehension format_mac api).*1 ↔ offered d snapshot mac.
Proof.
  simpl. destruct (dict_comprehension_spec format_mac
           (if decide (opt_mode (_options d) = MEDIA_BRIDGE)
            then dict_comprehension id (filter (λ kv, info_wired kv.2) snapshot)
            else snapshot)) as (_ & -> & _).
  unfold offered. case_decide as Hmode.
  - destruct (dict_comprehension_spec id
               (filter (λ kv : string * ClientInfo, info_wired kv.2) snapshot))
      as (_ & Hkeys & Hvals).
    split.
    + intros (k0 & Hk0 & <-).
      apply list_elem_of_fmap in Hk0 as ([k v] & -> & Hkv).
      apply Hvals in Hkv as (k1 & Hkv & <-).
      apply list_elem_of_filter in Hkv as [Hwired Hkv].
      exists k1, v. split_and!; try done. intros _. by apply Is_true_true.
    + intros (key & info & Hin & <- & Hwired).
      exists key. split; [|done]. apply Hkeys. exists key. split; [|done].
      apply list_elem_of_fmap. exists (key, info). split; [done|].
      apply list_elem_of_filter. split; [|done]. simpl.
      by apply Is_true_true, Hwired.
  - split.
    + intros (k0 & Hk0 & <-).
      apply list_elem_of_fmap in Hk0 as ([k v] & -> & Hkv).
      exists k, v. by split_and!.
    + intros (key & info & Hin & <- & _). exists key. split; [|done].
      apply list_elem_of_fmap. by exists (key, info).
Qed.

(** X9. A client pass that returns keeps the keys of the client map in
    their order and appends the new ones, each once: the MACs the snapshot
    offers (the formatted MACs of its records, of the wired ones only in
    media-bridge mode) that the map did not hold. Afterwards the map holds
    every MAC the snapshot offers. *)
Theorem update_devices_tracks_snapshot (snapshot : list (string * ClientInfo))
    (w w' : World) :
  update_devices (Fetched snapshot) w = (Ret tt, w') →
  ∃ new : list string,
    client_keys w' = client_keys w ++ new ∧
    NoDup new ∧
    (∀ mac, mac ∈ new ↔ (mac ∉ client_keys w) ∧ offered (dev w) snapshot mac) ∧
    (∀ mac, offered (dev w) snapshot mac → mac ∈ client_keys w').
Proof.
  intros Hrun. apply update_devices_pass in Hrun as [Hnd [Hkeys _]].
  set (new := filter _ _) in *. exists new.
  assert (∀ mac, mac ∈ new ↔ (mac ∉ client_keys w) ∧ offered (dev w) snapshot mac)
    as Hnew.
  { intros mac. unfold new. rewrite list_elem_of_filter.
    by rewrite (offered_keys (dev w) snapshot mac). }
  split_and!; try done.
  intros mac Hoffered. rewrite Hkeys, elem_of_app.
  destruct (decide (mac ∈ client_keys w)); [by left|].
  right. by apply Hnew.
Qed.

(** X10. A client pass that returns sends the signal for new devices exactly
    when the snapshot offers a MAC the client map did not hold, and then
    once, however many the new clients are. *)
Theorem device_new_signal_iff_new_client (snapshot : list (string * ClientInfo))
    (w w' : World) :
  update_devices (Fetched snapshot) w = (Ret tt, w') →
  trace w `prefix_of` trace w' ∧
  (DispatcherSend signal_device_new ∈ added w w'
   ↔ (∃ mac, (mac ∉ client_keys w) ∧ offered (dev w) snapshot mac)) ∧
  (length (filter (λ e, e = DispatcherSend signal_device_new) (added w w')) ≤ 1)%nat.
Proof.
  intros Hrun. apply update_devices_pass in Hrun as [_ Hst].
  set (new := filter _ _) in *.
  apply (pass_state_added _ _ _ _ _ w) in Hst as [Hprefix Hsent]; [|done].
  assert (new ≠ []
          ↔ (∃ mac, (mac ∉ client_keys w) ∧ offered (dev w) snapshot mac))
    as Hnew.
  { split.
    - destruct new as [|mac new'] eqn:Hn; [done|]. intros _. exists mac.
      assert (mac ∈ new) as Hin by (rewrite Hn; apply list_elem_of_here).
      unfold new in Hin. apply list_elem_of_filter in Hin as [? Hin].
      by rewrite (offered_keys (dev w) snapshot mac) in Hin.
    - intros (mac & Hmac & Hoff) Hnil.
      assert (mac ∈ new) as Hin.
      { unfold new. apply list_elem_of_filter. split; [done|].
        by apply (offered_keys (dev w) snapshot mac). }
      rewrite Hnil in Hin. by apply elem_of_nil in Hin. }
  split_and!; [done| |].
  - rewrite <- Hnew. split.
    + intros Hin Hnil. rewrite bool_decide_eq_false_2 in Hsent by (by intros ?).
      assert (DispatcherSend signal_device_new
              ∈ filter (λ e, e = DispatcherSend signal_device_new) (added w w'))
        as Hf by (by apply list_elem_of_filter).
      rewrite Hsent in Hf. by apply elem_of_nil in Hf.
    + intros Hne. rewrite bool_decide_eq_true_2 in Hsent by done.
      assert (DispatcherSend signal_device_new
              ∈ filter (λ e, e = DispatcherSend signal_device_new) (added w w'))
        as Hf by (rewrite Hsent; apply list_elem_of_here).
      by apply list_elem_of_filter in Hf as [_ ?].
  - rewrite Hsent. case_bool_decide; simpl; lia.
Qed.
End client_pass.

(** ** The keys of the mesh-node map after a pass *)

Section node_pass.
Context `{Consts} `{Entities}.

Lemma update_known_nodes_from_keys i known nodes w :
  known.*1 = drop i (node_keys w) →
  node_keys (after (update_known_nodes_from i known nodes) w) = node_keys w.
Proof.
  revert i nodes w.
  induction known as [|[node_mac node] known IH]; intros i nodes w Hknown;
    [done|].
  simpl in Hknown |- *.
  destruct (od_pop node_mac nodes) as [node_info nodes'].
  rewrite after_bind. simpl.
  destruct (node_update _ _ _) as [node' calls].
  rewrite after_bind. simpl. rewrite after_bind.
  set (w2 := {| dev := set_aimesh _ _ |}).
  assert (Hkeys : node_keys w2 = node_keys w).
  { unfold node_keys. simpl. rewrite list_fmap_insert. simpl.
    apply list_insert_id.
    rewrite <- (Nat.add_0_r i), <- lookup_drop.
    unfold node_keys in Hknown. by rewrite <- Hknown. }
  pose proof (steps_fire_events (keeps _aimesh) calls w2) as Hcalls.
  unfold keeps, after in Hcalls.
  destruct (fire_events calls w2) as [[[]|e] w3]; simpl in Hcalls.
  all: assert (Hc : node_keys w3 = node_keys w)
    by (unfold node_keys; rewrite Hcalls; exact Hkeys).
  - rewrite IH; [done|].
    rewrite Hc. replace (S i) with (i + 1)%nat by lia.
    by rewrite <- drop_drop, <- Hknown.
  - done.
Qed.

Lemma update_known_nodes_from_left i known nodes w left w' :
  NoDup nodes.*1 →
  update_known_nodes_from i known nodes w = (Ret left, w') →
  left = filter (λ kv, kv.1 ∉ known.*1) nodes.
Proof.
  revert i nodes w.
  induction known as [|[node_mac node] known IH];
    intros i nodes w Hnd Hrun; simpl in Hrun.
  - injection Hrun as <- _. symmetry. apply filter_all, Forall_forall.
    intros kv _. simpl. apply not_elem_of_nil.
  - pose proof (od_pop_filter node_mac nodes Hnd) as Hpop.
    destruct (od_pop node_mac nodes) as [node_info nodes'].
    simpl in Hpop.
    apply run_bind_inv in Hrun as (now & w1 & _ & Hrun).
    destruct (node_update _ _ _) as [node' calls].
    rewrite run_bind_modify_dev in Hrun.
    apply run_bind_inv in Hrun as ([] & w2 & _ & Hrun).
    apply IH in Hrun; [|subst; by apply filter_keys_NoDup].
    subst. rewrite list_filter_filter. apply list_filter_iff.
    intros [k v]. simpl. rewrite not_elem_of_cons. tauto.
Qed.

Lemma update_known_nodes_run nodes w left w' :
  NoDup nodes.*1 →
  update_known_nodes nodes w = (Ret left, w') →
  left = filter (λ kv, kv.1 ∉ node_keys w) nodes ∧
  node_keys w' = node_keys w.
Proof.
  intros Hnd Hrun. unfold update_known_nodes in Hrun.
  rewrite run_bind_get_dev in Hrun. split.
  - by eapply update_known_nodes_from_left.
  - rewrite <- (after_run _ _ _ _ Hrun).
    by apply update_known_nodes_from_keys.
Qed.

Lemma add_new_nodes_run nodes new_nodes w r w' :
  NoDup nodes.*1 →
  (∀ k, k ∈ nodes.*1 → k ∉ node_keys w) →
  add_new_nodes nodes new_nodes w = (Ret r, w') →
  node_keys w' = node_keys w ++ nodes.*1.
Proof.
  revert new_nodes w.
  induction nodes as [|[node_mac node_info] nodes IH];
    intros new_nodes w Hnd Hnew Hrun; simpl in Hrun.
  - injection Hrun as _ <-. simpl. by rewrite app_nil_r.
  - apply NoDup_cons in Hnd as [Hmac Hnd].
    apply run_bind_inv in Hrun as (now & w1 & Hnow & Hrun).
    injection Hnow as _ <-.
    destruct (node_update _ _ _) as [node calls].
    apply run_bind_inv in Hrun as ([] & w2 & Hcalls & Hrun).
    assert (_aimesh (dev w2) = _aimesh (dev w)) as Hkept.
    { apply (steps_run (keeps _aimesh) _ _ _ _
               (steps_fire_events (keeps _aimesh) calls)) in Hcalls.
      exact Hcalls. }
    rewrite run_bind_modify_dev in Hrun.
    apply IH in Hrun; [|done|].
    + rewrite Hrun. unfold node_keys. simpl.
      rewrite od_set_new_key, Hkept, <- app_assoc; [done|].
      rewrite Hkept. apply Hnew. apply list_elem_of_here.
    + intros k Hk. unfold node_keys. simpl.
      rewrite od_set_new_key, Hkept
        by (rewrite Hkept; apply Hnew; apply list_elem_of_here).
      rewrite not_elem_of_app. split; [by apply Hnew, list_elem_of_further|].
      intros ->%list_elem_of_singleton. done.
Qed.

(** Where a node pass that returns ends. *)
Lemma update_nodes_pass snapshot w w' :
  update_nodes (Fetched snapshot) w = (Ret tt, w') →
  let new := filter (λ k, k ∉ node_keys w)
               (dict_comprehension format_mac snapshot).*1 in
  NoDup new ∧
  pass_state node_keys (DispatcherSend signal_aimesh_new)
    (node_keys w ++ new) (trace w)
    (if bool_decide (new ≠ []) then [DispatcherSend signal_aimesh_new] else [])
    w'.
Proof.
  intros Hrun new.
  set (sig := DispatcherSend signal_aimesh_new).
  set (cl := dict_comprehension format_mac snapshot).
  destruct (dict_comprehension_spec format_mac snapshot) as (Hnd & _ & _).
  fold cl in Hnd.
  assert (NoDup new) as Hnew_nd by (by apply NoDup_filter).
  split; [done|].
  assert (∀ d d' : ARDevice,
            _options d' = _options d → _sensor_handler d' = _sensor_handler d →
            _sensor_coordinator d' = _sensor_coordinator d →
            True → True) as I_frame by done.
  assert (∀ msg, LogDebug msg ≠ sig) as P_debug by done.
  assert (∀ (d : ARDevice) event args,
            True → opt_event (_options d) event = true → BusFire event args ≠ sig)
    as P_fire by done.
  unfold update_nodes in Hrun. rewrite run_bind_emit in Hrun.
  assert (pass_state node_keys sig (node_keys w) (trace w) []
            (after (emit (LogDebug "Updating AiMesh status for '%s'")) w))
    as Hww.
  { eapply pass_state_step; [| |apply pass_state_start]; [done|].
    eexists. split; [done|]. by repeat constructor. }
  set (ww := after (emit _) w) in *.
  assert (node_keys ww = node_keys w) as Hkeys by done.
  clearbody ww.
  apply run_bind_inv in Hrun as (left & w2 & Hknown & Hrun).
  pose proof (writes_run _ _ _ _ _ _
    (writes_update_known_nodes (λ _, True) (λ e, e ≠ sig)
       I_frame P_debug P_fire _) Logic.I Hknown) as [_ Ht2].
  apply update_known_nodes_run in Hknown as [Hleft Hkeys2]; [|done].
  rewrite Hkeys in Hleft.
  assert (left.*1 = new) as Hleft_keys
    by (rewrite Hleft; unfold new, cl; by apply filter_by_key).
  pose proof (pass_state_step _ _ _ _ _ _ _ Hkeys2 Ht2 Hww) as Hw2.
  simpl in Hrun.
  apply run_bind_inv in Hrun as (new_nodes & w3 & Hnew & Hrun).
  pose proof (writes_run _ _ _ _ _ _
    (writes_add_new_nodes (λ _, True) (λ e, e ≠ sig)
       I_frame P_debug P_fire _ _) Logic.I Hnew) as [_ Ht3].
  apply add_new_nodes_run in Hnew.
  2:{ by rewrite Hleft_keys. }
  2:{ intros k. rewrite Hleft_keys, Hkeys2, Hkeys. unfold new.
      by intros [? _]%list_elem_of_filter. }
  rewrite Hleft_keys in Hnew.
  pose proof (pass_state_keys _ _ _ _ _ _ _ _ Hnew Ht3 Hw2) as Hw3.
  apply run_bind_inv in Hrun as ([] & w4 & Hfire & Hrun).
  pose proof (writes_run _ _ _ _ _ _
    (writes_fire_events (λ _, True) (λ e, e ≠ sig) P_debug P_fire _)
    Logic.I Hfire) as [_ Ht4].
  assert (node_keys w4 = node_keys w3) as Hkeys4.
  { unfold node_keys. f_equal.
    apply (steps_run (keeps _aimesh) _ _ _ _
             (steps_fire_events (keeps _aimesh) _) Hfire). }
  pose proof (pass_state_step _ _ _ _ _ _ _ Hkeys4 Ht4 Hw3) as Hw4.
  rewrite !run_bind_modify_dev in Hrun.
  apply run_bind_inv in Hrun as ([] & w5 & Hsensor & Hrun).
  pose proof (writes_run _ _ _ _ _ _
    (writes_aimesh_sensors (λ _, True) (λ e, e ≠ sig) I_frame) Logic.I Hsensor)
    as [_ Ht5].
  assert (node_keys w5 = node_keys w4) as Hkeys5.
  { unfold node_keys. f_equal. unfold aimesh_sensors in Hsensor.
    rewrite run_bind_get_dev in Hsensor.
    apply (steps_run (keeps _aimesh) _ _ _ _
             (steps_aimesh_sensors_from (keeps _aimesh)
                (λ _ _, eq_refl) (λ _ _, eq_refl) _) Hsensor). }
  simpl in Ht5.
  assert (pass_state node_keys sig (node_keys w ++ new) (trace w) [] w5)
    as Hw5.
  { eapply pass_state_step; [exact Hkeys5| |exact Hw4]. exact Ht5. }
  rewrite run_bind_emit in Hrun.
  assert (pass_state node_keys sig (node_keys w ++ new) (trace w) []
            (after (emit (DispatcherSend signal_aimesh_update)) w5)) as Hw6.
  { eapply pass_state_step; [| |exact Hw5]; [done|].
    exists [DispatcherSend signal_aimesh_update]. split; [done|].
    by repeat constructor. }
  assert (bool_decide (left ≠ []) = bool_decide (new ≠ [])) as Hflag.
  { rewrite <- Hleft_keys. apply bool_decide_ext.
    destruct left; simpl; split; congruence. }
  rewrite Hflag in Hrun.
  destruct (bool_decide (new ≠ [])).
  - apply after_run in Hrun. rewrite <- Hrun.
    by apply (pass_state_signal node_keys sig _ _ []).
  - apply after_run in Hrun. by rewrite <- Hrun.
Qed.

(** X11. A node pass that returns keeps the keys of the mesh-node map in
    their order and appends, each once, the formatted MACs of the snapshot
    that the map did not hold, so that the map holds every MAC of the
    snapshot afterwards; it sends the signal for new nodes exactly when
    there is such a MAC, and then once. *)
Theorem update_nodes_tracks_snapshot (snapshot : list (string * NodeInfo))
    (w w' : World) :
  update_nodes (Fetched snapshot) w = (Ret tt, w') →
  (∃ new : list string,
     node_keys w' = node_keys w ++ new ∧
     NoDup new ∧
     (∀ mac, mac ∈ new ↔ (mac ∉ node_keys w) ∧ offered_nodes snapshot mac)) ∧
  (∀ mac, offered_nodes snapshot mac → mac ∈ node_keys w') ∧
  trace w `prefix_of` trace w' ∧
  (DispatcherSend signal_aimesh_new ∈ added w w'
   ↔ (∃ mac, (mac ∉ node_keys w) ∧ offered_nodes snapshot mac)) ∧
  (length (filter (λ e, e = DispatcherSend signal_aimesh_new) (added w w')) ≤ 1)%nat.
Proof.
  intros Hrun. apply update_nodes_pass in Hrun as [Hnd Hst].
  set (new := filter _ _) in *.
  assert (∀ mac, mac ∈ new ↔ (mac ∉ node_keys w) ∧ offered_nodes snapshot mac)
    as Hnew.
  { intros mac. unfold new. rewrite list_elem_of_filter.
    destruct (dict_comprehension_spec format_mac snapshot) as (_ & -> & _).
    done. }
  pose proof Hst as [Hkeys _].
  apply (pass_state_added _ _ _ _ _ w) in Hst as [Hprefix Hsent]; [|done].
  assert (new ≠ [] ↔ (∃ mac, (mac ∉ node_keys w) ∧ offered_nodes snapshot mac))
    as Hsome.
  { split.
    - destruct new as [|mac new'] eqn:Hn; [done|]. intros _. exists mac.
      apply Hnew. apply list_elem_of_here.
    - intros (mac & Hmac) Hnil. apply Hnew in Hmac. rewrite Hnil in Hmac.
      by apply elem_of_nil in Hmac. }
  split_and!; [by exists new| |done| |].
  - intros mac Hoffered. rewrite Hkeys, elem_of_app.
    destruct (decide (mac ∈ node_keys w)); [by left|].
    right. by apply Hnew.
  - rewrite <- Hsome. split.
    + intros Hin Hnil. rewrite bool_decide_eq_false_2 in Hsent by (by intros ?).
      assert (DispatcherSend signal_aimesh_new
              ∈ filter (λ e, e = DispatcherSend signal_aimesh_new) (added w w'))
        as Hf by (by apply list_elem_of_filter).
      rewrite Hsent in Hf. by apply elem_of_nil in Hf.
    + intros Hne. rewrite bool_decide_eq_true_2 in Hsent by done.
      assert (DispatcherSend signal_aimesh_new
              ∈ filter (λ e, e = DispatcherSend signal_aimesh_new) (added w w'))
        as Hf by (rewrite Hsent; apply list_elem_of_here).
      by apply list_elem_of_filter in Hf as [_ ?].
  - rewrite Hsent. case_bool_decide; simpl; lia.
Qed.
End node_pass.

(** ** Removing trackers *)

Section removal.
Context `{Consts} `{Entities}.

Lemma set_clients_set_clients x y (d : ARDevice) :
  set_clients x (set_clients y d) = set_clients x d.
Proof. done. Qed.

Lemma set_clients_same (d : ARDevice) : set_clients (_clients d) d = d.
Proof. by destruct d. Qed.

(** The loop over resolvable entities: the clients with the MACs listed are
    dropped, the others are kept as they are. *)
Lemma remove_entities_run entities w :
  Forall (λ v, v ≠ Entry None) entities →
  NoDup (client_keys w) →
  ∃ logs,
    remove_entities entities w
    = (Ret tt,
       {| dev := set_clients
                   (filter (λ kv, kv.1 ∉ macs_of entities) (_clients (dev w)))
                   (dev w);
          trace := trace w ++ logs; clock := clock w; tick := tick w |}) ∧
    Forall is_debug logs.
Proof.
  intros Hall. revert w.
  induction Hall as [|v entities Hv _ IH]; intros w Hnd.
  - exists []. simpl. unfold ret. rewrite app_nil_r.
    rewrite filter_all by (apply Forall_forall; intros; apply not_elem_of_nil).
    by rewrite set_clients_same, world_eta.
  - destruct v as [|[mac|]]; [|clear Hv|done].
    + destruct (IH w Hnd) as (logs & Hrun & Hlogs). by exists logs.
    + simpl. rewrite run_bind_emit, run_bind_get_dev.
      set (w0 := after (emit _) w).
      assert (∃ logs1 : list Effect,
                (if od_mem mac (_clients (dev w0))
                 then modify_dev (set_clients (od_pop mac (_clients (dev w0))).2) ;;
                      emit (LogDebug "Found and removed")
                 else ret tt) w0
                = (Ret tt,
                   {| dev := set_clients
                               (filter (λ kv, kv.1 ≠ mac) (_clients (dev w)))
                               (dev w);
                      trace := trace w0 ++ logs1;
                      clock := clock w; tick := tick w |}) ∧
                Forall is_debug logs1) as (logs1 & Hstep & Hlogs1).
      { unfold od_mem. case_bool_decide as Hin.
        - exists [LogDebug "Found and removed"]. split; [|by repeat constructor].
          rewrite run_bind_modify_dev. unfold emit, with_dev. simpl.
          by rewrite od_pop_filter.
        - exists []. split; [|constructor]. unfold ret.
          rewrite app_nil_r, filter_all, set_clients_same; [done|].
          apply Forall_forall. intros [k v] Hkv ?. simpl in *. subst.
          apply Hin. apply list_elem_of_fmap. by exists (mac, v). }
      unfold bind at 1. rewrite Hstep.
      match goal with |- context [remove_entities entities ?w1] =>
        destruct (IH w1) as (logs & Hrun & Hlogs) end.
      { unfold client_keys. simpl. by apply filter_keys_NoDup. }
      rewrite Hrun. simpl.
      exists (LogDebug "Trying to remove tracker with mac: %s" :: logs1 ++ logs).
      split.
      * f_equal. f_equal; [|by rewrite <- !app_assoc].
        rewrite set_clients_set_clients. f_equal.
        rewrite list_filter_filter. apply list_filter_iff.
        intros [k v]. simpl. rewrite not_elem_of_cons. tauto.
      * constructor; [done|]. by apply Forall_app.
Qed.

Lemma remove_entities_app l1 l2 w :
  remove_entities (l1 ++ l2) w
  = bind (remove_entities l1) (λ _, remove_entities l2) w.
Proof.
  revert w. induction l1 as [|[|[mac|]] l1 IH]; intros w; simpl; try done.
  unfold bind, emit, get_dev, modify_dev, ret. simpl.
  destruct (od_mem mac _); simpl; by rewrite IH.
Qed.

Lemma offered_options (d d' : ARDevice) snapshot mac :
  _options d' = _options d → offered d snapshot mac → offered d' snapshot mac.
Proof. unfold offered. by intros ->. Qed.

(** X12. Removing trackers and tracking again. When every entity listed
    resolves to a registry entry with a MAC and the pass that follows
    returns, the clients with the MACs listed are dropped from the client
    map and the pass appends the MACs its snapshot offers that the map no
    longer holds: a tracker removed is in the map afterwards exactly when the
    snapshot still offers its MAC, and then as a new client, after the
    clients kept, the signal for new devices having been sent. *)
Theorem remove_trackers_readds_offered (entities : list RegValue)
    (snapshot : list (string * ClientInfo)) (w w' : World) :
  Forall (λ v, v ≠ Entry None) entities →
  NoDup (client_keys w) →
  remove_trackers (Some (Some entities)) (Fetched snapshot) w = (Ret tt, w') →
  let kept := filter (λ k, k ∉ macs_of entities) (client_keys w) in
  ∃ new : list string,
    client_keys w' = kept ++ new ∧
    NoDup (client_keys w') ∧
    (∀ mac, mac ∈ new ↔ (mac ∉ kept) ∧ offered (dev w) snapshot mac) ∧
    (∀ mac, mac ∈ macs_of entities →
       (mac ∈ client_keys w' ↔ offered (dev w) snapshot mac) ∧
       (offered (dev w) snapshot mac →
        mac ∈ new ∧ DispatcherSend signal_device_new ∈ added w w')).
Proof.
  intros Hall Hnd Hrun kept. unfold remove_trackers in Hrun.
  rewrite run_bind_emit in Hrun. cbv beta iota in Hrun.
  set (w0 := after (emit _) w) in Hrun.
  destruct (remove_entities_run entities w0 Hall Hnd) as (logs & Hrem & Hlogs).
  unfold bind at 1 in Hrun. rewrite Hrem in Hrun.
  set (w1 := {| dev := set_clients _ _ |}) in Hrun.
  assert (client_keys w1 = kept) as Hkept.
  { unfold client_keys, w1, kept. simpl. by apply filter_by_key. }
  assert (_options (dev w1) = _options (dev w)) as Hopt by done.
  assert (trace w1 = trace w ++ LogDebug "Removing trackers" :: logs) as Ht1
    by (unfold w1; simpl; by rewrite <- app_assoc).
  pose proof (update_devices_pass snapshot w1 w' Hrun) as [Hnew_nd Hst].
  cbv zeta in Hnew_nd, Hst. rewrite Hkept in Hnew_nd, Hst.
  set (new := filter (λ k, k ∉ kept) _) in *.
  assert (∀ mac, mac ∈ new ↔ (mac ∉ kept) ∧ offered (dev w) snapshot mac)
    as Hnew.
  { intros mac. unfold new. rewrite list_elem_of_filter.
    rewrite (offered_keys (dev w1) snapshot mac). split.
    - intros [? ?]. split; [done|]. by eapply offered_options.
    - intros [? ?]. split; [done|]. by eapply offered_options. }
  destruct Hst as (Hkeys & t & Ht & Hsent).
  exists new. split_and!; [done| |done|].
  - rewrite Hkeys. apply NoDup_app. split_and!; [|by intros mac ? [? _]%Hnew|done].
    unfold kept. by apply NoDup_filter.
  - intros mac Hmac.
    assert (mac ∉ kept) as Hgone.
    { unfold kept. by intros [? _]%list_elem_of_filter. }
    split.
    + rewrite Hkeys, elem_of_app, Hnew. tauto.
    + intros Hoff. assert (mac ∈ new) as Hin by (by apply Hnew).
      split; [done|].
      assert (trace w' = trace w ++ (LogDebug "Removing trackers" :: logs) ++ t)
        as Hall_t by (by rewrite Ht, Ht1, <- app_assoc).
      rewrite (added_app w w' _ Hall_t).
      rewrite bool_decide_eq_true_2 in Hsent.
      2:{ intros Hnil. rewrite Hnil in Hin. by apply elem_of_nil in Hin. }
      assert (DispatcherSend signal_device_new
              ∈ filter (λ e, e = DispatcherSend signal_device_new) t) as Hf
        by (rewrite Hsent; apply list_elem_of_here).
      apply list_elem_of_filter in Hf as [_ Hf].
      apply elem_of_app. by right.
Qed.

(** X13. An entity whose registry entry has no MAC among its capabilities
    stops the removal with [KeyError]: the trackers listed before it have
    been removed, the ones listed after it have not, and no client pass is
    run (nothing but debug messages is added to the trace). A call
    without the keyword [raw], or with [None] for it, does nothing beyond
    the first debug message; a call whose [raw] has no entities, the key
    missing or the list empty, removes nothing and runs the client pass. *)
Theorem remove_trackers_key_error (before rest : list RegValue)
    (fetched : fetch ClientInfo) (w : World) :
  Forall (λ v, v ≠ Entry None) before →
  NoDup (client_keys w) →
  let run := remove_trackers (Some (Some (before ++ Entry None :: rest))) fetched in
  result run w = Raise KeyError ∧
  dev (after run w)
  = set_clients (filter (λ kv, kv.1 ∉ macs_of before) (_clients (dev w))) (dev w) ∧
  trace w `prefix_of` trace (after run w) ∧
  Forall is_debug (added w (after run w)) ∧
  remove_trackers None fetched w
  = (Ret tt, after (emit (LogDebug "Removing trackers")) w) ∧
  ∀ entities, entities = None ∨ entities = Some [] →
    remove_trackers (Some entities) fetched w
    = update_devices fetched (after (emit (LogDebug "Removing trackers")) w).
Proof.
  intros Hall Hnd run.
  assert (∀ w0, NoDup (client_keys w0) →
            ∃ logs,
              remove_entities (before ++ Entry None :: rest) w0
              = (Raise KeyError,
                 {| dev := set_clients
                             (filter (λ kv, kv.1 ∉ macs_of before)
                                (_clients (dev w0))) (dev w0);
                    trace := trace w0 ++ logs; clock := clock w0;
                    tick := tick w0 |}) ∧
              Forall is_debug logs) as Hloop.
  { intros w0 Hnd0.
    destruct (remove_entities_run before w0 Hall Hnd0) as (logs & Hrun & Hlogs).
    exists logs. split; [|done].
    rewrite remove_entities_app. unfold bind. by rewrite Hrun. }
  unfold run, result, after, remove_trackers.
  rewrite run_bind_emit. cbv beta iota.
  destruct (Hloop (after (emit (LogDebug "Removing trackers")) w) Hnd)
    as (logs & Hrun & Hlogs).
  rewrite !(run_bind_raise _ _ _ _ _ Hrun). simpl.
  rewrite <- app_assoc. split_and!; try done.
  - by apply prefix_app_r.
  - unfold added. simpl. rewrite drop_app_length. by constructor.
  - by intros entities [->| ->].
Qed.
End removal.

(** ** What the sensors read after a pass and after the setup *)

Section sensors_after.
Context `{Consts} `{Entities}.

(** Whenever [_update_unpolled_sensors] leaves a handler and the two
    coordinators, the handler holds what the device holds. *)
Lemma update_unpolled_sensors_current :
  ensures (λ r w', ∀ h',
             _sensor_handler (dev w') = Some h' →
             AIMESH ∈ _sensor_coordinator (dev w') →
             DEVICES ∈ _sensor_coordinator (dev w') →
             sensors_current (dev w') h')
    _update_unpolled_sensors.
Proof.
  intros w h' Hh' Haimesh Hdevices.
  destruct (_sensor_handler (dev w)) as [h|] eqn:Hh.
  2:{ assert (_update_unpolled_sensors w = (Ret tt, w)) as Hrun.
      { unfold _update_unpolled_sensors, bind, get_dev. simpl. by rewrite Hh. }
      unfold after in Hh'. rewrite Hrun in Hh'. simpl in Hh'. congruence. }
  pose proof (update_unpolled_sensors_run w h Hh) as Hrun. simpl in Hrun.
  unfold after in *. rewrite Hrun in *. simpl in *.
  rewrite !bool_decide_eq_true_2 in Hh' by done.
  rewrite !bool_decide_eq_true_2 by done.
  injection Hh' as <-.
  set (d := dev w) in *.
  destruct (update_aimesh_publishes d h) as [Ha Hs].
  match goal with |- context [update_clients _ ?h1 _ _ _] =>
    destruct (update_clients_publishes d h1) as [Hc Ha'] end.
  apply (sensors_current_ext d); [done|done|].
  apply sensors_current_published; [exact Hc|]. by rewrite Ha'.
Qed.

(** X14. After a client pass that returns, the sensor handler and the two
    coordinators being there, the sensors read the values the device holds:
    the clients count and list the pass has recomputed, the history and the
    latest connection time, and the nodes count and list the device has from
    its last node pass. *)
Theorem update_devices_publishes (snapshot : list (string * ClientInfo))
    (w w' : World) :
  is_Some (_sensor_handler (dev w)) →
  AIMESH ∈ _sensor_coordinator (dev w) →
  DEVICES ∈ _sensor_coordinator (dev w) →
  update_devices (Fetched snapshot) w = (Ret tt, w') →
  ∃ h',
    _sensor_handler (dev w') = Some h' ∧
    sensors_current (dev w') h' ∧
    _sensor_coordinator (dev w') = _sensor_coordinator (dev w).
Proof.
  intros Hh Haimesh Hdevices Hrun.
  set (I := λ d : ARDevice,
         is_Some (_sensor_handler d) ∧
         _sensor_coordinator d = _sensor_coordinator (dev w)).
  assert (writes I (λ _, True) (update_devices (Fetched snapshot))) as Hwrites.
  { apply writes_update_devices; try done.
    - unfold I. by intros d d' _ -> ->.
    - unfold _update_unpolled_sensors.
      writes_with fail ltac:(first [done | by intros d' [? ?]]). }
  destruct (writes_run _ _ _ _ _ _ Hwrites (conj Hh eq_refl) Hrun)
    as [[[h' Hh'] Hcoord] _].
  exists h'. split; [done|]. split; [|done].
  assert (ensures (λ (r : outcome unit) w', r = Ret tt → ∀ h',
                     _sensor_handler (dev w') = Some h' →
                     AIMESH ∈ _sensor_coordinator (dev w') →
                     DEVICES ∈ _sensor_coordinator (dev w') →
                     sensors_current (dev w') h')
            (update_devices (Fetched snapshot))) as Hens.
  { unfold update_devices.
    do 14 (apply ensures_bind; [done|intros]).
    intros w0 _. apply update_unpolled_sensors_current. }
  specialize (Hens w). rewrite (after_run _ _ _ _ Hrun) in Hens.
  apply Hens; [by rewrite (result_run _ _ _ _ Hrun)|done| |];
    by rewrite Hcoord.
Qed.
End sensors_after.

Section setup_theorems.
Context `{Consts} `{Entities} `{Handler.Names}.

(** Before the sensor handler exists the passes ask for no refresh and
    leave the handler and the coordinators as they are. *)
Lemma writes_passes_unpublished (coordinators : list SensorType)
    (nodes : fetch NodeInfo) (clients : fetch ClientInfo) :
  let I := λ d : ARDevice,
    _sensor_handler d = None ∧ _sensor_coordinator d = coordinators in
  let P := λ e : Effect, ¬ is_refresh e in
  writes I P (update_nodes nodes) ∧ writes I P (update_devices clients).
Proof.
  intros I P.
  assert (∀ d d' : ARDevice,
            _options d' = _options d → _sensor_handler d' = _sensor_handler d →
            _sensor_coordinator d' = _sensor_coordinator d → I d → I d')
    as I_frame by (unfold I; by intros d d' _ -> ->).
  assert (∀ msg, P (LogDebug msg)) as P_debug by (by intros msg []).
  assert (∀ (d : ARDevice) event args,
            I d → opt_event (_options d) event = true → P (BusFire event args))
    as P_fire by (by intros d event args _ _ []).
  split.
  - apply writes_update_nodes; try done; by intros [].
  - apply writes_update_devices; try done; try (by intros []).
    unfold _update_unpolled_sensors.
    apply writes_get_dev_bind. intros d [Hd _]. rewrite Hd. apply writes_ret.
Qed.

(** Assignments under keys that are new and differ append them. *)
Lemma key_sets_fresh (types keys : list SensorType) :
  NoDup (keys ++ types) → key_sets types keys = keys ++ types.
Proof.
  revert keys. induction types as [|t types IH]; intros keys Hnd.
  { by rewrite app_nil_r. }
  unfold key_sets in *. simpl. unfold key_set at 2.
  rewrite decide_False.
  2:{ apply NoDup_app in Hnd as (_ & Hnot & _). intros Hin.
      apply (Hnot _ Hin), list_elem_of_here. }
  rewrite IH; rewrite <- app_assoc; done.
Qed.

(** The sensor types a coordinator is asked for differ when the keys of the
    bridge's dictionary do. *)
Lemma registered_NoDup (sensors : list (string * SensorDefinition)) (b : bool) :
  NoDup sensors.*1 →
  NoDup (bridge_types sensors ++ (if b then [DEVICES; AIMESH] else [])).
Proof.
  intros Hnd.
  assert (NoDup (bridge_types sensors)) as Hbridge.
  { unfold bridge_types. apply NoDup_fmap_2; [by intros ?? [=]|].
    clear -Hnd. induction sensors as [|[name definition] sensors IH]; [constructor|].
    simpl in Hnd. apply NoDup_cons in Hnd as [Hnot Hnd].
    destruct (def_sensors definition) eqn:Hnames.
    - rewrite filter_cons_True by done. simpl. apply NoDup_cons. split; [|auto].
      intros Hin. apply Hnot. apply list_elem_of_fmap in Hin as (item & -> & Hin).
      apply list_elem_of_filter in Hin as [_ Hin].
      apply list_elem_of_fmap. by exists item.
    - rewrite filter_cons_False by (simpl; congruence). auto. }
  destruct b; [|by rewrite app_nil_r].
  apply NoDup_app. split; [done|]. split.
  - intros t Hin Hown. unfold bridge_types in Hin.
    apply list_elem_of_fmap in Hin as (name & -> & _).
    apply elem_of_cons in Hown as [?|Hown]; [done|].
    by apply list_elem_of_singleton in Hown.
  - apply NoDup_cons. split; [|apply NoDup_singleton].
    by intros ?%list_elem_of_singleton.
Qed.

(** The refreshes among the records of the coordinators made. *)
Lemma filter_refresh_made (types : list SensorType) :
  filter is_refresh (types ≫= coordinator_made) = Refresh <$> types.
Proof.
  induction types as [|t types IH]; [done|].
  rewrite bind_cons, filter_app, IH. done.
Qed.

(** X15. The setup, from its passes on, when it returns. The sensor
    handler, which did not exist, is created after the passes and holds what
    they left in the device, so that the sensors read the values the device
    holds. The bridge has come back with its sensors, and a coordinator was
    made, refreshed once and saved for each of its sensor types that hold
    sensor names and then, in router, access-point and media-bridge mode,
    for the devices and for the AiMesh sensors, in that order; these are
    all the refreshes of the setup, its passes asking for none, and the
    coordinators of a device that had none. In AiMesh-node mode no pass is
    run: the maps, the history and the aggregate values stay as they were
    and none of the two coordinators of the device is made. *)
Theorem setup_publishes (nodes : fetch NodeInfo) (clients : fetch ClientInfo)
    (discovery : Discovery) (w w' : World) :
  _sensor_handler (dev w) = None →
  setup nodes clients discovery w = (Ret tt, w') →
  (∃ h, _sensor_handler (dev w') = Some h ∧ sensors_current (dev w') h) ∧
  trace w `prefix_of` trace w' ∧
  ∃ sensors,
    discovery = Available sensors ∧
    if tracking_mode (opt_mode (_options (dev w)))
    then _sensor_coordinator (dev w')
         = key_sets (bridge_types sensors ++ [DEVICES; AIMESH])
             (_sensor_coordinator (dev w)) ∧
         (_sensor_coordinator (dev w) = [] → NoDup sensors.*1 →
          _sensor_coordinator (dev w') = bridge_types sensors ++ [DEVICES; AIMESH]) ∧
         filter is_refresh (added w w')
         = Refresh <$> bridge_types sensors ++ [DEVICES; AIMESH]
    else _sensor_coordinator (dev w')
         = key_sets (bridge_types sensors) (_sensor_coordinator (dev w)) ∧
         (_sensor_coordinator (dev w) = [] → NoDup sensors.*1 →
          _sensor_coordinator (dev w') = bridge_types sensors) ∧
         reconciled_state (dev w')
         = reconciled_state (set_sensor_handler (_sensor_handler (dev w')) (dev w)) ∧
         filter is_refresh (added w w') = Refresh <$> bridge_types sensors.
Proof.
  intros Hh Hrun. unfold setup in Hrun. rewrite run_bind_get_dev in Hrun.
  set (mode := opt_mode (_options (dev w))) in *.
  assert (∀ w2 t,
            _sensor_handler (dev w2) = None →
            trace w2 = trace w ++ t →
            filter is_refresh t = [] →
            _options (dev w2) = _options (dev w) →
            _sensor_coordinator (dev w2) = _sensor_coordinator (dev w) →
            _init_sensor_coordinators discovery w2 = (Ret tt, w') →
            (∃ h, _sensor_handler (dev w') = Some h ∧ sensors_current (dev w') h) ∧
            trace w `prefix_of` trace w' ∧
            ∃ sensors,
              discovery = Available sensors ∧
              let types :=
                bridge_types sensors
                ++ (if tracking_mode mode then [DEVICES; AIMESH] else []) in
              _sensor_coordinator (dev w')
              = key_sets types (_sensor_coordinator (dev w)) ∧
              (_sensor_coordinator (dev w) = [] → NoDup sensors.*1 →
               _sensor_coordinator (dev w') = types) ∧
              filter is_refresh (added w w') = Refresh <$> types ∧
              reconciled_state (dev w')
              = reconciled_state
                  (set_sensor_handler (_sensor_handler (dev w')) (dev w2)))
    as Hinit.
  { intros w2 t Hh2 Ht Hquiet Hopt Hcoord Hini.
    destruct (init_sensor_coordinators_returned discovery w2 w' Hh2 Hini)
      as (sensors & h & -> & Hcur & _ & Hw').
    cbv zeta in Hw'. rewrite with_sensors_available, Hopt in Hw'.
    fold mode in Hw'.
    set (types := bridge_types sensors ++ _) in Hw'.
    clear Hrun Hini. subst w'. split_and!.
    - exists h. split; [done|].
      by apply (sensors_current_ext (dev w2)).
    - simpl. rewrite Ht, <- app_assoc. by apply prefix_app_r.
    - exists sensors. split; [done|]. fold types. cbv zeta.
      assert (_sensor_coordinator (dev (with_coordinators types
                (with_dev (set_sensor_handler (Some h) (dev w2)) w2)))
              = key_sets types (_sensor_coordinator (dev w))) as Hkeys
        by (simpl; by rewrite Hcoord).
      split_and!.
      + exact Hkeys.
      + intros Hnone Hnd. rewrite Hkeys, Hnone.
        apply (key_sets_fresh types []). simpl. by apply registered_NoDup.
      + erewrite added_app by (simpl; rewrite Ht, <- app_assoc; done).
        by rewrite filter_app, Hquiet, filter_refresh_made.
      + done. }
  destruct (tracking_mode mode) eqn:Hmode.
  - rewrite run_bind_assoc in Hrun.
    apply run_bind_inv in Hrun as ([] & w1 & Hnodes & Hrun).
    apply run_bind_inv in Hrun as ([] & w2 & Hclients & Hrun).
    destruct (writes_passes_unpublished (_sensor_coordinator (dev w))
                nodes clients) as [Hwn Hwc].
    destruct (writes_run _ _ _ _ _ _ Hwn (conj Hh eq_refl) Hnodes)
      as ([Hh1 Hc1] & t1 & Ht1 & Hq1).
    destruct (writes_run _ _ _ _ _ _ Hwc (conj Hh1 Hc1) Hclients)
      as ([Hh2 Hc2] & t2 & Ht2 & Hq2).
    assert (_options (dev w2) = _options (dev w)) as Hopt.
    { transitivity (_options (dev w1)).
      - apply (steps_run (keeps _options) _ _ _ _
                 (steps_update_devices (keeps _options)
                    ltac:(done) ltac:(done) ltac:(done) ltac:(done)
                    ltac:(done) ltac:(done) ltac:(done) clients) Hclients).
      - apply (steps_run (keeps _options) _ _ _ _
                 (steps_update_nodes (keeps _options)
                    ltac:(done) ltac:(done) ltac:(done) ltac:(done) nodes)
                 Hnodes). }
    destruct (Hinit w2 (t1 ++ t2))
      as (Hcur & Hprefix & sensors & -> & Hkeys & Hfresh & Hrefresh & _);
      [done|by rewrite Ht2, Ht1, app_assoc| |done|done|done|].
    { rewrite filter_app.
      assert (∀ t, Forall (λ e, ¬ is_refresh e) t → filter is_refresh t = [])
        as Hnone.
      { induction 1 as [|e t He _ IH]; [done|]. by rewrite filter_cons_False. }
      by rewrite (Hnone _ Hq1), (Hnone _ Hq2). }
    split; [done|]. split; [done|]. by exists sensors.
  - rewrite run_bind_emit in Hrun.
    set (log := LogDebug "Device is in AiMesh node mode. Device tracking and AiMesh monitoring is disabled") in *.
    destruct (Hinit (after (emit log) w) [log] Hh eq_refl eq_refl eq_refl
                eq_refl Hrun)
      as (Hcur & Hprefix & sensors & -> & Hkeys & Hfresh & Hrefresh & Hstate).
    cbv zeta in Hkeys, Hfresh, Hrefresh. rewrite app_nil_r in *.
    split; [done|]. split; [done|]. by exists sensors.
Qed.
End setup_theorems.

(** ** Options *)

Section update_options_theorems.
Context (reload : list string).

Lemma py_eq_refl v : py_eq v v = true.
Proof. destruct v; simpl; by rewrite ?bool_decide_eq_true_2. Qed.

Lemma dict_update_other (options : gmap string pyval) items name :
  name ∉ items.*1 → dict_update options items !! name = options !! name.
Proof.
  revert options. induction items as [|[k v] items IH]; intros options Hname;
    [done|].
  csimpl in Hname. apply not_elem_of_cons in Hname as [Hk Hname].
  unfold dict_update in *. simpl. rewrite IH by done.
  by rewrite lookup_insert_ne.
Qed.

Lemma dict_update_given (options : gmap string pyval) items name v :
  NoDup items.*1 → (name, v) ∈ items →
  dict_update options items !! name = Some v.
Proof.
  revert options. induction items as [|[k v'] items IH]; intros options Hnd Hin.
  - by apply elem_of_nil in Hin.
  - csimpl in Hnd. apply NoDup_cons in Hnd as [Hk Hnd].
    change (dict_update options ((k, v') :: items))
      with (dict_update (<[k := v']> options) items).
    apply elem_of_cons in Hin as [[= <- <-]|Hin].
    + rewrite dict_update_other by done. by rewrite lookup_insert_eq.
    + by apply IH.
Qed.

Lemma dict_update_same (options : gmap string pyval) items :
  (∀ name v, (name, v) ∈ items → options !! name = Some v) →
  dict_update options items = options.
Proof.
  induction items as [|[k v] items IH]; intros Hsame; [done|].
  change (dict_update options ((k, v) :: items))
    with (dict_update (<[k := v]> options) items).
  rewrite insert_id by (apply Hsame, list_elem_of_here).
  apply IH. intros name v' Hin. by apply Hsame, list_elem_of_further.
Qed.

Lemma require_reload_spec options new_options :
  require_reload reload options new_options = true ↔
  ∃ name v, (name, v) ∈ new_options ∧ name ∈ reload ∧
    (py_truthy (options_get name PNone options) = false ∨
     py_eq (options_get name PNone options) v = false).
Proof.
  induction new_options as [|[name v] new_options IH]; simpl.
  - split; [done|]. intros (? & ? & Hin & _). by apply elem_of_nil in Hin.
  - case_bool_decide as Hname.
    + destruct (negb (py_truthy _) || negb (py_eq _ v)) eqn:Hchange.
      * split; [|done]. intros _. exists name, v.
        split; [apply list_elem_of_here|]. split; [done|].
        apply orb_true_iff in Hchange as [Ht|He].
        -- left. by apply negb_true_iff.
        -- right. by apply negb_true_iff.
      * apply orb_false_iff in Hchange as [Ht He].
        apply negb_false_iff in Ht, He. rewrite IH. split.
        -- intros (n & v' & Hin & Hrest). exists n, v'.
           split; [by apply list_elem_of_further|done].
        -- intros (n & v' & Hin & Hn & Hor).
           apply elem_of_cons in Hin as [[= -> ->]|Hin]; [|by exists n, v'].
           destruct Hor; congruence.
    + rewrite IH. split.
      * intros (n & v' & Hin & Hrest). exists n, v'.
        split; [by apply list_elem_of_further|done].
      * intros (n & v' & Hin & Hn & Hor).
        apply elem_of_cons in Hin as [[= -> ->]|Hin]; [done|by exists n, v'].
Qed.

(** X16. [update_options] asks for a reload exactly when one of the new
    options is among those that require it and either differs from the value
    the options hold for it or that value is false in Python's sense
    ([None] for an option not yet set, [False], 0, the empty string), in
    which case the new value is not looked at. The options then hold every
    new option with its new value, and the other options as they were. *)
Theorem update_options_reload (options : gmap string pyval)
    (new_options : list (string * pyval)) :
  let updated := update_options reload options new_options in
  (updated.1 = true ↔
   ∃ name v, (name, v) ∈ new_options ∧ name ∈ reload ∧
     (py_truthy (options_get name PNone options) = false ∨
      py_eq (options_get name PNone options) v = false)) ∧
  (∀ name, name ∉ new_options.*1 → updated.2 !! name = options !! name) ∧
  (NoDup new_options.*1 →
   ∀ name v, (name, v) ∈ new_options → updated.2 !! name = Some v).
Proof.
  simpl. split_and!.
  - apply require_reload_spec.
  - intros name. apply dict_update_other.
  - intros Hnd name v. by apply dict_update_given.
Qed.

(** X17. Submitting the options the device already holds changes nothing,
    and yet asks for a reload exactly when an option among them that
    requires a reload has a value that is false in Python's sense: such an
    option asks for a reload on every submission, changed or not. This is
    the case of any second submission of the same options. *)
Theorem update_options_resubmitted (options : gmap string pyval)
    (new_options : list (string * pyval)) :
  NoDup new_options.*1 →
  let held := (update_options reload options new_options).2 in
  let again := update_options reload held new_options in
  again.2 = held ∧
  (again.1 = true ↔
   ∃ name v, (name, v) ∈ new_options ∧ name ∈ reload ∧ py_truthy v = false).
Proof.
  intros Hnd. simpl.
  assert (∀ name v, (name, v) ∈ new_options →
            dict_update options new_options !! name = Some v) as Hheld
    by (intros name v; by apply dict_update_given).
  split; [by apply dict_update_same|].
  rewrite require_reload_spec. split.
  - intros (name & v & Hin & Hname & Hor). exists name, v.
    split_and!; try done. unfold options_get in Hor.
    rewrite (Hheld _ _ Hin) in Hor. destruct Hor as [?|Hne]; [done|].
    by rewrite py_eq_refl in Hne.
  - intros (name & v & Hin & Hname & Hfalse). exists name, v.
    split_and!; try done. left. unfold options_get.
    by rewrite (Hheld _ _ Hin).
Qed.
End update_options_theorems.

(** ** Coordinators *)

Section coordinator_theorems.
Context `{Handler.Names}.
Import Handler.

(** X18. The coordinator [get_coordinator] makes bears the name of the
    sensor type. For the devices and the AiMesh sensors it is never polled,
    whatever the options and whatever method is given, and it is served by
    the handler itself; for any other sensor type it is polled and served
    by the method given, and without a method the call raises
    [RuntimeError], before the options are read. *)
Theorem get_coordinator_polling (options : gmap string pyval)
    (sensor_type : string) (method : option string) :
  (∀ c, get_coordinator options sensor_type method = inr c →
     name c = sensor_type ∧
     if decide (sensor_type = DEVICES)
     then update_interval c = None ∧ update_method c = GetClients
     else if decide (sensor_type = AIMESH)
     then update_interval c = None ∧ update_method c = GetAimesh
     else ∃ m seconds, method = Some m ∧ update_method c = UpdateMethod m ∧
                       update_interval c = Some seconds) ∧
  (sensor_type ≠ DEVICES → sensor_type ≠ AIMESH →
   get_coordinator options sensor_type None = inl RuntimeError).
Proof.
  unfold get_coordinator. split.
  - intros c.
    destruct (decide (sensor_type = DEVICES)), (decide (sensor_type = AIMESH));
      try destruct method as [m|]; try done.
    all: match goal with
         | |- match ?x with _ => _ end = _ → _ =>
             destruct x as [err|seconds]; [done|]
         end.
    all: intros [= <-]; simpl; eauto 10.
  - intros Hd Ha. by rewrite !decide_False.
Qed.

End coordinator_theorems.

(** ** Closing *)

(** X20. Closing calls every function registered through
    [async_on_close] once, in the order of registration, after the bridge
    has been disconnected if it was active, and forgets them: a second
    close disconnects nothing and calls nothing. *)
Theorem close_runs_callbacks_once (self : Closing) (funcs : list OnClose) :
  Forall (λ f, func_raises f = false) (_on_close self ++ funcs) →
  let registered := foldl (λ s f, async_on_close f s) self funcs in
  let closed := {| bridge_active := false; _on_close := [] |} in
  close false registered
  = ((if bridge_active self then [Disconnect] else [])
       ++ (Called ∘ func_name <$> _on_close self ++ funcs),
     false, closed) ∧
  close false closed = ([], false, closed).
Proof.
  intros Hok registered closed. split; [|done].
  assert (bridge_active registered = bridge_active self ∧
          _on_close registered = _on_close self ++ funcs) as [Hactive Hfuncs].
  { unfold registered. clear. revert self.
    induction funcs as [|f funcs IH]; intros self; simpl.
    - by rewrite app_nil_r.
    - destruct (IH (async_on_close f self)) as [-> ->]. simpl.
      by rewrite <- app_assoc. }
  assert (∀ l, Forall (λ f, func_raises f = false) l →
            run_on_close l = (Called ∘ func_name <$> l, false)) as Hrun.
  { induction 1 as [|f l Hf _ IH]; simpl; [done|]. by rewrite Hf, IH. }
  unfold close. rewrite andb_false_r, Hactive, Hfuncs, (Hrun _ Hok).
  done.
Qed.

(** X21. A function that raises interrupts the close: the functions
    registered after it are not called, and nothing is forgotten, so that
    another close calls again the functions that had been called. When the
    disconnection itself raises, no function is called and the bridge stays
    active. *)
Theorem close_interrupted (self : Closing) (before rest : list OnClose)
    (f : OnClose) :
  _on_close self = before ++ f :: rest →
  Forall (λ f, func_raises f = false) before →
  func_raises f = true →
  let calls := Called ∘ func_name <$> before ++ [f] in
  let left := {| bridge_active := false; _on_close := _on_close self |} in
  close false self
  = ((if bridge_active self then [Disconnect] else []) ++ calls, true, left) ∧
  close false left = (calls, true, left) ∧
  (bridge_active self = true → close true self = ([Disconnect], true, self)).
Proof.
  intros Hfuncs Hok Hf calls left.
  assert (run_on_close (_on_close self) = (calls, true)) as Hrun.
  { rewrite Hfuncs. unfold calls. clear -Hok Hf.
    induction Hok as [|g l Hg _ IH]; simpl.
    - by rewrite Hf.
    - by rewrite Hg, IH. }
  unfold close. simpl. rewrite andb_false_r, Hrun. split_and!; try done.
  by intros ->.
Qed.

(** ** The ports data of the bridge *)

Lemma string_length_app (s1 s2 : string) :
  String.length (s1 +:+ s2) = (String.length s1 + String.length s2)%nat.
Proof. induction s1 as [|a s1 IH]; simpl; [done|]. by rewrite IH. Qed.

Lemma string_app_inj_l (s1 s2 t : string) : s1 +:+ t = s2 +:+ t → s1 = s2.
Proof.
  revert s2. induction s1 as [|a s1 IH]; intros [|b s2] Heq; simpl in Heq.
  - done.
  - apply (f_equal String.length) in Heq.
    rewrite ?string_length_app in Heq. simpl in Heq.
    rewrite ?string_length_app in Heq. lia.
  - apply (f_equal String.length) in Heq.
    rewrite ?string_length_app in Heq. simpl in Heq.
    rewrite ?string_length_app in Heq. lia.
  - injection Heq as -> Heq. f_equal. by apply IH.
Qed.

Section ports_theorems.
Context `{Bridge.Names}.
Import Bridge.

Lemma list_key_inj port_type port_type' :
  list_key port_type = list_key port_type' → port_type = port_type'.
Proof. apply string_app_inj_l. Qed.

Lemma list_key_other port_type : list_key port_type ≠ port_type.
Proof.
  unfold list_key. intros Heq. apply (f_equal String.length) in Heq.
  rewrite !string_length_app in Heq. simpl in Heq. lia.
Qed.

(** The loop over the ports of a type whose list has been created. *)
Lemma copy_ports_spec port_type items data ports :
  data !! list_key port_type = Some (PortList ports) →
  ∃ data',
    copy_ports port_type items data = inr data' ∧
    data' !! list_key port_type
    = Some (PortList (foldl (λ ports item, <[item.1 := item.2]> ports)
                        ports items)) ∧
    data' !! port_type
    = (if some_port_up items then Some (PortFlag true) else data !! port_type) ∧
    ∀ k, k ≠ port_type → k ≠ list_key port_type → data' !! k = data !! k.
Proof.
  revert data ports.
  induction items as [|[port_number port_description] items IH];
    intros data ports Hlist; simpl.
  - by exists data.
  - pose proof (list_key_other port_type) as Hne.
    set (data1 := if truthy _ then _ else data).
    assert (data1 !! list_key port_type = Some (PortList ports)) as Hlist1.
    { unfold data1. destruct (truthy _); [|done].
      by rewrite lookup_insert_ne. }
    rewrite Hlist1.
    destruct (IH (<[list_key port_type :=
                      PortList (<[port_number := port_description]> ports)]> data1)
                (<[port_number := port_description]> ports))
      as (data' & Hrun & Hl & Hf & Hother); [by rewrite lookup_insert_eq|].
    exists data'. split_and!; [done|done| |].
    + rewrite Hf, lookup_insert_ne by done. unfold data1.
      destruct (truthy _); simpl; [|done].
      rewrite lookup_insert_eq. by destruct (some_port_up items).
    + intros k Hk Hk'. rewrite Hother, lookup_insert_ne by done.
      unfold data1. destruct (truthy _); [|done]. by rewrite lookup_insert_ne.
Qed.

(** The loop over the port types, from data that has no list for them. *)
Lemma process_port_types_spec raw port_types data :
  (∀ p p', p ∈ port_types → p' ∈ port_types → p ≠ list_key p') →
  NoDup port_types →
  (∀ p, p ∈ port_types → data !! list_key p = None) →
  ∃ data',
    process_port_types raw port_types data = inr data' ∧
    (∀ p, p ∈ port_types →
       data' !! p
       = Some (PortFlag (default false (some_port_up <$> raw !! p))) ∧
       data' !! list_key p = PortList ∘ ports_of_items <$> raw !! p) ∧
    ∀ k, (∀ p, p ∈ port_types → k ≠ p ∧ k ≠ list_key p) →
         data' !! k = data !! k.
Proof.
  revert data.
  induction port_types as [|port_type port_types IH];
    intros data Hapart Hnd Hnone; simpl.
  - exists data. split_and!; [done| |done].
    intros p Hp. by apply elem_of_nil in Hp.
  - apply NoDup_cons in Hnd as [Hfresh Hnd].
    pose proof (list_key_other port_type) as Hne.
    assert (∃ data2,
              (match raw !! port_type with
               | None =>
                   process_port_types raw port_types
                     (<[port_type := PortFlag false]> data)
               | Some ports_by_type =>
                   match copy_ports port_type ports_by_type
                           (<[list_key port_type := PortList ∅]>
                              (<[port_type := PortFlag false]> data)) with
                   | inl e => inl e
                   | inr data => process_port_types raw port_types data
                   end
               end = process_port_types raw port_types data2) ∧
              data2 !! port_type
              = Some (PortFlag (default false (some_port_up <$> raw !! port_type))) ∧
              data2 !! list_key port_type
              = PortList ∘ ports_of_items <$> raw !! port_type ∧
              ∀ k, k ≠ port_type → k ≠ list_key port_type →
                   data2 !! k = data !! k)
      as (data2 & -> & Hflag & Hlist & Hother).
    { destruct (raw !! port_type) as [ports_by_type|]; simpl.
      - destruct (copy_ports_spec port_type ports_by_type
                    (<[list_key port_type := PortList ∅]>
                       (<[port_type := PortFlag false]> data)) ∅)
          as (data2 & Hrun & Hl & Hf & Hother); [by rewrite lookup_insert_eq|].
        exists data2. rewrite Hrun. split_and!; [done| |done|].
        + rewrite Hf, lookup_insert_ne, lookup_insert_eq by done.
          by destruct (some_port_up ports_by_type).
        + intros k Hk Hk'. by rewrite Hother, !lookup_insert_ne.
      - exists (<[port_type := PortFlag false]> data).
        split_and!; [done|by rewrite lookup_insert_eq| |].
        + rewrite lookup_insert_ne by done. apply Hnone, list_elem_of_here.
        + intros k Hk _. by rewrite lookup_insert_ne. }
    destruct (IH data2) as (data' & Hrun & Hspec & Hframe).
    { intros p p' Hp Hp'.
      apply Hapart; by apply list_elem_of_further. }
    { done. }
    { intros p Hp. rewrite Hother.
      - by apply Hnone, list_elem_of_further.
      - intros Heq. apply (Hapart port_type p); [apply list_elem_of_here| |done].
        by apply list_elem_of_further.
      - intros Heq%list_key_inj. by subst. }
    exists data'. split_and!; [done| |].
    + intros p [->|Hp]%elem_of_cons; [|by apply Hspec].
      assert (data' !! port_type = data2 !! port_type) as ->.
      { apply Hframe. intros p Hp. split; [by intros ->|].
        intros Heq. apply (Hapart port_type p); [apply list_elem_of_here| |done].
        by apply list_elem_of_further. }
      assert (data' !! list_key port_type = data2 !! list_key port_type) as ->.
      { apply Hframe. intros p Hp. split.
        - intros Heq. apply (Hapart p port_type); [|apply list_elem_of_here|done].
          by apply list_elem_of_further.
        - intros Heq%list_key_inj. by subst. }
      done.
    + intros k Hk. rewrite Hframe.
      * destruct (Hk port_type (list_elem_of_here _ _)) as [? ?].
        by apply Hother.
      * intros p Hp. by apply Hk, list_elem_of_further.
Qed.

(** X22. When the port types of const.py are distinct and none of them is
    the list key of a port type, [_process_data_ports] returns, for every
    port type, the flag [True] exactly when the device reports a port of
    that type whose state is true ([False] when it reports none, or nothing
    for the type), and under the list key of the type the ports the device
    reports for it, by number; a type the device does not report has no
    list. *)
Theorem process_data_ports_flags (raw : gmap string (list (Z * identity))) :
  keys_apart → NoDup LIST_PORTS →
  ∃ data,
    _process_data_ports raw = inr data ∧
    ∀ port_type, port_type ∈ LIST_PORTS →
      data !! port_type
      = Some (PortFlag (default false (some_port_up <$> raw !! port_type))) ∧
      data !! list_key port_type
      = PortList ∘ ports_of_items <$> raw !! port_type.
Proof.
  intros Hapart Hnd.
  destruct (process_port_types_spec raw LIST_PORTS ∅ Hapart Hnd)
    as (data & Hrun & Hspec & _); [done|].
  by exists data.
Qed.

Lemma process_sensors_ports_elem raw k :
  k ∈ _process_sensors_ports raw
  ↔ ∃ p, p ∈ LIST_PORTS ∧ (k = p ∨ k = list_key p).
Proof.
  unfold _process_sensors_ports.
  assert (∀ acc,
            k ∈ foldl (λ sensors port_type,
                         (sensors ++ [port_type]) ++ [list_key port_type])
                  acc LIST_PORTS
            ↔ k ∈ acc ∨ ∃ p, p ∈ LIST_PORTS ∧ (k = p ∨ k = list_key p)) as Hgen.
  { induction LIST_PORTS as [|p ports IH]; intros acc; simpl.
    - split; [by left|]. intros [?|(? & Hin & _)]; [done|].
      by apply elem_of_nil in Hin.
    - rewrite IH, !elem_of_app, !list_elem_of_singleton. split.
      + intros [[[?|Hk]|Hk]|(q & Hq & Hk)].
        * by left.
        * right. exists p. split; [apply list_elem_of_here|by left].
        * right. exists p. split; [apply list_elem_of_here|by right].
        * right. exists q. split; [by apply list_elem_of_further|done].
      + intros [?|(q & Hq & Hk)]; [by do 3 left|].
        apply elem_of_cons in Hq as [Heq|Hq].
        * subst q. destruct Hk as [Hk|Hk]; [left; left; by right|left; by right].
        * right. by exists q. }
  rewrite Hgen. split; [|by right].
  intros [Hin|?]; [by apply elem_of_nil in Hin|done].
Qed.

Lemma copy_ports_keys port_type items data data' k :
  copy_ports port_type items data = inr data' →
  is_Some (data' !! k) →
  is_Some (data !! k) ∨ k = port_type ∨ k = list_key port_type.
Proof.
  revert data. induction items as [|[port_number port_description] items IH];
    intros data Hrun Hk; simpl in Hrun.
  - injection Hrun as <-. by left.
  - set (data1 := if truthy _ then _ else data) in Hrun.
    destruct (data1 !! list_key port_type) as [[|ports]|]; try done.
    destruct (IH _ Hrun Hk) as [Hin|?]; [|by right].
    destruct (decide (k = list_key port_type)) as [->|Hne]; [by right; right|].
    rewrite lookup_insert_ne in Hin by done. unfold data1 in Hin.
    destruct (truthy _); [|by left].
    destruct (decide (k = port_type)) as [->|Hne']; [right; by left|].
    rewrite lookup_insert_ne in Hin by done. by left.
Qed.

Lemma process_port_types_keys raw port_types data data' k :
  process_port_types raw port_types data = inr data' →
  is_Some (data' !! k) →
  is_Some (data !! k) ∨ ∃ p, p ∈ port_types ∧ (k = p ∨ k = list_key p).
Proof.
  revert data. induction port_types as [|port_type port_types IH];
    intros data Hrun Hk; simpl in Hrun.
  - injection Hrun as <-. by left.
  - assert (∀ data2,
              (is_Some (data2 !! k) →
               is_Some (data !! k) ∨ k = port_type ∨ k = list_key port_type) →
              process_port_types raw port_types data2 = inr data' →
              is_Some (data !! k)
              ∨ ∃ p, p ∈ port_type :: port_types ∧ (k = p ∨ k = list_key p))
      as Hstep.
    { intros data2 Hkeys Hrun2.
      destruct (IH _ Hrun2 Hk) as [Hin|(p & Hp & Hkp)].
      - destruct (Hkeys Hin) as [?|Hor]; [by left|].
        right. exists port_type. split; [apply list_elem_of_here|done].
      - right. exists p. split; [by apply list_elem_of_further|done]. }
    assert (is_Some (<[port_type := PortFlag false]> data !! k) →
            is_Some (data !! k) ∨ k = port_type ∨ k = list_key port_type)
      as Hfirst.
    { intros Hin. destruct (decide (k = port_type)) as [->|Hne];
        [right; by left|].
      rewrite lookup_insert_ne in Hin by done. by left. }
    destruct (raw !! port_type) as [ports_by_type|].
    + destruct (copy_ports _ _ _) as [e|data2] eqn:Hcopy; [done|].
      apply (Hstep data2); [|done]. intros Hin.
      destruct (copy_ports_keys _ _ _ _ _ Hcopy Hin) as [Hin'|?]; [|by right].
      destruct (decide (k = list_key port_type)) as [->|Hne];
        [by right; right|].
      rewrite lookup_insert_ne in Hin' by done. by apply Hfirst.
    + by apply (Hstep _ Hfirst).
Qed.

(** X23. The sensors [_process_sensors_ports] announces cover the data
    [_process_data_ports] returns: every key of the data is among them, and
    every port type of const.py is announced with its list and has its flag
    in the data. The list of a port type is announced whether or not the
    device reports the type. *)
Theorem ports_sensors_cover_data (raw : gmap string (list (Z * identity)))
    (data : gmap string PortData) :
  _process_data_ports raw = inr data →
  (∀ k, is_Some (data !! k) → k ∈ _process_sensors_ports raw) ∧
  (∀ port_type, port_type ∈ LIST_PORTS →
     port_type ∈ _process_sensors_ports raw ∧
     list_key port_type ∈ _process_sensors_ports raw) ∧
  length (_process_sensors_ports raw) = (2 * length LIST_PORTS)%nat.
Proof.
  intros Hrun. split_and!.
  - intros k Hk. apply process_sensors_ports_elem.
    destruct (process_port_types_keys _ _ _ _ _ Hrun Hk) as [Hin|?]; [|done].
    rewrite lookup_empty in Hin. by destruct Hin.
  - intros p Hp. split; apply process_sensors_ports_elem; exists p; auto.
  - unfold _process_sensors_ports. clear.
    assert (∀ acc,
              length (foldl (λ sensors port_type,
                               (sensors ++ [port_type]) ++ [list_key port_type])
                        acc LIST_PORTS)
              = (length acc + 2 * length LIST_PORTS)%nat) as Hgen.
    { induction LIST_PORTS as [|p ports IH]; intros acc; simpl; [lia|].
      rewrite IH, !length_app. simpl. lia. }
    by rewrite Hgen.
Qed.
End ports_theorems.

(** ** More concrete runs *)

Section more_runs.
#[local] Existing Instance SpecEntities.consts.
#[local] Existing Instance SpecEntities.entities.
#[local] Existing Instance SpecNames.handler_names.
#[local] Existing Instance SpecNames.bridge_names.
Import SpecEntities SpecNames.

(** Closes a goal made of equations between closed terms. *)
Ltac eval_tac :=
  intros; split_and?; vm_compute; first [reflexivity | discriminate].

(** Recording A connected at 10 in an empty history with room for five
    makes 10 the latest connection time. *)
Lemma latest_connected_of_recorded_witness :
  let w := world (ARDevice_init (options 5)) in
  truthy (dict_get MAC (ident "A" 10)) = true ∧
  1 ≤ maximum w ∧
  _latest_connected (dev (after (connected_device (ident "A" 10)) w))
  = VDatetime 10.
Proof.
  intros w. split; [reflexivity|]. split; [eval_tac|].
  destruct (latest_connected_of_recorded (ident "A" 10) w) as [Hlatest _];
    [reflexivity|].
  rewrite Hlatest by eval_tac. reflexivity.
Defined.

(** With no event enabled, a client pass that finds the new connected
    client X fires no "device_connected" event. *)
Lemma disabled_event_never_fired_witness :
  let w := world (ARDevice_init (options 5)) in
  let pass := update_devices (Fetched [("X", snapshot_record true)]) in
  opt_event (_options (dev w)) "device_connected" = false ∧
  ∀ args, BusFire "device_connected" args ∉ added w (after pass w).
Proof.
  intros w pass. split; [reflexivity|].
  destruct (disabled_event_never_fired "device_connected" w
              (Fetched [("X", snapshot_record true)]) (Fetched []) None
              (Available []) pass)
    as (_ & Hnone & _); [reflexivity|apply list_elem_of_here|].
  exact Hnone.
Defined.

(** Three cycles in which both fetches fail log one error. *)
Lemma failure_streak_logged_once_witness :
  let w := world (ARDevice_init (options 5)) in
  let streak := cycles 3 (UpdateFailed "timeout") (UpdateFailed "timeout") in
  tracking_mode (opt_mode (_options (dev w))) = true ∧
  _connect_error (dev w) = false ∧
  filter is_error (added w (after streak w))
  = [LogError "Error connecting to '%s' for device update: %s"].
Proof.
  intros w streak. split; [reflexivity|]. split; [reflexivity|].
  destruct (failure_streak_logged_once 2 "timeout" "timeout" w)
    as (_ & _ & Hone & _); [reflexivity|reflexivity|].
  exact Hone.
Defined.

(** A fresh router in router mode whose bridge has found sensors of the
    CPU and none of the LED: the coordinators of the CPU, of the devices and
    of the AiMesh sensors are made, logged, refreshed and saved in that
    order. With a scan interval that is no number the first coordinator
    cannot be made: the call raises [TypeError] with the handler created and
    no coordinator saved. *)
Lemma init_sensor_coordinators_publishes_witness :
  let found := Available [("cpu", sensors (Some "_get_data_cpu"));
                          ("led", no_sensors "_get_data_led")] in
  let w := world (ARDevice_init (options 5)) in
  let w' := after (_init_sensor_coordinators found) w in
  let wrong :=
    world (ARDevice_init (options_with {[ "scan_interval" := PStr "often" ]})) in
  let wrong' := after (_init_sensor_coordinators found) wrong in
  (_sensor_handler (dev w) = None ∧
   result (_init_sensor_coordinators found) w = Ret tt ∧
   _sensor_coordinator (dev w') = [Sensor "cpu"; DEVICES; AIMESH] ∧
   trace w' = coordinator_made (Sensor "cpu") ++ coordinator_made DEVICES
              ++ coordinator_made AIMESH ∧
   ∃ h, _sensor_handler (dev w') = Some h ∧ sensors_current (dev w') h) ∧
  (_sensor_handler (dev wrong) = None ∧
   result (_init_sensor_coordinators found) wrong = Raise TypeError ∧
   _sensor_coordinator (dev wrong') = [] ∧
   trace wrong' = [] ∧
   ∃ h, _sensor_handler (dev wrong') = Some h ∧ sensors_current (dev wrong') h).
Proof.
  intros found w w' wrong wrong'.
  assert (_sensor_handler (dev w) = None) as Hnone by reflexivity.
  assert (_sensor_handler (dev wrong) = None) as Hnone' by reflexivity.
  split.
  - destruct (init_sensor_coordinators_publishes found w Hnone)
      as (Hcurrent & _ & (_ & Hmade & _) & _).
    destruct Hmade as [Hres Hpair].
    { repeat constructor; eexists; vm_compute; reflexivity. }
    fold w' in Hcurrent, Hpair.
    apply pair_equal_spec in Hpair as [Hkeys Htrace].
    split; [exact Hnone|]. split; [exact Hres|].
    split; [rewrite Hkeys; reflexivity|].
    split; [rewrite Htrace; reflexivity|].
    exact Hcurrent.
  - destruct (init_sensor_coordinators_publishes found wrong Hnone')
      as (Hcurrent & _ & (_ & _ & Hfailed) & _).
    destruct (Hfailed [] (Sensor "cpu", sensors (Some "_get_data_cpu"))
                [(DEVICES, own_definition); (AIMESH, own_definition)] TypeError)
      as [Hres Hpair]; [reflexivity|constructor|reflexivity|].
    fold wrong' in Hcurrent, Hpair.
    apply pair_equal_spec in Hpair as [Hkeys Htrace].
    split; [exact Hnone'|]. split; [exact Hres|].
    split; [rewrite Hkeys; reflexivity|].
    split; [rewrite Htrace; reflexivity|].
    exact Hcurrent.
Defined.

(** A pass over a snapshot with the client X adds X to an empty map and
    sends the signal for new devices. *)
Lemma update_devices_tracks_snapshot_witness :
  let w := world (ARDevice_init (options 5)) in
  let snapshot : list (string * ClientInfo) := [("X", snapshot_record true)] in
  let w' := after (update_devices (Fetched snapshot)) w in
  update_devices (Fetched snapshot) w = (Ret tt, w') ∧
  "X" ∈ client_keys w'.
Proof.
  intros w snapshot w'.
  assert (update_devices (Fetched snapshot) w = (Ret tt, w')) as Hrun
    by (rewrite run_eq; f_equal; eval_tac).
  split; [exact Hrun|].
  destruct (update_devices_tracks_snapshot snapshot w w' Hrun)
    as (new & _ & _ & _ & Hall).
  apply Hall. exists "X", (snapshot_record true).
  split; [apply list_elem_of_here|]. split; [reflexivity|]. intros _. reflexivity.
Defined.

(** The same pass sends the signal for new devices: X was not in the
    map. *)
Lemma device_new_signal_iff_new_client_witness :
  let w := world (ARDevice_init (options 5)) in
  let snapshot : list (string * ClientInfo) := [("X", snapshot_record true)] in
  let w' := after (update_devices (Fetched snapshot)) w in
  update_devices (Fetched snapshot) w = (Ret tt, w') ∧
  DispatcherSend signal_device_new ∈ added w w'.
Proof.
  intros w snapshot w'.
  assert (update_devices (Fetched snapshot) w = (Ret tt, w')) as Hrun
    by (rewrite run_eq; f_equal; eval_tac).
  split; [exact Hrun|].
  destruct (device_new_signal_iff_new_client snapshot w w' Hrun)
    as (_ & Hiff & _).
  apply Hiff. exists "X". split; [apply not_elem_of_nil|].
  exists "X", (snapshot_record true).
  split; [apply list_elem_of_here|]. split; [reflexivity|]. intros _. reflexivity.
Defined.

(** A node pass over a snapshot with the node N adds N and sends the signal
    for new nodes. *)
Lemma update_nodes_tracks_snapshot_witness :
  let w := world (ARDevice_init (options 5)) in
  let snapshot : list (string * NodeInfo) := [("N", snapshot_record true)] in
  let w' := after (update_nodes (Fetched snapshot)) w in
  update_nodes (Fetched snapshot) w = (Ret tt, w') ∧
  "N" ∈ node_keys w' ∧
  DispatcherSend signal_aimesh_new ∈ added w w'.
Proof.
  intros w snapshot w'.
  assert (update_nodes (Fetched snapshot) w = (Ret tt, w')) as Hrun
    by (rewrite run_eq; f_equal; eval_tac).
  split; [exact Hrun|].
  destruct (update_nodes_tracks_snapshot snapshot w w' Hrun)
    as (_ & Hall & _ & Hiff & _).
  assert (offered_nodes snapshot "N") as Hoffered.
  { exists "N". split; [apply list_elem_of_here|reflexivity]. }
  split; [by apply Hall|].
  apply Hiff. exists "N". split; [apply not_elem_of_nil|done].
Defined.

(** The tracker of X removed while the router still reports X: X is back in
    the map, as a new client. *)
Lemma remove_trackers_readds_offered_witness :
  let snapshot : list (string * ClientInfo) := [("X", snapshot_record true)] in
  let w := after (update_devices (Fetched snapshot))
             (world (ARDevice_init (options 5))) in
  let run := remove_trackers (Some (Some [Entry (Some "X")])) (Fetched snapshot) in
  let w' := after run w in
  Forall (λ v, v ≠ Entry None) [Entry (Some "X")] ∧
  NoDup (client_keys w) ∧
  run w = (Ret tt, w') ∧
  "X" ∈ client_keys w' ∧
  DispatcherSend signal_device_new ∈ added w w'.
Proof.
  intros snapshot w run w'.
  assert (Forall (λ v, v ≠ Entry None) [Entry (Some "X")]) as Hall
    by (by repeat constructor).
  assert (NoDup (client_keys w)) as Hnd.
  { replace (client_keys w) with ["X"] by eval_tac. apply NoDup_singleton. }
  assert (run w = (Ret tt, w')) as Hrun by (rewrite run_eq; f_equal; eval_tac).
  split; [exact Hall|]. split; [exact Hnd|]. split; [exact Hrun|].
  destruct (remove_trackers_readds_offered [Entry (Some "X")] snapshot w w'
              Hall Hnd Hrun) as (new & _ & _ & _ & Hremoved).
  assert (offered (dev w) snapshot "X") as Hoffered.
  { exists "X", (snapshot_record true).
    split; [apply list_elem_of_here|]. split; [reflexivity|].
    intros _. reflexivity. }
  destruct (Hremoved "X") as [Hiff Hnew]; [apply list_elem_of_here|].
  split; [by apply Hiff|]. by apply Hnew.
Defined.

(** The tracker of X is removed, then an entity without a MAC stops the
    removal. *)
Lemma remove_trackers_key_error_witness :
  let snapshot : list (string * ClientInfo) := [("X", snapshot_record true)] in
  let w := after (update_devices (Fetched snapshot))
             (world (ARDevice_init (options 5))) in
  let run := remove_trackers (Some (Some ([Entry (Some "X")] ++ [Entry None])))
               (Fetched snapshot) in
  Forall (λ v, v ≠ Entry None) [Entry (Some "X")] ∧
  NoDup (client_keys w) ∧
  result run w = Raise KeyError ∧
  client_keys (after run w) = [].
Proof.
  intros snapshot w run.
  assert (Forall (λ v, v ≠ Entry None) [Entry (Some "X")]) as Hall
    by (by repeat constructor).
  assert (NoDup (client_keys w)) as Hnd.
  { replace (client_keys w) with ["X"] by eval_tac. apply NoDup_singleton. }
  split; [exact Hall|]. split; [exact Hnd|].
  destruct (remove_trackers_key_error [Entry (Some "X")] [] (Fetched snapshot) w
              Hall Hnd) as (Hres & Hdev & _).
  split; [exact Hres|]. unfold client_keys. fold run in Hdev. rewrite Hdev.
  eval_tac.
Defined.

(** Once the coordinators exist, a pass that finds X leaves the sensors
    reading what the device holds. *)
Lemma update_devices_publishes_witness :
  let w := after (_init_sensor_coordinators (Available []))
             (world (ARDevice_init (options 5))) in
  let snapshot : list (string * ClientInfo) := [("X", snapshot_record true)] in
  let w' := after (update_devices (Fetched snapshot)) w in
  is_Some (_sensor_handler (dev w)) ∧
  AIMESH ∈ _sensor_coordinator (dev w) ∧
  DEVICES ∈ _sensor_coordinator (dev w) ∧
  update_devices (Fetched snapshot) w = (Ret tt, w') ∧
  ∃ h', _sensor_handler (dev w') = Some h' ∧ sensors_current (dev w') h'.
Proof.
  intros w snapshot w'.
  assert (is_Some (_sensor_handler (dev w))) as Hh.
  { destruct (_sensor_handler (dev w)) as [h|] eqn:Hsome; [by exists h|].
    vm_compute in Hsome. discriminate. }
  assert (_sensor_coordinator (dev w) = [DEVICES; AIMESH]) as Hcoord by eval_tac.
  assert (AIMESH ∈ _sensor_coordinator (dev w)) as Ha
    by (rewrite Hcoord; apply list_elem_of_further, list_elem_of_here).
  assert (DEVICES ∈ _sensor_coordinator (dev w)) as Hd
    by (rewrite Hcoord; apply list_elem_of_here).
  assert (update_devices (Fetched snapshot) w = (Ret tt, w')) as Hrun
    by (rewrite run_eq; f_equal; eval_tac).
  split; [exact Hh|]. split; [exact Ha|]. split; [exact Hd|].
  split; [exact Hrun|].
  destruct (update_devices_publishes snapshot w w' Hh Ha Hd Hrun)
    as (h' & Hh' & Hcurrent & _).
  exists h'. split; [exact Hh'|exact Hcurrent].
Defined.

(** The setup of a fresh router that reports the node N and the client X
    and whose bridge has found sensors of the CPU makes the coordinators of
    the CPU, of the devices and of the AiMesh sensors and refreshes each of
    them once. *)
Lemma setup_publishes_witness :
  let w := world (ARDevice_init (options 5)) in
  let found := [("cpu", sensors (Some "_get_data_cpu"))] in
  let run := setup (Fetched [("N", snapshot_record true)])
               (Fetched [("X", snapshot_record true)]) (Available found) in
  let w' := after run w in
  _sensor_handler (dev w) = None ∧
  run w = (Ret tt, w') ∧
  _sensor_coordinator (dev w) = [] ∧
  NoDup found.*1 ∧
  _sensor_coordinator (dev w') = [Sensor "cpu"; DEVICES; AIMESH] ∧
  filter is_refresh (added w w')
  = [Refresh (Sensor "cpu"); Refresh DEVICES; Refresh AIMESH].
Proof.
  intros w found run w'.
  assert (_sensor_handler (dev w) = None) as Hnone by reflexivity.
  assert (run w = (Ret tt, w')) as Hrun by (rewrite run_eq; f_equal; eval_tac).
  assert (_sensor_coordinator (dev w) = []) as Hempty by reflexivity.
  assert (NoDup found.*1) as Hnd by apply NoDup_singleton.
  split; [exact Hnone|]. split; [exact Hrun|]. split; [exact Hempty|].
  split; [exact Hnd|].
  destruct (setup_publishes _ _ _ w w' Hnone Hrun)
    as (_ & _ & sensors' & Hfound & Hmode).
  injection Hfound as <-.
  assert (tracking_mode (opt_mode (_options (dev w))) = true) as Htracking
    by reflexivity.
  rewrite Htracking in Hmode. destruct Hmode as (_ & Hfresh & Hrefresh).
  split; [by rewrite (Hfresh Hempty Hnd)|].
  by rewrite Hrefresh.
Defined.

(** Submitting twice that SSL is off asks for a reload the second time
    too. *)
Lemma update_options_resubmitted_witness :
  let new_options := [("ssl", PBool false)] in
  let held := (update_options ["ssl"] ∅ new_options).2 in
  NoDup new_options.*1 ∧
  update_options ["ssl"] held new_options = (true, held).
Proof.
  intros new_options held.
  assert (NoDup new_options.*1) as Hnd by apply NoDup_singleton.
  split; [exact Hnd|].
  destruct (update_options_resubmitted ["ssl"] ∅ new_options Hnd)
    as [Hsame Hreload].
  fold held in Hsame, Hreload. apply injective_projections; simpl.
  - apply Hreload. exists "ssl", (PBool false).
    split; [apply list_elem_of_here|]. split; [apply list_elem_of_here|done].
  - exact Hsame.
Defined.


(** Two functions registered on an active bridge: closing disconnects and
    calls both, in order. *)
Lemma close_runs_callbacks_once_witness :
  let self := {| bridge_active := true; _on_close := [] |} in
  let funcs := [func "a" false; func "b" false] in
  Forall (λ f, func_raises f = false) (_on_close self ++ funcs) ∧
  close false (foldl (λ s f, async_on_close f s) self funcs)
  = ([Disconnect; Called "a"; Called "b"], false,
     {| bridge_active := false; _on_close := [] |}).
Proof.
  intros self funcs.
  assert (Forall (λ f, func_raises f = false) (_on_close self ++ funcs)) as Hok
    by (by repeat constructor).
  split; [exact Hok|].
  destruct (close_runs_callbacks_once self funcs Hok) as [Hclose _].
  exact Hclose.
Defined.

(** The second of three functions raises: the third is not called and all
    three stay registered. *)
Lemma close_interrupted_witness :
  let funcs := [func "a" false; func "b" true; func "c" false] in
  let self := {| bridge_active := true; _on_close := funcs |} in
  _on_close self = [func "a" false] ++ func "b" true :: [func "c" false] ∧
  Forall (λ f, func_raises f = false) [func "a" false] ∧
  func_raises (func "b" true) = true ∧
  close false self
  = ([Disconnect; Called "a"; Called "b"], true,
     {| bridge_active := false; _on_close := funcs |}).
Proof.
  intros funcs self.
  assert (Forall (λ f, func_raises f = false) [func "a" false]) as Hok
    by (by repeat constructor).
  split; [reflexivity|]. split; [exact Hok|]. split; [reflexivity|].
  destruct (close_interrupted self [func "a" false] [func "c" false]
              (func "b" true) eq_refl Hok eq_refl) as [Hclose _].
  exact Hclose.
Defined.

(** The port types of the concrete runs are no list keys. *)
Lemma keys_apart_names : Bridge.keys_apart.
Proof.
  intros p p' Hp Hp'.
  repeat (apply elem_of_cons in Hp as [->|Hp]);
    [..|by apply elem_of_nil in Hp];
    (repeat (apply elem_of_cons in Hp' as [->|Hp']);
     [..|by apply elem_of_nil in Hp']); done.
Qed.

(** The device reports two LAN ports, one of them up, and no WAN port. *)
Lemma process_data_ports_flags_witness :
  let raw : gmap string (list (Z * identity)) :=
    {[ "lan" := [(1, port true); (2, port false)] ]} in
  Bridge.keys_apart ∧
  NoDup Bridge.LIST_PORTS ∧
  ∃ data,
    Bridge._process_data_ports raw = inr data ∧
    data !! "lan" = Some (Bridge.PortFlag true) ∧
    data !! "wan" = Some (Bridge.PortFlag false) ∧
    data !! "wan_list" = None.
Proof.
  intros raw.
  assert (NoDup Bridge.LIST_PORTS) as Hnd.
  { apply NoDup_cons. split; [|apply NoDup_singleton].
    by intros ?%list_elem_of_singleton. }
  split; [exact keys_apart_names|]. split; [exact Hnd|].
  destruct (process_data_ports_flags raw keys_apart_names Hnd)
    as (data & Hrun & Hspec).
  exists data. split; [exact Hrun|].
  destruct (Hspec "lan") as [Hlan _]; [apply list_elem_of_here|].
  destruct (Hspec "wan") as [Hwan Hwan_list];
    [apply list_elem_of_further, list_elem_of_here|].
  split; [exact Hlan|]. split; [exact Hwan|]. exact Hwan_list.
Defined.

(** Every key of the data of that report is among the sensors
    announced. *)
Lemma ports_sensors_cover_data_witness :
  let raw : gmap string (list (Z * identity)) :=
    {[ "lan" := [(1, port true); (2, port false)] ]} in
  match Bridge._process_data_ports raw with
  | inr data =>
      Bridge._process_data_ports raw = inr data ∧
      ∀ k, is_Some (data !! k) → k ∈ Bridge._process_sensors_ports raw
  | inl _ => False
  end.
Proof.
  intros raw.
  destruct (Bridge._process_data_ports raw) as [e|data] eqn:Hrun.
  - vm_compute in Hrun. discriminate.
  - split; [reflexivity|].
    destruct (ports_sensors_cover_data raw data Hrun) as (Hcover & _).
    exact Hcover.
Defined.
End more_runs.
